(** * Thames: the query / download / play pipeline

    A shallow embedding of [thames.go] (the version with on-demand
    download): the [sound] items, the local cache and the remote asset
    source seen through [fileExists] and [downloadFile], the two
    [playersRouter] implementations over a heap of Go channels, the
    [downloader] loop, and the goroutines of [main] as an interleaving
    transition system whose atomic steps are the channel operations and the
    critical sections of the router. *)

From Stdlib Require Import ZArith.
From stdpp Require Import gmap strings list fin_maps.

Local Open Scope string_scope.
Local Open Scope list_scope.
Set Warnings "-clear-no-such-hyp".

(** ** Constants and the [sound] record *)

Definition AssetsRoot : string := "http://bbcsfx.acropolis.org.uk/assets/".
Definition PlayerChannelSize : nat := 30.

Record sound := mkSound {
  descr : string;   (* the description of the sound *)
  fname : string;   (* file name of the sound in the DB index *)
  fpath : string;   (* full path of the sound file; set by queryDatabase,
                       though the source comment names the downloader *)
  query : string;   (* the query for this sound *)
  secs  : Z         (* duration in seconds *)
}.

#[global] Instance sound_eq_dec : EqDecision sound.
Proof. solve_decision. Defined.

(** A row of the catalog as [rows.Scan] reads it: location, description,
    secs.  The result of a query is a list of [option row]: a row that
    [rows.Scan] reads, or [None] where the cursor fails ([rows.Scan] cannot
    read the row, as when its secs column is no number, or [rows.Next]
    stops and [rows.Err] reports the error). *)
Record row := mkRow { r_location : string; r_description : string; r_secs : Z }.

(** ** Configuration: the package-level flags and directories *)

Record Config := mkConfig {
  workDir      : string;       (* the root of the cache, set at start-up *)
  nsounds      : Z;
  onlyQuery    : bool;
  onlyDownload : bool;
  shuffle      : bool;
  mix          : bool;
  args         : list string   (* flag.Args() *)
}.

Definition assetUrl (asset : string) : string := AssetsRoot +:+ asset.

(** [filepath.Join] on two elements: empty elements are ignored, the others
    are joined by the separator.  (The lexical clean-up that [Join] also
    performs is left out: paths are opaque keys of the file system here.) *)
Definition filepath_Join (a b : string) : string :=
  if decide (a = "") then b
  else if decide (b = "") then a
  else a +:+ "/" +:+ b.

(** [prepareWorkDirectory]: [soundsDir = filepath.Join(workDir, "sounds")]. *)
Definition soundsDir (cfg : Config) : string :=
  filepath_Join (workDir cfg) "sounds".

Definition soundPath (cfg : Config) (fname : string) : string :=
  filepath_Join (soundsDir cfg) fname.

(** ** The outside world: local files, remote assets, the catalog *)

Inductive error :=
  | ENotExist (path : string)            (* os.Stat: no such file *)
  | EStat (path : string)                (* os.Stat: any other failure *)
  | EGet (url : string)                  (* http.Get transport error *)
  | EStatus (url : string) (code : Z)    (* "Response from %s is %d" *)
  | ECreate (path : string)              (* os.Create failed *)
  | ECopy (path : string).               (* io.Copy failed part-way *)

#[global] Instance error_eq_dec : EqDecision error.
Proof. solve_decision. Defined.

(** What [http.Get] yields for a URL: a status code and a body; [copy_cut]
    is [Some n] when [io.Copy] of that body breaks with an error after [n]
    bytes have reached the file. *)
Record response := mkResponse {
  status   : Z;
  body     : list Byte.byte;
  copy_cut : option nat
}.

Record World := mkWorld {
  files         : gmap string (list Byte.byte);  (* the local file system *)
  stat_denied   : gset string;     (* paths on which os.Stat fails otherwise *)
  create_denied : gset string;     (* paths that os.Create cannot create *)
  remote        : gmap string response;  (* url -> response; absent: transport error *)
  catalog       : string → option (list (option row))
                                   (* the MATCH query; None: the query fails *)
}.

Definition set_files (w : World) (f : gmap string (list Byte.byte)) : World :=
  mkWorld f (stat_denied w) (create_denied w) (remote w) (catalog w).

(** [os.Stat], reduced to its error result ([None] is Go's [nil]). *)
Definition os_Stat (w : World) (path : string) : option error :=
  if bool_decide (path ∈ stat_denied w) then Some (EStat path)
  else match files w !! path with
       | Some _ => None
       | None => Some (ENotExist path)
       end.

Definition os_IsNotExist (e : error) : bool :=
  match e with ENotExist _ => true | _ => false end.

Definition fileExists (w : World) (path : string) : bool * option error :=
  match os_Stat w path with
  | None => (true, None)
  | Some err =>
      if negb (os_IsNotExist err) then (false, Some err)
      else (false, None)
  end.

(** [downloadFile]: get, check the status, create the file at its final
    path, copy the body into it.  [os.Create] truncates, so the file holds
    exactly what the copy wrote, also when the copy stops early. *)
Definition downloadFile (w : World) (path url : string) : World * option error :=
  match remote w !! url with
  | None => (w, Some (EGet url))
  | Some resp =>
      if negb (status resp =? 200)%Z then (w, Some (EStatus url (status resp)))
      else if bool_decide (path ∈ create_denied w) then (w, Some (ECreate path))
      else match copy_cut resp with
           | Some n => (set_files w (<[path := take n (body resp)]> (files w)),
                        Some (ECopy path))
           | None => (set_files w (<[path := body resp]> (files w)), None)
           end
  end.

(** ** Channels *)

(** A buffered Go channel of sounds.  [sent] is a ghost history: everything
    ever sent on the channel, oldest first. *)
Record chan := mkChan {
  buf    : list sound;
  closed : bool;
  cap    : nat;
  sent   : list sound
}.

(** The heap of channels made so far; a channel value is its index. *)
Abbreviation heap := (list chan).

Definition make_chan (capacity : nat) (h : heap) : nat * heap :=
  (length h, h ++ [mkChan [] false capacity []]).

(** [close(c)]: [None] is the run-time panic "close of closed channel". *)
Definition close_chan (c : nat) (h : heap) : option heap :=
  match h !! c with
  | Some ch =>
      if closed ch then None
      else Some (<[c := mkChan (buf ch) true (cap ch) (sent ch)]> h)
  | None => None
  end.

(** [c <- snd] when it can proceed: there is room in the buffer.  A send on
    a closed channel panics; a send on a full buffer blocks ([SendBlock]). *)
Inductive send_result := SendOk (h : heap) | SendBlock | SendPanic.

Definition send_chan (c : nat) (snd : sound) (h : heap) : send_result :=
  match h !! c with
  | Some ch =>
      if closed ch then SendPanic
      else if decide (length (buf ch) < cap ch)
      then SendOk (<[c := mkChan (buf ch ++ [snd]) false (cap ch) (sent ch ++ [snd])]> h)
      else SendBlock
  | None => SendBlock
  end.

(** One iteration of [for snd := range c]. *)
Inductive recv_result := RecvOk (snd : sound) (h : heap) | RecvBlock | RecvEnd.

Definition recv_chan (c : nat) (h : heap) : recv_result :=
  match h !! c with
  | Some ch =>
      match buf ch with
      | snd :: rest => RecvOk snd (<[c := mkChan rest (closed ch) (cap ch) (sent ch)]> h)
      | [] => if closed ch then RecvEnd else RecvBlock
      end
  | None => RecvBlock
  end.

(** ** The routers *)

(** The [playersRouter] interface: [route] may make a channel, [close] may
    panic. *)
Class playersRouter (R : Type) := {
  route : string → R → heap → nat * R * heap;
  close : R → heap → option heap
}.

Record singlePlayersRouter := mkSingle { c : nat }.

Definition newSinglePlayersRouter (h : heap) : singlePlayersRouter * heap :=
  let '(ch, h') := make_chan PlayerChannelSize h in (mkSingle ch, h').

#[global] Instance single_router : playersRouter singlePlayersRouter := {
  route _ r h := (c r, r, h);
  close r h := close_chan (c r) h
}.

Record multiPlayersRouter := mkMulti { routes : gmap string nat }.

Definition newMultiPlayersRouter : multiPlayersRouter := mkMulti ∅.

(** [r.Lock(); defer r.Unlock()]: the body of each method is one critical
    section, so each call is one atomic step of the system below. *)
Definition multi_route (q : string) (r : multiPlayersRouter) (h : heap)
  : nat * multiPlayersRouter * heap :=
  match routes r !! q with
  | Some ch => (ch, r, h)
  | None =>
      let '(ch, h') := make_chan PlayerChannelSize h in
      (ch, mkMulti (<[q := ch]> (routes r)), h')
  end.

(** [for _, c := range r.routes { close(c) }] *)
Definition close_all (cs : list nat) (h : heap) : option heap :=
  foldl (λ oh ch, oh ≫= close_chan ch) (Some h) cs.

Definition multi_close (r : multiPlayersRouter) (h : heap) : option heap :=
  close_all ((map_to_list (routes r)).*2) h.

#[global] Instance multi_router : playersRouter multiPlayersRouter := {
  route := multi_route;
  close := multi_close
}.

(** The value of [var router playersRouter] in [main]. *)
Inductive router :=
  | RSingle (r : singlePlayersRouter)
  | RMulti (r : multiPlayersRouter).

#[global] Instance any_router : playersRouter router := {
  route q r h :=
    match r with
    | RSingle r => let '(ch, r', h') := route q r h in (ch, RSingle r', h')
    | RMulti r => let '(ch, r', h') := route q r h in (ch, RMulti r', h')
    end;
  close r h :=
    match r with
    | RSingle r => close r h
    | RMulti r => close r h
    end
}.

(** ** The catalog query source *)

(** [LIMIT ?]: a negative limit means no limit. *)
Definition limit_rows {A} (n : Z) (rs : list A) : list A :=
  if (n <? 0)%Z then rs else take (Z.to_nat n) rs.

(** The item [queryDatabase] builds from one row: it scans the three
    columns, then sets [query] and [fpath]. *)
Definition scan (cfg : Config) (q : string) (r : row) : sound :=
  mkSound (r_description r) (r_location r)
          (soundPath cfg (r_location r)) q (r_secs r).

(** [stmt.Query(query, nsounds)]: the rows of the MATCH query, cut by the
    LIMIT; [None] when the query fails. *)
Definition stmt_Query (w : World) (q : string) (n : Z)
  : option (list (option row)) :=
  limit_rows n <$> catalog w q.

(** The rows that the loop [for rows.Next() { rows.Scan(...) ... }] reads:
    those before the cursor fails or ends. *)
Fixpoint rows_read (rs : list (option row)) : list row :=
  match rs with
  | Some r :: rs' => r :: rows_read rs'
  | _ => []
  end.

(** The loop ends in [log.Fatal]: [rows.Scan] fails on a row, or the rows
    end with [rows.Err() != nil]. *)
Fixpoint cursor_fails (rs : list (option row)) : bool :=
  match rs with
  | [] => false
  | Some _ :: rs' => cursor_fails rs'
  | None :: _ => true
  end.

(** The items that [queryDatabase] builds from the rows it reads and sends
    to [out], in order; [None] when the query fails ([log.Fatal]). *)
Definition query_items (cfg : Config) (w : World) (q : string)
  : option (list sound) :=
  (λ rs, scan cfg q <$> rows_read rs) <$> stmt_Query w q (nsounds cfg).

(** After those items [queryDatabase] does not return: the cursor has
    failed, which is fatal. *)
Definition rows_fatal (cfg : Config) (w : World) (q : string) : bool :=
  match stmt_Query w q (nsounds cfg) with
  | Some rs => cursor_fails rs
  | None => false
  end.

(** ** The trace: log lines and the events of the pipeline *)

Inductive event :=
  | LogCached (snd : sound)          (* "Cached: %q %s" *)
  | LogFetch (snd : sound)           (* "Fetch: %q %s", then downloadFile *)
  | LogErrorDownload (snd : sound) (e : error)
                                     (* "Error:Download %v": snd is dropped *)
  | LogPlaying (snd : sound)         (* "Playing: %q %s %s %s" *)
  | EvPlay (snd : sound)             (* play -q fpath *)
  | EvQuery (i : nat) (q : string)   (* stmt.Query for args[i] *)
  | EvTaken (snd : sound)            (* the downloader received snd *)
  | EvRouted (ch : nat) (snd : sound)  (* snd was sent on stream ch *)
  | EvClose.                         (* router.close() returned *)

(** ** The body of the downloader loop, for one item *)

(** From the receive up to the test [err == nil] that decides between
    routing and dropping: the new world, the log lines, and [err]. *)
Definition retrieve (cfg : Config) (w : World) (snd : sound)
  : World * list event * option error :=
  let '(present, err) := fileExists w (soundPath cfg (fname snd)) in
  match err with
  | None =>
      if present then (w, [LogCached snd], None)
      else
        let '(w', err') :=
          downloadFile w (soundPath cfg (fname snd)) (assetUrl (fname snd)) in
        (w', [LogFetch snd], err')
  | Some e => (w, [], Some e)
  end.

(** ** The goroutines of [main] *)

Inductive inq_state :=
  | InqIdle                          (* queryDatabase not yet called *)
  | InqRunning (rest : list sound)   (* in the rows loop; rest still to send *)
  | InqDone.                         (* queryDatabase returned *)

Inductive dl_state :=
  | DlRecv                           (* at [range in] *)
  | DlGot (snd : sound)              (* received snd, about to check the cache *)
  | DlReady (snd : sound)            (* err == nil, about to call router.route *)
  | DlSending (snd : sound) (ch : nat)   (* at the send on ch *)
  | DlDone.                          (* loop over, router.close() done *)

Inductive pl_state :=
  | PlStart                          (* about to call router.route *)
  | PlRecv (ch : nat)                (* at [range in] *)
  | PlDone.

(** A player goroutine: the key it routes, whether it is the mock player,
    and where it stands. *)
Record player_task := mkPlayer { pl_key : string; pl_mock : bool; pl_st : pl_state }.

(** How the process died: [log.Fatal], or a run-time panic. *)
Inductive halt := Fatal | Panic.

(** The state of the pipeline.  [downloadCh] is unbuffered: a send on it is
    a rendezvous with the downloader's receive, so the state holds only
    whether it was closed.  The streams of the router live in [st_heap]. *)
Record state := mkState {
  st_world   : World;
  st_heap    : heap;
  st_router  : router;
  st_inq     : list inq_state;         (* one per element of args *)
  st_intake_closed : bool;             (* close(downloadCh) done *)
  st_dl      : dl_state;
  st_players : option (list player_task);   (* None: the launcher has not run *)
  st_trace   : list event;             (* oldest first *)
  st_halt    : option halt
}.

Definition set_world (w : World) (s : state) : state :=
  mkState w (st_heap s) (st_router s) (st_inq s) (st_intake_closed s)
          (st_dl s) (st_players s) (st_trace s) (st_halt s).
Definition set_heap (h : heap) (s : state) : state :=
  mkState (st_world s) h (st_router s) (st_inq s) (st_intake_closed s)
          (st_dl s) (st_players s) (st_trace s) (st_halt s).
Definition set_router (r : router) (s : state) : state :=
  mkState (st_world s) (st_heap s) r (st_inq s) (st_intake_closed s)
          (st_dl s) (st_players s) (st_trace s) (st_halt s).
Definition set_inq (q : list inq_state) (s : state) : state :=
  mkState (st_world s) (st_heap s) (st_router s) q (st_intake_closed s)
          (st_dl s) (st_players s) (st_trace s) (st_halt s).
Definition set_intake_closed (b : bool) (s : state) : state :=
  mkState (st_world s) (st_heap s) (st_router s) (st_inq s) b
          (st_dl s) (st_players s) (st_trace s) (st_halt s).
Definition set_dl (d : dl_state) (s : state) : state :=
  mkState (st_world s) (st_heap s) (st_router s) (st_inq s) (st_intake_closed s)
          d (st_players s) (st_trace s) (st_halt s).
Definition set_players (p : option (list player_task)) (s : state) : state :=
  mkState (st_world s) (st_heap s) (st_router s) (st_inq s) (st_intake_closed s)
          (st_dl s) p (st_trace s) (st_halt s).
Definition emit (es : list event) (s : state) : state :=
  mkState (st_world s) (st_heap s) (st_router s) (st_inq s) (st_intake_closed s)
          (st_dl s) (st_players s) (st_trace s ++ es) (st_halt s).
Definition set_halt (x : halt) (s : state) : state :=
  mkState (st_world s) (st_heap s) (st_router s) (st_inq s) (st_intake_closed s)
          (st_dl s) (st_players s) (st_trace s) (Some x).

(** A scheduler's choice: which goroutine takes its next atomic step.  The
    atomic steps are the channel operations, the critical sections of the
    router and the calls to the outside world. *)
Inductive label :=
  | LInquirer (i : nat)   (* the call queryDatabase(stmt, args[i], ...) *)
  | LCloseIntake          (* the goroutine that made the calls: close(downloadCh) *)
  | LDownloader           (* the downloader *)
  | LLaunch               (* the goroutine that launches the players *)
  | LPlayer (p : nat).    (* player p *)

Definition concurrent_queries (cfg : Config) : bool := shuffle cfg || mix cfg.

Definition all_done (qs : list inq_state) : bool :=
  forallb (λ q, match q with InqDone => true | _ => false end) qs.

(** With [--shuffle] or [--mix] each query has its own goroutine; otherwise
    query i is called when the calls before it have returned. *)
Definition may_start (cfg : Config) (i : nat) (s : state) : bool :=
  concurrent_queries cfg || all_done (take i (st_inq s)).

(** [queryDatabase(stmt, args[i], *nsounds, downloadCh)], one step: the
    query; or the send of the next item, which on the unbuffered
    [downloadCh] needs the downloader at its receive; or, after the last
    item read, the return, or [log.Fatal] when the cursor has failed. *)
Definition queryDatabase (cfg : Config) (i : nat) (s : state) : option state :=
  match st_inq s !! i, args cfg !! i with
  | Some InqIdle, Some q =>
      if may_start cfg i s then
        match query_items cfg (st_world s) q with
        | Some items =>
            Some (emit [EvQuery i q] (set_inq (<[i := InqRunning items]> (st_inq s)) s))
        | None => Some (set_halt Fatal s)
        end
      else None
  | Some (InqRunning (snd :: rest)), _ =>
      match st_dl s with
      | DlRecv =>
          Some (emit [EvTaken snd]
                  (set_dl (DlGot snd) (set_inq (<[i := InqRunning rest]> (st_inq s)) s)))
      | _ => None
      end
  | Some (InqRunning []), Some q =>
      if rows_fatal cfg (st_world s) q then Some (set_halt Fatal s)
      else Some (set_inq (<[i := InqDone]> (st_inq s)) s)
  | _, _ => None
  end.

(** [downloader(downloadCh, router)], one step from where it stands: the
    cache check and the fetch for the item received; the [route] call; the
    send on the stream; or, at [range in] with [downloadCh] closed, the end
    of the loop and the deferred [router.close()]. *)
Definition downloader (cfg : Config) (s : state) : option state :=
  match st_dl s with
  | DlGot snd =>
      let '(w', evs, err) := retrieve cfg (st_world s) snd in
      match err with
      | None => Some (emit evs (set_dl (DlReady snd) (set_world w' s)))
      | Some e =>
          Some (emit (evs ++ [LogErrorDownload snd e])
                  (set_dl DlRecv (set_world w' s)))
      end
  | DlReady snd =>
      let '(ch, r', h') := route (query snd) (st_router s) (st_heap s) in
      Some (set_dl (DlSending snd ch) (set_router r' (set_heap h' s)))
  | DlSending snd ch =>
      match send_chan ch snd (st_heap s) with
      | SendOk h' => Some (emit [EvRouted ch snd] (set_dl DlRecv (set_heap h' s)))
      | SendBlock => None
      | SendPanic => Some (set_halt Panic s)
      end
  | DlRecv =>
      if st_intake_closed s then
        match close (st_router s) (st_heap s) with
        | Some h' => Some (emit [EvClose] (set_dl DlDone (set_heap h' s)))
        | None => Some (set_halt Panic s)
        end
      else None
  | DlDone => None
  end.

Definition realPlayer (key : string) : player_task := mkPlayer key false PlStart.
Definition mockPlayer (key : string) : player_task := mkPlayer key true PlStart.

(** The players that the launcher starts, each with the key it routes. *)
Definition launch (cfg : Config) : list player_task :=
  if onlyDownload cfg then [mockPlayer ""]
  else if negb (mix cfg) then [realPlayer ""]
  else realPlayer <$> args cfg.

Definition set_player (p : nat) (x : pl_state) (s : state) : state :=
  set_players
    ((λ ps, alter (λ pl, mkPlayer (pl_key pl) (pl_mock pl) x) p ps) <$> st_players s) s.

(** [player(router.route(key), mock)], one step: the [route] call that
    yields its channel; or one iteration of [range in], which is the
    receive, the log line and, unless mock, the run of play(1) to its end (a
    failure of play(1) is only logged and is not modelled); or the end of
    the loop on a closed and drained channel. *)
Definition player (p : nat) (s : state) : option state :=
  match st_players s ≫= (.!! p) with
  | Some (mkPlayer key _ PlStart) =>
      let '(ch, r', h') := route key (st_router s) (st_heap s) in
      Some (set_player p (PlRecv ch) (set_router r' (set_heap h' s)))
  | Some (mkPlayer _ mock (PlRecv ch)) =>
      match recv_chan ch (st_heap s) with
      | RecvOk snd h' =>
          Some (emit (LogPlaying snd :: if mock then [] else [EvPlay snd])
                  (set_heap h' s))
      | RecvEnd => Some (set_player p PlDone s)
      | RecvBlock => None
      end
  | _ => None
  end.

Definition step_running (cfg : Config) (l : label) (s : state) : option state :=
  match l with
  | LInquirer i => queryDatabase cfg i s
  | LCloseIntake =>
      if all_done (st_inq s) && negb (st_intake_closed s)
      then Some (set_intake_closed true s) else None
  | LDownloader => downloader cfg s
  | LLaunch =>
      match st_players s with
      | None => Some (set_players (Some (launch cfg)) s)
      | Some _ => None
      end
  | LPlayer p => player p s
  end.

(** Nothing runs once the process has died. *)
Definition step (cfg : Config) (l : label) (s : state) : option state :=
  match st_halt s with
  | Some _ => None
  | None => step_running cfg l s
  end.

Fixpoint run (cfg : Config) (ls : list label) (s : state) : option state :=
  match ls with
  | [] => Some s
  | l :: ls' => step cfg l s ≫= run cfg ls'
  end.

(** The state in which [main] leaves the pipeline to its goroutines: router
    chosen by [--mix], [downloadCh] made, nothing started. *)
Definition init (cfg : Config) (w : World) : state :=
  let '(r, h) :=
    if mix cfg then (RMulti newMultiPlayersRouter, [])
    else let '(r, h) := newSinglePlayersRouter [] in (RSingle r, h) in
  mkState w h r (replicate (length (args cfg)) InqIdle) false DlRecv None [] None.

Definition reachable (cfg : Config) (w : World) (s : state) : Prop :=
  ∃ ls, run cfg ls (init cfg w) = Some s.

(** [wg.Wait()] returns: every goroutine has finished. *)
Definition finished (s : state) : bool :=
  all_done (st_inq s) && st_intake_closed s &&
  match st_dl s with DlDone => true | _ => false end &&
  match st_players s with
  | Some ps => forallb (λ p, match pl_st p with PlDone => true | _ => false end) ps
  | None => false
  end.

(** No goroutine can take a step. *)
Definition stuck (cfg : Config) (s : state) : Prop :=
  ∀ l, step cfg l s = None.

(** ** [--query]: print the results; no download, no play *)

(** [main] starts one goroutine per query: [range out], and for each item
    [os.Stat(snd.fpath)] and one [fmt.Printf].  A printer is the item it has
    received and not yet printed.  [pv_log] is a ghost history: which
    printer printed which item, in the order of the lines of [pv_stdout]. *)
Record pv_state := mkPv {
  pv_world    : World;
  pv_pos      : nat;                   (* index in [range flag.Args()] *)
  pv_rest     : option (list sound);   (* rows the running queryDatabase call
                                          has still to send; None: not called *)
  pv_printers : list (option sound);   (* one per query started *)
  pv_stdout   : list string;           (* the lines printed, oldest first *)
  pv_log      : list (nat * sound);
  pv_exit     : option Z               (* the exit status, once exited *)
}.

(** The line printed for [snd]: description and local path when the file is
    there, description and asset URL when it is not. *)
Definition preview_line (w : World) (snd : sound) : string :=
  match os_Stat w (fpath snd) with
  | None => descr snd +:+ " " +:+ fpath snd +:+ "
"
  | Some _ => descr snd +:+ " " +:+ assetUrl (fname snd) +:+ "
"
  end.

Inductive pv_label :=
  | PvMain            (* the main goroutine, in the loop of the preview *)
  | PvPrinter (i : nat).  (* the goroutine printing the results of args[i] *)

(** The main goroutine, one step of
    [for _, query := range flag.Args() { out := make(chan sound); go ...;
    queryDatabase(stmt, query, *nsounds, out) }; os.Exit(0)]: the start of a
    query with its printer; the send of the next item, which on the
    unbuffered [out] needs the printer at its receive; the return of
    [queryDatabase], or its [log.Fatal] (exit status 1) when the cursor has
    failed; or, after the last query, the exit. *)
Definition preview_main (cfg : Config) (p : pv_state) : option pv_state :=
  match pv_rest p with
  | None =>
      match args cfg !! pv_pos p with
      | Some q =>
          match query_items cfg (pv_world p) q with
          | Some items =>
              Some (mkPv (pv_world p) (pv_pos p) (Some items)
                         (pv_printers p ++ [None])
                         (pv_stdout p) (pv_log p) None)
          | None =>
              Some (mkPv (pv_world p) (pv_pos p) None (pv_printers p)
                         (pv_stdout p) (pv_log p) (Some 1%Z))
          end
      | None =>
          Some (mkPv (pv_world p) (pv_pos p) None (pv_printers p)
                     (pv_stdout p) (pv_log p) (Some 0%Z))
      end
  | Some (snd :: rest) =>
      match pv_printers p !! pv_pos p with
      | Some None =>
          Some (mkPv (pv_world p) (pv_pos p) (Some rest)
                     (<[pv_pos p := Some snd]> (pv_printers p))
                     (pv_stdout p) (pv_log p) None)
      | _ => None
      end
  | Some [] =>
      match args cfg !! pv_pos p with
      | Some q =>
          if rows_fatal cfg (pv_world p) q then
            Some (mkPv (pv_world p) (pv_pos p) (Some []) (pv_printers p)
                       (pv_stdout p) (pv_log p) (Some 1%Z))
          else
            Some (mkPv (pv_world p) (S (pv_pos p)) None (pv_printers p)
                       (pv_stdout p) (pv_log p) None)
      | None => None
      end
  end.

(** Printer [i], one step: [os.Stat] and [fmt.Printf] for the item it
    holds. *)
Definition printer (i : nat) (p : pv_state) : option pv_state :=
  match pv_printers p !! i with
  | Some (Some snd) =>
      Some (mkPv (pv_world p) (pv_pos p) (pv_rest p)
                 (<[i := None]> (pv_printers p))
                 (pv_stdout p ++ [preview_line (pv_world p) snd])
                 (pv_log p ++ [(i, snd)]) None)
  | _ => None
  end.

Definition pv_step_running (cfg : Config) (l : pv_label) (p : pv_state)
  : option pv_state :=
  match l with
  | PvMain => preview_main cfg p
  | PvPrinter i => printer i p
  end.

Definition pv_step (cfg : Config) (l : pv_label) (p : pv_state) : option pv_state :=
  match pv_exit p with
  | Some _ => None
  | None => pv_step_running cfg l p
  end.

Fixpoint pv_run (cfg : Config) (ls : list pv_label) (p : pv_state) : option pv_state :=
  match ls with
  | [] => Some p
  | l :: ls' => pv_step cfg l p ≫= pv_run cfg ls'
  end.

Definition pv_init (w : World) : pv_state := mkPv w 0 None [] [] [] None.

(** The items that printer [i] has printed. *)
Definition printed_by (i : nat) (log : list (nat * sound)) : list sound :=
  omap (λ x, if decide (x.1 = i) then Some x.2 else None) log.

(** ** [main]: the preview, or the pipeline *)

Inductive program := Preview (p : pv_state) | Pipeline (s : state).

Definition main (cfg : Config) (w : World) : program :=
  if onlyQuery cfg then Preview (pv_init w) else Pipeline (init cfg w).

Inductive main_label := InPreview (l : pv_label) | InPipeline (l : label).

Definition main_step (cfg : Config) (l : main_label) (g : program) : option program :=
  match l, g with
  | InPreview l, Preview p => Preview <$> pv_step cfg l p
  | InPipeline l, Pipeline s => Pipeline <$> step cfg l s
  | _, _ => None
  end.

Fixpoint main_run (cfg : Config) (ls : list main_label) (g : program) : option program :=
  match ls with
  | [] => Some g
  | l :: ls' => main_step cfg l g ≫= main_run cfg ls'
  end.

(** * Invariants, projections and examples *)

(** ** Channel histories *)

(** Every channel's history satisfies [P], and what is buffered is the end
    of what was sent. *)
Definition heap_wf (P : sound → Prop) (h : heap) : Prop :=
  ∀ i x, h !! i = Some x → Forall P (sent x) ∧ suffix (buf x) (sent x).

(** ** Every item in the pipeline is an item that a catalog query built *)

(** [snd] is one of the items that [queryDatabase] builds for a term of the
    command line. *)
Definition produced (cfg : Config) (w : World) (snd : sound) : Prop :=
  ∃ q items, q ∈ args cfg ∧ query_items cfg w q = Some items ∧ snd ∈ items.

Definition event_item (e : event) : option sound :=
  match e with
  | LogCached snd | LogFetch snd | LogErrorDownload snd _ | LogPlaying snd
  | EvPlay snd | EvTaken snd | EvRouted _ snd => Some snd
  | EvQuery _ _ | EvClose => None
  end.

Definition inflight (d : dl_state) : list sound :=
  match d with
  | DlGot snd | DlReady snd | DlSending snd _ => [snd]
  | DlRecv | DlDone => []
  end.

Definition event_ok (P : sound → Prop) (e : event) : Prop :=
  ∀ snd, event_item e = Some snd → P snd.

Record items_inv (P : sound → Prop) (s : state) : Prop := {
  ii_inq : ∀ i rest, st_inq s !! i = Some (InqRunning rest) → Forall P rest;
  ii_dl : Forall P (inflight (st_dl s));
  ii_heap : heap_wf P (st_heap s);
  ii_trace : Forall (event_ok P) (st_trace s)
}.

(** ** Accounting for the items that the downloader takes *)

(** The items received from [downloadCh], in order. *)
Definition taken (tr : list event) : list sound :=
  omap (λ e, match e with EvTaken snd => Some snd | _ => None end) tr.

(** How the downloader finished with an item: sent on a stream, or logged
    and dropped. *)
Inductive outcome := Routed (ch : nat) (snd : sound) | Dropped (snd : sound) (e : error).

Definition outcome_of (e : event) : option outcome :=
  match e with
  | EvRouted ch snd => Some (Routed ch snd)
  | LogErrorDownload snd e => Some (Dropped snd e)
  | _ => None
  end.

Definition outcomes (tr : list event) : list outcome := omap outcome_of tr.

Definition outcome_item (o : outcome) : sound :=
  match o with Routed _ snd | Dropped snd _ => snd end.

Definition routed (tr : list event) : list sound :=
  omap (λ e, match e with EvRouted _ snd => Some snd | _ => None end) tr.

Definition dropped (tr : list event) : list sound :=
  omap (λ e, match e with LogErrorDownload snd _ => Some snd | _ => None end) tr.

(** The items for which [downloadFile] was called. *)
Definition fetches (tr : list event) : list sound :=
  omap (λ e, match e with LogFetch snd => Some snd | _ => None end) tr.

(** The items sent on stream [ch]. *)
Definition routed_on (ch : nat) (tr : list event) : list sound :=
  omap (λ e, match e with
             | EvRouted ch' snd => if decide (ch' = ch) then Some snd else None
             | _ => None
             end) tr.

Definition sent_of (h : heap) (ch : nat) : list sound :=
  from_option sent [] (h !! ch).

(** The in-flight item once the cache check and the fetch are behind it. *)
Definition past_fetch (d : dl_state) : list sound :=
  match d with
  | DlReady snd | DlSending snd _ => [snd]
  | DlGot _ | DlRecv | DlDone => []
  end.

Record acct_inv (s : state) : Prop := {
  ai_taken :
    taken (st_trace s)
    = (outcome_item <$> outcomes (st_trace s)) ++ inflight (st_dl s);
  ai_fetches :
    sublist (fetches (st_trace s))
            ((outcome_item <$> outcomes (st_trace s)) ++ past_fetch (st_dl s));
  ai_sent : ∀ ch, sent_of (st_heap s) ch = routed_on ch (st_trace s)
}.

(** ** The per-query router: one stream per key *)

(** The table and the heap agree: every channel of the heap is the stream
    of exactly one key, and a stream has only ever been sent the items of
    its key. *)
Definition routes_ok (r : multiPlayersRouter) (h : heap) : Prop :=
  size (routes r) = length h ∧
  (∀ k ch, routes r !! k = Some ch →
           ch < length h ∧ Forall (λ snd, query snd = k) (sent_of h ch)) ∧
  (∀ k1 k2 ch, routes r !! k1 = Some ch → routes r !! k2 = Some ch → k1 = k2).

(** The keys that [main] ever passes to [route]: those of the players it
    launches and those of the items, which are the terms of the command
    line. *)
Definition stream_keys (cfg : Config) : gset string :=
  list_to_set (pl_key <$> launch cfg) ∪ list_to_set (args cfg).

Definition player_ok (r : multiPlayersRouter) (pl : player_task) : Prop :=
  match pl_st pl with
  | PlStart => True
  | PlRecv ch => routes r !! pl_key pl = Some ch
  | PlDone => pl_key pl ∈ dom (routes r)
  end.

Record mix_inv (cfg : Config) (s : state) (r : multiPlayersRouter) : Prop := {
  mi_router : st_router s = RMulti r;
  mi_ok : routes_ok r (st_heap s);
  mi_keys : dom (routes r) ⊆ stream_keys cfg;
  mi_dl : ∀ snd ch, st_dl s = DlSending snd ch → routes r !! query snd = Some ch;
  mi_launched : ∀ ps, st_players s = Some ps → pl_key <$> ps = pl_key <$> launch cfg;
  mi_players : ∀ ps, st_players s = Some ps → Forall (player_ok r) ps
}.

(** ** Without [--shuffle] and [--mix] the queries run one after another *)

(** The items of the query for [q]. *)
Definition items_of (cfg : Config) (w : World) (q : string) : list sound :=
  default [] (query_items cfg w q).

(** The loop [for _, query := range flag.Args()] is at index [j]: the calls
    before it have returned, the calls after it have not begun, and [pre]
    is what the call at [j] has sent so far. *)
Definition seq_inv (cfg : Config) (w : World) (s : state) : Prop :=
  ∃ j k cur pre,
    st_inq s = replicate j InqDone ++ cur ++ replicate k InqIdle ∧
    taken (st_trace s) = concat (items_of cfg w <$> take j (args cfg)) ++ pre ∧
    match cur with
    | [] => pre = []
    | [InqRunning rest] =>
        ∃ q, args cfg !! j = Some q ∧ items_of cfg w q = pre ++ rest
    | _ => False
    end.

(** ** The streams stay open until the downloader closes the router, and
    nothing panics *)

Definition all_open (h : heap) : Prop := Forall (λ x, closed x = false) h.

(** The router's channels are channels of the heap. *)
Definition router_ok (r : router) (h : heap) : Prop :=
  match r with
  | RSingle r => c r < length h
  | RMulti r => routes_ok r h
  end.

Record live_inv (s : state) : Prop := {
  li_open : st_dl s ≠ DlDone → all_open (st_heap s);
  li_chan : ∀ snd ch, st_dl s = DlSending snd ch → ch < length (st_heap s);
  li_halt : st_halt s ≠ Some Panic
}.

(** ** The preview *)

Definition pv_reachable (cfg : Config) (w : World) (p : pv_state) : Prop :=
  ∃ ls, pv_run cfg ls (pv_init w) = Some p.

(** Printers started: one per query finished, one more while a query
    runs. *)
Definition pv_started (p : pv_state) : nat :=
  pv_pos p + match pv_rest p with Some _ => 1 | None => 0 end.

Record pv_inv (cfg : Config) (w : World) (p : pv_state) : Prop := {
  pi_world : pv_world p = w;
  pi_stdout : pv_stdout p = (λ x, preview_line w x.2) <$> pv_log p;
  pi_printers : length (pv_printers p) = pv_started p;
  pi_pos : (pv_started p ≤ length (args cfg))%nat;
  pi_items : ∀ i hold, pv_printers p !! i = Some hold →
    ∃ q, args cfg !! i = Some q ∧
         printed_by i (pv_log p) ++ option_list hold ++
           (if decide (i = pv_pos p) then default [] (pv_rest p) else [])
         = items_of cfg w q;
  pi_fresh : ∀ i, (length (pv_printers p) ≤ i)%nat → printed_by i (pv_log p) = [];
  pi_exit : ∀ code, pv_exit p = Some code →
    (code = 0%Z ∧ pv_rest p = None ∧ pv_pos p = length (args cfg)) ∨ code = 1%Z
}.

(** ** Concrete worlds and command lines *)

Definition row_a : row := mkRow "a.wav" "Cafe ambience" 61.
Definition row_b : row := mkRow "b.wav" "Typewriter" 12.

Definition ex_catalog (q : string) : option (list (option row)) :=
  if decide (q = "cafe") then Some [Some row_a]
  else if decide (q = "coffee") then Some [Some row_a]
  else if decide (q = "typewriter") then Some [Some row_b]
  else Some [].

Definition payload : list Byte.byte := [Byte.x52; Byte.x49; Byte.x46; Byte.x46].

Definition ex_remote (cut : option nat) : gmap string response :=
  {[ assetUrl "a.wav" := mkResponse 200 payload cut;
     assetUrl "b.wav" := mkResponse 200 payload None ]}.

(** Nothing cached, every asset downloadable. *)
Definition w_empty : World := mkWorld ∅ ∅ ∅ (ex_remote None) ex_catalog.

(** Both sounds cached. *)
Definition w_cached : World :=
  mkWorld {[ "sounds/a.wav" := payload; "sounds/b.wav" := payload ]} ∅ ∅
          (ex_remote None) ex_catalog.

(** [os.Stat] on the cache path of a.wav fails with an error other than
    not-exist; the asset itself is downloadable. *)
Definition w_denied : World :=
  mkWorld ∅ {[ "sounds/a.wav" ]} ∅ (ex_remote None) ex_catalog.

(** The copy of a.wav breaks after two of its four bytes. *)
Definition w_cut : World := mkWorld ∅ ∅ ∅ (ex_remote (Some 2)) ex_catalog.

Definition cfg_of (shuffle mix : bool) (terms : list string) : Config :=
  mkConfig "" 30 false false shuffle mix terms.

Definition snd_a (q : string) : sound :=
  mkSound "Cafe ambience" "a.wav" "sounds/a.wav" q 61.
Definition snd_b (q : string) : sound :=
  mkSound "Typewriter" "b.wav" "sounds/b.wav" q 12.

(** The state a schedule leads to (the initial state if the schedule cannot
    run). *)
Definition state_after (cfg : Config) (w : World) (ls : list label) : state :=
  default (init cfg w) (run cfg ls (init cfg w)).

Definition cfg_mix2 : Config := cfg_of false true ["cafe"; "typewriter"].

(** Both players route first; then the cafe item is taken, found cached,
    routed, sent and played. *)
Definition sched_mix2 : list label :=
  [LLaunch; LPlayer 0; LPlayer 1; LInquirer 0; LInquirer 0; LDownloader;
   LDownloader; LDownloader; LPlayer 0].

Definition cfg_seq2 : Config := cfg_of false false ["cafe"; "typewriter"].

(** The cafe item is fetched and routed; the typewriter item is taken. *)
Definition sched_seq2 : list label :=
  [LInquirer 0; LInquirer 0; LDownloader; LDownloader; LDownloader; LInquirer 0; LInquirer 1; LInquirer 1].

(** One stream, for "cafe", already made. *)
Definition r_cafe : multiPlayersRouter := mkMulti {[ "cafe" := 0 ]}.
Definition h_cafe : heap := [mkChan [] false PlayerChannelSize []].

Definition cfg_cafe : Config := cfg_of false false ["cafe"].

Definition cfg_cafe_coffee : Config := cfg_of false false ["cafe"; "coffee"].

Definition cfg_wind : Config := cfg_of false true ["wind"].

(** The query for "wind" finds nothing and returns, the intake is closed and
    the downloader closes the router before the player for "wind" has made
    its [route] call. *)
Definition sched_late : list label :=
  [LInquirer 0; LInquirer 0; LCloseIntake; LDownloader; LLaunch; LPlayer 0].

(** The same run with the player's [route] call first. *)
Definition sched_early : list label :=
  [LLaunch; LPlayer 0; LInquirer 0; LInquirer 0; LCloseIntake; LDownloader;
   LPlayer 0].

(** [-d] with [--mix]. *)
Definition cfg_download_mix : Config := mkConfig "" 30 false true false true ["cafe"].

(** The item is retrieved and sent on its stream; with [-d] and [--mix] the
    only player listens on the stream of the empty key. *)
Definition sched_routed : list label :=
  [LLaunch; LPlayer 0; LInquirer 0; LInquirer 0; LDownloader; LDownloader;
   LDownloader].

Definition cfg_download_wind : Config :=
  mkConfig "" 30 false true false true ["wind"].

Definition cfg_preview : Config :=
  mkConfig "" 30 true false false false ["cafe"; "typewriter"].

(** Only a.wav is cached. *)
Definition w_half : World :=
  mkWorld {[ "sounds/a.wav" := payload ]} ∅ ∅ (ex_remote None) ex_catalog.

Definition sched_preview : list main_label :=
  InPreview <$> [PvMain; PvMain; PvPrinter 0; PvMain;
                 PvMain; PvMain; PvMain; PvPrinter 1; PvMain].

(** * Start-up: the work directory and the index *)

(** A record of the CSV file, as [csv.Reader.ReadAll] returns it, and a row
    of the table [sounds]: location, description, secs, category, CDNumber,
    CDName, tracknum. *)
Abbreviation record := (list string).

(** The calls into database/sql that [initDatabase] makes. *)
Inductive sql_call :=
  | SqlOpen (dbFile : string)               (* sql.Open("sqlite3", "file:"+dbFile) *)
  | SqlCreateTable (dbFile : string)        (* db.Exec(schemaSql) *)
  | SqlPrepareInsert (dbFile : string)      (* db.Prepare(insertSql) *)
  | SqlInsert (dbFile : string) (n : nat).  (* stmt.Exec for record number n *)

Inductive host_event :=
  | LogInitializing (dbFile : string).      (* "Initializing database %s" *)

(** The machine that thames starts on: the files and the remote assets of
    [World], the directories, the sqlite databases by path (the rows of the
    table [sounds], in insertion order), and how the library calls answer. *)
Record Host := mkHost {
  h_world        : World;
  h_dirs         : gset string;          (* the directories that exist *)
  h_dbs          : gmap string (list record);
  h_cache_dir    : option string;        (* os.UserCacheDir(); None: it fails *)
  h_mkdir_denied : gset string;          (* os.Mkdir fails, and not with "exists" *)
  h_open_denied  : gset string;          (* os.Open fails although the file is there *)
  h_csv          : list Byte.byte → option (list record);
                                         (* the records of these bytes as the
                                            CSV reader splits them; None: a
                                            parse error *)
  h_sql_fails    : sql_call → bool;      (* the call returns an error *)
  h_log          : list host_event       (* oldest first *)
}.

Definition host_set_world (w : World) (h : Host) : Host :=
  mkHost w (h_dirs h) (h_dbs h) (h_cache_dir h) (h_mkdir_denied h)
         (h_open_denied h) (h_csv h) (h_sql_fails h) (h_log h).
Definition host_set_dirs (d : gset string) (h : Host) : Host :=
  mkHost (h_world h) d (h_dbs h) (h_cache_dir h) (h_mkdir_denied h)
         (h_open_denied h) (h_csv h) (h_sql_fails h) (h_log h).
Definition host_set_dbs (d : gmap string (list record)) (h : Host) : Host :=
  mkHost (h_world h) (h_dirs h) d (h_cache_dir h) (h_mkdir_denied h)
         (h_open_denied h) (h_csv h) (h_sql_fails h) (h_log h).
Definition host_log (e : host_event) (h : Host) : Host :=
  mkHost (h_world h) (h_dirs h) (h_dbs h) (h_cache_dir h) (h_mkdir_denied h)
         (h_open_denied h) (h_csv h) (h_sql_fails h) (h_log h ++ [e]).

(** How a start-up function ends: it returns, or the process dies
    ([log.Fatal], a run-time panic); either way the host is left in some
    state. *)
Inductive outcome_of_call (A : Type) :=
  | Returns (a : A) (h : Host)
  | Dies (x : halt) (h : Host).
Arguments Returns {A} a h.
Arguments Dies {A} x h.

Definition host_after {A} (r : outcome_of_call A) : Host :=
  match r with Returns _ h | Dies _ h => h end.

Definition call (A : Type) : Type := Host → outcome_of_call A.

Definition call_ret {A} (a : A) : call A := λ h, Returns a h.
Definition call_bind {A B} (m : call A) (f : A → call B) : call B :=
  λ h, match m h with
       | Returns a h' => f a h'
       | Dies x h' => Dies x h'
       end.
Definition log_Fatal {A} : call A := λ h, Dies Fatal h.

Notation "x ←← m ;; k" := (call_bind m (λ x, k))
  (at level 100, m at next level, right associativity, only parsing).
Notation "m ;;; k" := (call_bind m (λ _, k))
  (at level 100, right associativity, only parsing).

(** [os.Mkdir]. *)
Inductive mkdir_error := EExist (path : string) | EMkdir (path : string).

Definition os_IsExist (e : mkdir_error) : bool :=
  match e with EExist _ => true | EMkdir _ => false end.

Definition path_exists (h : Host) (path : string) : Prop :=
  path ∈ h_dirs h ∨ path ∈ dom (files (h_world h)) ∨ path ∈ dom (h_dbs h).

#[global] Instance path_exists_dec h path : Decision (path_exists h path).
Proof. unfold path_exists. apply _. Defined.

Definition os_Mkdir (path : string) : call (option mkdir_error) := λ h,
  if bool_decide (path ∈ h_mkdir_denied h) then Returns (Some (EMkdir path)) h
  else if bool_decide (path_exists h path) then Returns (Some (EExist path)) h
  else Returns None (host_set_dirs ({[ path ]} ∪ h_dirs h) h).

(** [os.Stat] on the host: a database file and a directory are there
    too. *)
Definition host_Stat (h : Host) (path : string) : option error :=
  match os_Stat (h_world h) path with
  | Some (ENotExist _) =>
      if bool_decide (path ∈ dom (h_dbs h) ∨ path ∈ h_dirs h) then None
      else Some (ENotExist path)
  | r => r
  end.

(** [os.Open] followed by [csv.NewReader(fin).ReadAll()]. *)
Definition os_Open (h : Host) (path : string) : option (list Byte.byte) :=
  if bool_decide (path ∈ h_open_denied h) then None else files (h_world h) !! path.

(** [db.Exec(schemaSql)]: CREATE VIRTUAL TABLE IF NOT EXISTS; sqlite makes the
    database file when it is not there. *)
Definition create_table (dbFile : string) : call unit := λ h,
  if h_sql_fails h (SqlCreateTable dbFile) then Dies Fatal h
  else match h_dbs h !! dbFile with
       | Some _ => Returns () h
       | None => Returns () (host_set_dbs (<[dbFile := []]> (h_dbs h)) h)
       end.

(** [stmt.Exec(record[0], ..., record[6])] for record number [n]: the index
    expressions panic on a record of fewer than seven fields; the statement
    runs outside any transaction, so the row is there once it returns. *)
Definition insert_record (dbFile : string) (n : nat) (rec : record) : call unit := λ h,
  if decide (length rec < 7) then Dies Panic h
  else if h_sql_fails h (SqlInsert dbFile n) then Dies Fatal h
  else Returns () (host_set_dbs (<[dbFile := default [] (h_dbs h !! dbFile) ++ [take 7 rec]]>
                                   (h_dbs h)) h).

(** [for _, record := range records { stmt.Exec(...) }], from record number
    [n] on. *)
Fixpoint insert_records (dbFile : string) (n : nat) (recs : list record) : call unit :=
  match recs with
  | [] => call_ret ()
  | rec :: recs' =>
      insert_record dbFile n rec ;;; insert_records dbFile (S n) recs'
  end.

(** Every record has as many fields as the first. *)
Definition uniform (recs : list record) : bool :=
  match recs with
  | [] => true
  | r :: recs' => forallb (λ r' : record, (length r' =? length r)%nat) recs'
  end.

(** [csv.NewReader(fin).ReadAll()]: [h_csv] splits the bytes into records,
    and the reader, used with its defaults ([FieldsPerRecord] is 0), takes
    the number of fields of the first record for all of them: a record with
    another number of fields makes [ReadAll] return an error. *)
Definition csv_ReadAll (h : Host) (bytes : list Byte.byte) : option (list record) :=
  match h_csv h bytes with
  | Some recs => if uniform recs then Some recs else None
  | None => None
  end.

Definition initDatabase (dbFile csvFile : string) : call unit := λ h0,
  let h := host_log (LogInitializing dbFile) h0 in
  if h_sql_fails h (SqlOpen dbFile) then Dies Fatal h
  else
    (create_table dbFile ;;;
     λ h, match os_Open h csvFile with
          | None => Dies Fatal h
          | Some bytes =>
              match csv_ReadAll h bytes with
              | None => Dies Fatal h
              | Some records =>
                  if h_sql_fails h (SqlPrepareInsert dbFile) then Dies Fatal h
                  else insert_records dbFile 0 records h
              end
          end) h.

Definition csvFile (workDir : string) : string :=
  filepath_Join workDir "BBCSoundEffects.csv".
Definition dbFile (workDir : string) : string :=
  filepath_Join workDir "sounds.db".

(** [os.Mkdir(dir, os.ModePerm)] with
    [err != nil && !os.IsExist(err)] fatal. *)
Definition mkdir_or_exists (dir : string) : call unit :=
  err ←← os_Mkdir dir ;;
  match err with
  | Some e => if negb (os_IsExist e) then log_Fatal else call_ret ()
  | None => call_ret ()
  end.

(** The first block of [prepareWorkDirectory]: the work directory is
    [root], or else the directory "thames" of the user's cache directory,
    made when it is not there. *)
Definition choose_workDir (root : string) : call string :=
  if decide (root = "") then
    λ h, match h_cache_dir h with
         | None => Dies Fatal h
         | Some cdir =>
             (mkdir_or_exists (filepath_Join cdir "thames") ;;;
              call_ret (filepath_Join cdir "thames")) h
         end
  else call_ret root.

(** The block on [csvFile]: fetch the index unless it is there; a failed
    check and a failed fetch are both fatal. *)
Definition fetch_index (workDir : string) : call unit := λ h,
  match fileExists (h_world h) (csvFile workDir) with
  | (present, None) =>
      if negb present then
        let '(w', err) :=
          downloadFile (h_world h) (csvFile workDir)
                       (assetUrl "BBCSoundEffects.csv") in
        match err with
        | Some _ => Dies Fatal (host_set_world w' h)
        | None => Returns () (host_set_world w' h)
        end
      else Returns () h
  | (_, Some _) => Dies Fatal h
  end.

(** The block on [dbFile]:
    [if _, err := os.Stat(dbFile); os.IsNotExist(err) { initDatabase(...) }]. *)
Definition build_index (workDir : string) : call unit := λ h,
  match host_Stat h (dbFile workDir) with
  | Some e =>
      if os_IsNotExist e then initDatabase (dbFile workDir) (csvFile workDir) h
      else Returns () h
  | None => Returns () h
  end.

(** [prepareWorkDirectory(root)]; it returns the [workDir] it has set. *)
Definition prepareWorkDirectory (root : string) : call string :=
  workDir ←← choose_workDir root ;;
  mkdir_or_exists (filepath_Join workDir "sounds") ;;;
  fetch_index workDir ;;;
  build_index workDir ;;;
  call_ret workDir.

(** * More invariants and projections *)

(** ** More projections of the trace *)

(** The items logged as "Playing". *)
Definition played (tr : list event) : list sound :=
  omap (λ e, match e with LogPlaying snd => Some snd | _ => None end) tr.

(** The items for which play(1) was run. *)
Definition play_runs (tr : list event) : list sound :=
  omap (λ e, match e with EvPlay snd => Some snd | _ => None end) tr.

(** How many times [router.close()] has returned. *)
Definition closes (tr : list event) : nat :=
  length (omap (λ e, match e with EvClose => Some e | _ => None end) tr).

(** ** A sound is played only once its file is in the cache *)

Definition has_file (cfg : Config) (w : World) (snd : sound) : Prop :=
  is_Some (files w !! soundPath cfg (fname snd)).

Record cached_inv (cfg : Config) (s : state) : Prop := {
  ci_dl : Forall (has_file cfg (st_world s)) (past_fetch (st_dl s));
  ci_routed : ∀ ch snd, EvRouted ch snd ∈ st_trace s → has_file cfg (st_world s) snd;
  ci_played : ∀ snd, LogPlaying snd ∈ st_trace s → ∃ ch, EvRouted ch snd ∈ st_trace s;
  ci_run : ∀ snd, EvPlay snd ∈ st_trace s → LogPlaying snd ∈ st_trace s
}.

(** ** Without [--mix]: one stream, one player *)

Definition player_at (x : chan) (st : pl_state) : Prop :=
  match st with
  | PlStart => True
  | PlRecv ch => ch = 0
  | PlDone => closed x = true ∧ buf x = []
  end.

Record single_inv (cfg : Config) (s : state) (x : chan) : Prop := {
  si_router : st_router s = RSingle (mkSingle 0);
  si_heap : st_heap s = [x];
  si_cap : cap x = PlayerChannelSize;
  si_open : st_dl s ≠ DlDone → closed x = false;
  si_closed : st_dl s = DlDone → closed x = true;
  si_fifo : sent x = played (st_trace s) ++ buf x;
  si_routed : routed (st_trace s) = sent x;
  si_sending : ∀ snd ch, st_dl s = DlSending snd ch → ch = 0;
  si_players : ∀ ps, st_players s = Some ps →
    ∃ st, ps = [mkPlayer "" (onlyDownload cfg) st] ∧ player_at x st;
  si_room : (length (buf x) ≤ PlayerChannelSize)%nat
}.

(** A measure of the work left: every step of the strategy below makes it
    smaller. *)
Definition inq_weight (cfg : Config) (w : World) (q : string) (x : inq_state) : nat :=
  match x with
  | InqIdle => 6 * length (items_of cfg w q) + 2
  | InqRunning rest => 6 * length rest + 1
  | InqDone => 0
  end.

Definition dl_weight (d : dl_state) : nat :=
  match d with
  | DlRecv => 1 | DlGot _ => 5 | DlReady _ => 4 | DlSending _ _ => 3 | DlDone => 0
  end.

Definition player_weight (p : player_task) : nat :=
  match pl_st p with PlStart => 2 | PlRecv _ => 1 | PlDone => 0 end.

Definition players_weight (cfg : Config) (ps : option (list player_task)) : nat :=
  match ps with
  | None => 2 * length (launch cfg) + 1
  | Some ps => sum_list (player_weight <$> ps)
  end.

Definition weight (cfg : Config) (w : World) (s : state) : nat :=
  sum_list (zip_with (inq_weight cfg w) (args cfg) (st_inq s))
  + (if st_intake_closed s then 0 else 1)
  + dl_weight (st_dl s)
  + sum_list ((λ x, length (buf x)) <$> st_heap s)
  + players_weight cfg (st_players s).

(** ** From the queries to the downloader *)

(** What the call for [q] has still to send. *)
Definition pending (cfg : Config) (w : World) (q : string) (x : inq_state)
  : list sound :=
  match x with
  | InqIdle => items_of cfg w q
  | InqRunning rest => rest
  | InqDone => []
  end.

(** The items of all the queries of the command line. *)
Definition all_items (cfg : Config) (w : World) : list sound :=
  concat (items_of cfg w <$> args cfg).

Definition all_pending (cfg : Config) (w : World) (s : state) : list sound :=
  concat (zip_with (pending cfg w) (args cfg) (st_inq s)).

(** The items of query [q] among [l]. *)
Definition of_query (q : string) (l : list sound) : list sound :=
  filter (λ snd, query snd = q) l.

Definition order_inv (cfg : Config) (w : World) (s : state) : Prop :=
  ∀ i q x, args cfg !! i = Some q → st_inq s !! i = Some x →
           of_query q (taken (st_trace s)) ++ pending cfg w q x = items_of cfg w q.

(** ** Every stream has room for [PlayerChannelSize] items *)

Definition chan_ok (x : chan) : Prop :=
  cap x = PlayerChannelSize ∧ (length (buf x) ≤ cap x)%nat.

(** ** Once the router is closed, every stream that ever carried an item is
    closed *)

Definition settled (x : chan) : Prop := closed x = true ∨ sent x = [].

(** The work directory that [prepareWorkDirectory] decides on. *)
Definition work_dir_of (root : string) (h : Host) : option string :=
  if decide (root = "") then (λ cdir, filepath_Join cdir "thames") <$> h_cache_dir h
  else Some root.

(** Everything [prepareWorkDirectory] looks for is in place. *)
Definition ready (root wd : string) (h : Host) : Prop :=
  work_dir_of root h = Some wd ∧
  (root = "" → (wd ∉ h_mkdir_denied h) ∧ path_exists h wd) ∧
  (filepath_Join wd "sounds" ∉ h_mkdir_denied h) ∧
  path_exists h (filepath_Join wd "sounds") ∧
  fileExists (h_world h) (csvFile wd) = (true, None) ∧
  (∀ e, host_Stat h (dbFile wd) = Some e → os_IsNotExist e = false).

(** From [h] to [h'] nothing was removed or changed: what answers the
    library calls is the same, directories stay, files keep their contents,
    and the tables of the databases have only grown at their end. *)
Record evolves (h h' : Host) : Prop := {
  ev_cache : h_cache_dir h' = h_cache_dir h;
  ev_mkdir : h_mkdir_denied h' = h_mkdir_denied h;
  ev_open : h_open_denied h' = h_open_denied h;
  ev_csv : h_csv h' = h_csv h;
  ev_sql : h_sql_fails h' = h_sql_fails h;
  ev_stat : stat_denied (h_world h') = stat_denied (h_world h);
  ev_create : create_denied (h_world h') = create_denied (h_world h);
  ev_remote : remote (h_world h') = remote (h_world h);
  ev_catalog : catalog (h_world h') = catalog (h_world h);
  ev_dirs : h_dirs h ⊆ h_dirs h';
  ev_files : ∀ p b, files (h_world h) !! p = Some b → files (h_world h') !! p = Some b;
  ev_dbs : ∀ p rows, h_dbs h !! p = Some rows →
                     ∃ rows', h_dbs h' !! p = Some rows' ∧ rows `prefix_of` rows';
  ev_log : h_log h `prefix_of` h_log h'
}.

(** ** The end of a run *)

(** The item of an outcome, when it was sent on. *)
Definition routed_of (o : outcome) : option sound :=
  match o with Routed _ snd => Some snd | Dropped _ _ => None end.

(** ** With [--mix]: the players and their streams *)

(** The player can take a step: it has its stream, and the stream holds an
    item or is closed. *)
Definition ready_player (h : heap) (pl : player_task) : bool :=
  match pl_st pl with
  | PlRecv ch =>
      match h !! ch with
      | Some x => match buf x with [] => closed x | _ => true end
      | None => false
      end
  | _ => false
  end.

Definition unrouted (pl : player_task) : bool :=
  match pl_st pl with PlStart => true | _ => false end.

(** No player can be left behind by [router.close()]: it has not run yet,
    or every player has made its [route] call and the stream it got is
    closed. *)
Definition players_attached (s : state) : Prop :=
  st_dl s ≠ DlDone ∨
  ∃ ps, st_players s = Some ps ∧
        Forall (λ pl, match pl_st pl with
                      | PlStart => False
                      | PlRecv ch => ∃ x, st_heap s !! ch = Some x ∧ closed x = true
                      | PlDone => True
                      end) ps.

Definition buffered (h : heap) : nat := sum_list ((λ x, length (buf x)) <$> h).

(** ** The preview ends *)

(** The steps of the preview for one query: the call, one send and one
    print per item, the return. *)
Definition query_steps (cfg : Config) (w : World) (q : string) : nat :=
  2 * length (items_of cfg w q) + 2.

(** The items received and not yet printed. *)
Definition held (prs : list (option sound)) : nat :=
  sum_list ((λ x, match x with Some _ => 1 | None => 0 end) <$> prs).

(** The steps that the preview can still make. *)
Definition pv_weight (cfg : Config) (w : World) (p : pv_state) : nat :=
  sum_list (query_steps cfg w <$> drop (pv_started p) (args cfg))
  + match pv_rest p with Some rest => 2 * length rest + 1 | None => 0 end
  + held (pv_printers p)
  + match pv_exit p with Some _ => 0 | None => 1 end.

(** * More worlds, command lines and hosts *)

(** ** Worlds and command lines *)

(** The world after a.wav was fetched into an empty cache. *)
Definition w_fetched : World :=
  mkWorld {[ "sounds/a.wav" := payload ]} ∅ ∅ (ex_remote None) ex_catalog.

(** The term "description" matches the header line of the CSV, which
    [initDatabase] has inserted as a row like the others: its secs column
    reads "secs", and [rows.Scan] cannot read it. *)
Definition w_header : World :=
  mkWorld ∅ ∅ ∅ (ex_remote None)
          (λ q, if decide (q = "description") then Some [None] else ex_catalog q).

Definition cfg_description : Config := cfg_of false false ["description"].

Definition cfg_download : Config := mkConfig "" 30 false true false false ["cafe"].

(** A whole run for one term: the player is launched and routes, the query
    runs, its one item is retrieved, routed, sent and played, the query
    returns, the intake and the router are closed, the player ends. *)
Definition sched_whole : list label :=
  [LLaunch; LPlayer 0; LInquirer 0; LInquirer 0; LDownloader; LDownloader;
   LDownloader; LPlayer 0; LInquirer 0; LCloseIntake; LDownloader; LPlayer 0].

(** ** Hosts *)

Definition header : record :=
  ["location"; "description"; "secs"; "category"; "CDNumber"; "CDName"; "tracknum"].
Definition record_a : record :=
  ["a.wav"; "Cafe ambience"; "61"; "Atmosphere"; "EC1"; "Cafes"; "1"].

(** A file of two columns. *)
Definition header_short : record := ["location"; "description"].
Definition record_short : record := ["b.wav"; "Typewriter"].

(** The bytes of the index (what they are does not matter: the reader below
    answers with fixed records). *)
Definition index_bytes : list Byte.byte := [Byte.x6c; Byte.x6f; Byte.x63].

Definition w_index (fs : gmap string (list Byte.byte)) : World :=
  mkWorld fs ∅ ∅ {[ assetUrl "BBCSoundEffects.csv" := mkResponse 200 index_bytes None ]}
          ex_catalog.

(** A host on which every library call works and the CSV reader returns
    [recs]. *)
Definition host_of (fs : gmap string (list Byte.byte)) (dbs : gmap string (list record))
    (recs : list record) : Host :=
  mkHost (w_index fs) ∅ dbs (Some "cache") ∅ ∅ (λ _, Some recs) (λ _, false) [].

(** ** A run of the preview *)

(** The preview of two terms up to the exit, as goroutine steps. *)
Definition sched_pv : list pv_label :=
  [PvMain; PvMain; PvPrinter 0; PvMain; PvMain; PvMain; PvMain; PvPrinter 1; PvMain].

(** * Properties *)

(** ** Proof tools *)

(** Case analysis on one step. *)
Ltac step_inv H :=
  unfold step in H;
  match type of H with
  | match st_halt ?s with _ => _ end = _ =>
      destruct (st_halt s) eqn:?; [discriminate H|]
  end;
  unfold step_running, queryDatabase, downloader, player in H;
  repeat case_match; simplify_eq.

Ltac dl_norm :=
  repeat match goal with
         | H : st_dl ?s = _ |- context [st_dl ?s] => rewrite H
         end.

Ltac proj_norm :=
  unfold taken, outcomes, routed, dropped, fetches, routed_on in *;
  rewrite ?omap_app; csimpl; rewrite ?fmap_app; csimpl; rewrite ?app_nil_r.

Ltac by_schedule ls := exists ls; vm_compute; reflexivity.

(** ** Runs and reachable states *)

Lemma run_app cfg ls1 ls2 s :
  run cfg (ls1 ++ ls2) s = run cfg ls1 s ≫= run cfg ls2.
Proof.
  revert s. induction ls1 as [|l ls1 IH]; intros s; simpl; [done|].
  destruct (step cfg l s) as [s1|]; simpl; [apply IH | done].
Qed.

Lemma reachable_init cfg w : reachable cfg w (init cfg w).
Proof. by exists []. Qed.

Lemma reachable_step cfg w s l s' :
  reachable cfg w s → step cfg l s = Some s' → reachable cfg w s'.
Proof.
  intros [ls Hls] Hstep. exists (ls ++ [l]).
  rewrite run_app, Hls. simpl. by rewrite Hstep.
Qed.

(** Induction over the runs of the pipeline. *)
Lemma reachable_invariant cfg w (P : state → Prop) :
  P (init cfg w) →
  (∀ s l s', reachable cfg w s → P s → step cfg l s = Some s' → P s') →
  ∀ s, reachable cfg w s → P s.
Proof.
  intros Hinit Hstep s [ls Hls]. revert s Hls.
  induction ls as [|l ls IH] using rev_ind; intros s Hls.
  - simpl in Hls. by simplify_eq.
  - rewrite run_app in Hls.
    destruct (run cfg ls (init cfg w)) as [s0|] eqn:Hs0; simpl in Hls; [|done].
    destruct (step cfg l s0) as [s1|] eqn:Hs1; simpl in Hls; [|done].
    simplify_eq. eapply Hstep; [by exists ls | by apply IH | done].
Qed.

Lemma init_heap_router cfg w :
  (mix cfg = true ∧ st_router (init cfg w) = RMulti newMultiPlayersRouter ∧
   st_heap (init cfg w) = []) ∨
  (mix cfg = false ∧ st_router (init cfg w) = RSingle (mkSingle 0) ∧
   st_heap (init cfg w) = [mkChan [] false PlayerChannelSize []]).
Proof. unfold init. destruct (mix cfg); simpl; auto. Qed.

Lemma init_fields cfg w :
  st_world (init cfg w) = w ∧
  st_inq (init cfg w) = replicate (length (args cfg)) InqIdle ∧
  st_intake_closed (init cfg w) = false ∧
  st_dl (init cfg w) = DlRecv ∧
  st_players (init cfg w) = None ∧
  st_trace (init cfg w) = [] ∧
  st_halt (init cfg w) = None.
Proof. unfold init. destruct (mix cfg); simpl; auto 10. Qed.

(** ** The files are only written by [downloadFile]; the catalog is never
    touched *)

Lemma downloadFile_catalog w path url w' err :
  downloadFile w path url = (w', err) → catalog w' = catalog w.
Proof.
  unfold downloadFile. intros H. repeat case_match; by simplify_eq.
Qed.

Lemma retrieve_catalog cfg w snd w' evs err :
  retrieve cfg w snd = (w', evs, err) → catalog w' = catalog w.
Proof.
  unfold retrieve. intros H. repeat case_match; simplify_eq; try done.
  by eapply downloadFile_catalog.
Qed.

Lemma query_items_catalog cfg w w' q :
  catalog w' = catalog w → query_items cfg w' q = query_items cfg w q.
Proof. unfold query_items, stmt_Query. by intros ->. Qed.

Lemma reachable_catalog cfg w s :
  reachable cfg w s → catalog (st_world s) = catalog w.
Proof.
  revert s. apply reachable_invariant.
  - by destruct (init_fields cfg w) as (-> & _).
  - intros s l s' _ IH Hstep. step_inv Hstep; simpl; try done.
    all: erewrite retrieve_catalog; eauto.
Qed.

(** ** Channel operations keep the heap's shape *)

Lemma close_chan_Some c h h' :
  close_chan c h = Some h' →
  ∃ ch, h !! c = Some ch ∧ closed ch = false ∧
        h' = <[c := mkChan (buf ch) true (cap ch) (sent ch)]> h.
Proof.
  unfold close_chan. intros H.
  destruct (h !! c) as [ch|]; [|done].
  destruct (closed ch) eqn:Hc; [done|]. simplify_eq. eauto.
Qed.

Lemma close_chan_length c h h' : close_chan c h = Some h' → length h' = length h.
Proof. intros (ch & _ & _ & ->)%close_chan_Some. apply length_insert. Qed.

Lemma close_chan_closed c h h' :
  close_chan c h = Some h' → ∃ ch, h' !! c = Some ch ∧ closed ch = true.
Proof.
  intros (ch & Hc & _ & ->)%close_chan_Some. eexists. split.
  - apply list_lookup_insert_eq. by eapply lookup_lt_Some.
  - done.
Qed.

Lemma close_all_cons c cs h :
  close_all (c :: cs) h = close_chan c h ≫= close_all cs.
Proof.
  unfold close_all. simpl. destruct (close_chan c h) as [h1|]; simpl; [done|].
  induction cs as [|c' cs IH]; simpl; auto.
Qed.

Lemma close_all_length cs h h' :
  close_all cs h = Some h' → length h' = length h ∧ ∀ c, c ∈ cs → c < length h.
Proof.
  revert h. induction cs as [|c cs IH]; intros h H.
  - unfold close_all in H. simpl in H. simplify_eq. split; [done|].
    intros c Hc. by apply elem_of_nil in Hc.
  - rewrite close_all_cons in H.
    destruct (close_chan c h) as [h1|] eqn:H1; simpl in H; [|done].
    destruct (IH _ H) as [Hlen Hin].
    pose proof (close_chan_length _ _ _ H1) as Hl1.
    apply close_chan_Some in H1 as (ch & Hc & _ & _).
    split; [congruence|]. intros c' [->|Hc']%elem_of_cons.
    + by eapply lookup_lt_Some.
    + rewrite <- Hl1. by apply Hin.
Qed.

Lemma send_chan_length c snd h h' :
  send_chan c snd h = SendOk h' → length h' = length h.
Proof.
  unfold send_chan. intros H. repeat case_match; simplify_eq.
  apply length_insert.
Qed.

Lemma recv_chan_length c h snd h' :
  recv_chan c h = RecvOk snd h' → length h' = length h.
Proof.
  unfold recv_chan. intros H. repeat case_match; simplify_eq.
  apply length_insert.
Qed.

Lemma recv_chan_closed c h snd h' i :
  recv_chan c h = RecvOk snd h' → closed <$> (h' !! i) = closed <$> (h !! i).
Proof.
  unfold recv_chan. intros H. repeat case_match; simplify_eq.
  destruct (decide (i = c)) as [->|Hne].
  - rewrite list_lookup_insert_eq by (by eapply lookup_lt_Some).
    by rewrite H0.
  - by rewrite list_lookup_insert_ne.
Qed.

(** ** The single-key router *)

Lemma single_mode_step cfg l s s' :
  mix cfg = false →
  st_router s = RSingle (mkSingle 0) → length (st_heap s) = 1 →
  step cfg l s = Some s' →
  st_router s' = RSingle (mkSingle 0) ∧ length (st_heap s') = 1.
Proof.
  intros Hmix Hr Hh Hstep. step_inv Hstep; simpl; try done.
  all: rewrite ?Hr in *; simpl in *; simplify_eq; try done.
  all: split; [done|].
  all: first [ erewrite send_chan_length by eauto
             | erewrite close_chan_length by eauto
             | erewrite recv_chan_length by eauto ]; done.
Qed.

Lemma single_mode_router cfg w s :
  mix cfg = false → reachable cfg w s →
  st_router s = RSingle (mkSingle 0) ∧ length (st_heap s) = 1.
Proof.
  intros Hmix. revert s. apply reachable_invariant.
  - destruct (init_heap_router cfg w) as [(? & _)|(_ & -> & ->)]; [congruence|done].
  - intros s l s' _ [Hr Hh] Hstep. by eapply single_mode_step.
Qed.

(** ** What the channel operations do to the buffers and the histories *)

Lemma send_chan_Some c snd h h' :
  send_chan c snd h = SendOk h' →
  ∃ x, h !! c = Some x ∧ closed x = false ∧
       h' = <[c := mkChan (buf x ++ [snd]) false (cap x) (sent x ++ [snd])]> h.
Proof. unfold send_chan. intros H. repeat case_match; simplify_eq. eauto. Qed.

Lemma recv_chan_Some c h snd h' :
  recv_chan c h = RecvOk snd h' →
  ∃ x rest, h !! c = Some x ∧ buf x = snd :: rest ∧
            h' = <[c := mkChan rest (closed x) (cap x) (sent x)]> h.
Proof. unfold recv_chan. intros H. repeat case_match; simplify_eq. eauto. Qed.

Lemma heap_wf_nil P : heap_wf P [].
Proof. intros i x Hx. by rewrite lookup_nil in Hx. Qed.

Lemma heap_wf_make P n h :
  heap_wf P h → heap_wf P (make_chan n h).2.
Proof.
  intros Hwf i x Hx. simpl in Hx.
  apply lookup_app_Some in Hx as [Hx|[_ Hx]]; [by eapply Hwf|].
  apply list_lookup_singleton_Some in Hx as [_ <-]. simpl. split; [constructor|done].
Qed.

Lemma heap_wf_insert P h c x :
  heap_wf P h → Forall P (sent x) → suffix (buf x) (sent x) →
  heap_wf P (<[c := x]> h).
Proof.
  intros Hwf H1 H2 i y Hy.
  apply list_lookup_insert_Some in Hy as [(-> & -> & _)|[_ Hy]]; [done|by eapply Hwf].
Qed.

Lemma heap_wf_close P c h h' :
  heap_wf P h → close_chan c h = Some h' → heap_wf P h'.
Proof.
  intros Hwf (x & Hx & _ & ->)%close_chan_Some.
  destruct (Hwf _ _ Hx). by apply heap_wf_insert.
Qed.

Lemma heap_wf_close_all P cs h h' :
  heap_wf P h → close_all cs h = Some h' → heap_wf P h'.
Proof.
  revert h. induction cs as [|c cs IH]; intros h Hwf H.
  - unfold close_all in H. simpl in H. by simplify_eq.
  - rewrite close_all_cons in H.
    destruct (close_chan c h) as [h1|] eqn:H1; simpl in H; [|done].
    eapply IH; [|done]. by eapply heap_wf_close.
Qed.

Lemma heap_wf_send P c snd h h' :
  heap_wf P h → P snd → send_chan c snd h = SendOk h' → heap_wf P h'.
Proof.
  intros Hwf Hsnd (x & Hx & _ & ->)%send_chan_Some.
  destruct (Hwf _ _ Hx) as [HP Hsuf]. apply heap_wf_insert; simpl; [done| |].
  - apply Forall_app. split; [done|]. by constructor.
  - by apply suffix_app.
Qed.

Lemma heap_wf_recv P c h snd h' :
  heap_wf P h → recv_chan c h = RecvOk snd h' → heap_wf P h' ∧ P snd.
Proof.
  intros Hwf (x & rest & Hx & Hbuf & ->)%recv_chan_Some.
  destruct (Hwf _ _ Hx) as [HP Hsuf]. rewrite Hbuf in Hsuf. split.
  - apply heap_wf_insert; simpl; [done..|].
    by eapply suffix_cons_l.
  - eapply Forall_forall; [exact HP|].
    destruct Hsuf as [pre ->]. apply elem_of_app. right. by left.
Qed.

Lemma heap_wf_route P q (r : router) h ch r' h' :
  heap_wf P h → route q r h = (ch, r', h') → heap_wf P h'.
Proof.
  intros Hwf H. destruct r as [r|r]; simpl in H.
  - by simplify_eq.
  - unfold multi_route in H. destruct (routes r !! q); simpl in H; simplify_eq; [done|].
    exact (heap_wf_make P PlayerChannelSize h Hwf).
Qed.

Lemma heap_wf_router_close P (r : router) h h' :
  heap_wf P h → close r h = Some h' → heap_wf P h'.
Proof.
  intros Hwf H. destruct r as [r|r]; simpl in H.
  - by eapply heap_wf_close.
  - by eapply heap_wf_close_all.
Qed.

(** ** Every item in the pipeline is an item that a catalog query built *)

Lemma produced_fields cfg w snd :
  produced cfg w snd →
  query snd ∈ args cfg ∧ fpath snd = soundPath cfg (fname snd).
Proof.
  intros (q & items & Hq & Hitems & Hin). unfold query_items, stmt_Query in Hitems.
  destruct (catalog w q) as [rs|]; simpl in Hitems; [|done]. simplify_eq.
  apply list_elem_of_fmap in Hin as (r & -> & _). by simpl.
Qed.

Lemma retrieve_events cfg w snd w' evs err :
  retrieve cfg w snd = (w', evs, err) →
  Forall (λ e, event_item e = Some snd) evs.
Proof.
  unfold retrieve. intros H. repeat case_match; simplify_eq; repeat constructor.
Qed.

Lemma Forall_event_ok_app P tr evs snd :
  Forall (event_ok P) tr → P snd →
  Forall (λ e, event_item e = Some snd) evs →
  Forall (event_ok P) (tr ++ evs).
Proof.
  intros Htr Hsnd Hevs. apply Forall_app. split; [done|].
  eapply Forall_impl; [exact Hevs|]. intros e He x Hx. congruence.
Qed.

Lemma inq_insert_Forall (P : sound → Prop) (qs : list inq_state) j x :
  (∀ i rest, qs !! i = Some (InqRunning rest) → Forall P rest) →
  (∀ rest, x = InqRunning rest → Forall P rest) →
  ∀ i rest, <[j := x]> qs !! i = Some (InqRunning rest) → Forall P rest.
Proof.
  intros Hqs Hx i rest [(-> & -> & _)|[_ Hi]]%list_lookup_insert_Some; eauto.
Qed.

Lemma reachable_items cfg w s :
  reachable cfg w s → items_inv (produced cfg w) s.
Proof.
  revert s. apply reachable_invariant.
  - destruct (init_fields cfg w) as (_ & Hinq & _ & Hdl & _ & Htr & _).
    constructor.
    + rewrite Hinq. intros i rest [? _]%lookup_replicate. done.
    + rewrite Hdl. constructor.
    + destruct (init_heap_router cfg w) as [(_ & _ & ->)|(_ & _ & ->)].
      * apply heap_wf_nil.
      * intros [|i] x Hx; simpl in Hx; simplify_eq. simpl. split; [constructor|done].
    + rewrite Htr. constructor.
  - intros s l s' Hreach [Hinq Hdl Hheap Htr] Hstep.
    pose proof (reachable_catalog _ _ _ Hreach) as Hcat.
    step_inv Hstep; simpl in Hdl.
    all: try (apply Forall_cons in Hdl as [Hsnd _]).
    all: try match goal with
         | H : st_inq _ !! _ = Some (InqRunning (_ :: _)) |- _ =>
             pose proof (Hinq _ _ H) as [Hhead Htail]%Forall_cons
         end.
    all: try match goal with
         | H : recv_chan _ _ = RecvOk _ _ |- _ =>
             pose proof (heap_wf_recv _ _ _ _ _ Hheap H) as [Hheap' Hrecv]
         end.
    all: try match goal with
         | H : retrieve _ _ _ = _ |- _ =>
             pose proof (retrieve_events _ _ _ _ _ _ H) as Hevs
         end.
    all: constructor; simpl; dl_norm; try done.
    all: try (by repeat constructor).
    all: try (eapply heap_wf_route; by eauto).
    all: try (eapply heap_wf_send; by eauto).
    all: try (eapply heap_wf_router_close; by eauto).
    all: try (apply inq_insert_Forall; [done|]; intros ? ?; by simplify_eq).
    all: try (eapply Forall_event_ok_app; [done|eassumption|];
              repeat first [ eassumption | apply Forall_nil_2 | apply Forall_cons_2
                           | apply Forall_app_2 ]; done).
    + (* the items of a fresh query *)
      apply inq_insert_Forall; [done|]. intros ? ?. simplify_eq.
      apply Forall_forall. intros snd Hin. eexists _, _. split_and!; [| |exact Hin].
      * eapply list_elem_of_lookup_2; eauto.
      * erewrite <- query_items_catalog; eauto.
    + apply Forall_app. split; [done|]. constructor; [|constructor]. by intros ?.
    + apply Forall_app. split; [done|]. constructor; [|constructor]. by intros ?.
Qed.

(** ** Accounting for the items that the downloader takes *)

Lemma outcomes_length tr :
  length (outcomes tr) = length (routed tr) + length (dropped tr).
Proof.
  induction tr as [|e tr IH]; [done|].
  unfold outcomes, routed, dropped in *. destruct e; csimpl; lia.
Qed.

Lemma sent_of_insert_ne h c x ch : ch ≠ c → sent_of (<[c := x]> h) ch = sent_of h ch.
Proof. intros Hne. unfold sent_of. by rewrite list_lookup_insert_ne. Qed.

Lemma sent_of_insert_same h c x y :
  h !! c = Some y → sent x = sent y → ∀ ch, sent_of (<[c := x]> h) ch = sent_of h ch.
Proof.
  intros Hy Hs ch. destruct (decide (ch = c)) as [->|Hne]; [|by apply sent_of_insert_ne].
  unfold sent_of. rewrite list_lookup_insert_eq by (by eapply lookup_lt_Some).
  by rewrite Hy.
Qed.

Lemma sent_of_close c h h' ch : close_chan c h = Some h' → sent_of h' ch = sent_of h ch.
Proof.
  intros (x & Hx & _ & ->)%close_chan_Some. by eapply sent_of_insert_same.
Qed.

Lemma sent_of_close_all cs h h' ch :
  close_all cs h = Some h' → sent_of h' ch = sent_of h ch.
Proof.
  revert h. induction cs as [|c cs IH]; intros h H.
  - unfold close_all in H. simpl in H. by simplify_eq.
  - rewrite close_all_cons in H.
    destruct (close_chan c h) as [h1|] eqn:H1; simpl in H; [|done].
    rewrite (IH _ H). by eapply sent_of_close.
Qed.

Lemma sent_of_router_close (r : router) h h' ch :
  close r h = Some h' → sent_of h' ch = sent_of h ch.
Proof.
  destruct r as [r|r]; simpl; intros H.
  - by eapply sent_of_close.
  - by eapply sent_of_close_all.
Qed.

Lemma sent_of_recv c h snd h' ch :
  recv_chan c h = RecvOk snd h' → sent_of h' ch = sent_of h ch.
Proof.
  intros (x & rest & Hx & _ & ->)%recv_chan_Some. by eapply sent_of_insert_same.
Qed.

Lemma sent_of_make n h ch :
  sent_of (h ++ [mkChan [] false n []]) ch = sent_of h ch.
Proof.
  unfold sent_of. destruct (decide (ch < length h)) as [Hlt|Hge].
  - by rewrite lookup_app_l.
  - rewrite (lookup_ge_None_2 h) by lia. rewrite lookup_app_r by lia.
    by destruct (ch - length h) as [|n'].
Qed.

Lemma sent_of_route q (r : router) h c r' h' ch :
  route q r h = (c, r', h') → sent_of h' ch = sent_of h ch.
Proof.
  intros H. destruct r as [r|r]; simpl in H.
  - by simplify_eq.
  - unfold multi_route in H. destruct (routes r !! q); simpl in H; simplify_eq; [done|].
    apply (sent_of_make PlayerChannelSize).
Qed.

Lemma sent_of_send c snd h h' ch :
  send_chan c snd h = SendOk h' →
  sent_of h' ch = sent_of h ch ++ (if decide (c = ch) then [snd] else []).
Proof.
  intros (x & Hx & _ & ->)%send_chan_Some. destruct (decide (c = ch)) as [->|Hne].
  - unfold sent_of. rewrite list_lookup_insert_eq by (by eapply lookup_lt_Some).
    by rewrite Hx.
  - rewrite sent_of_insert_ne by done. by rewrite app_nil_r.
Qed.

(** What [retrieve] can answer. *)
Lemma retrieve_cases cfg w snd w' evs err :
  retrieve cfg w snd = (w', evs, err) →
  (evs = [LogCached snd] ∧ err = None ∧ w' = w) ∨
  (evs = [LogFetch snd] ∧
   downloadFile w (soundPath cfg (fname snd)) (assetUrl (fname snd)) = (w', err)) ∨
  (evs = [] ∧ w' = w ∧ ∃ e, err = Some e).
Proof.
  unfold retrieve. intros H. repeat case_match; simplify_eq; eauto 7.
Qed.

Lemma reachable_acct cfg w s : reachable cfg w s → acct_inv s.
Proof.
  revert s. apply reachable_invariant.
  - destruct (init_fields cfg w) as (_ & _ & _ & Hdl & _ & Htr & _).
    constructor; rewrite ?Htr, ?Hdl; simpl; try done.
    intros ch. destruct (init_heap_router cfg w) as [(_ & _ & ->)|(_ & _ & ->)].
    + done.
    + by destruct ch as [|[|ch]].
  - intros s l s' _ [Htk Hft Hsent] Hstep.
    step_inv Hstep; simpl in Htk, Hft.
    all: try match goal with
         | H : retrieve _ _ _ = _ |- _ =>
             apply retrieve_cases in H as [(-> & ? & ->)|[(-> & ?)|(-> & -> & ? & ?)]];
             simplify_eq
         end.
    all: constructor; simpl; dl_norm; proj_norm; try done.
    all: rewrite ?app_nil_r in *; try done.
    all: try (intros ch';
              try first [ erewrite sent_of_route by eauto
                        | erewrite sent_of_router_close by eauto
                        | erewrite sent_of_recv by eauto
                        | erewrite sent_of_send by eauto ];
              rewrite ?Hsent; proj_norm; try done; by case_decide).
    all: try (rewrite Htk, <- ?(assoc_L (++)); done).
    all: try (by apply sublist_app).
    all: try (by apply sublist_inserts_r).
    all: try (rewrite <- (app_nil_r (omap _ (st_trace s))); by apply sublist_app, sublist_nil_l).
    all: try (by rewrite <- (assoc_L (++))).
Qed.

(** ** The per-query router: one stream per key *)

Lemma multi_route_cases q (r : multiPlayersRouter) h ch r' h' :
  multi_route q r h = (ch, r', h') →
  (routes r !! q = Some ch ∧ r' = r ∧ h' = h) ∨
  (routes r !! q = None ∧ ch = length h ∧
   r' = mkMulti (<[q := ch]> (routes r)) ∧
   h' = h ++ [mkChan [] false PlayerChannelSize []]).
Proof.
  unfold multi_route. intros H.
  destruct (routes r !! q) eqn:Hq; simpl in H; simplify_eq; auto.
Qed.

Lemma routes_ok_empty : routes_ok newMultiPlayersRouter [].
Proof.
  split_and!; simpl.
  - apply map_size_empty.
  - intros k ch Hk. by rewrite lookup_empty in Hk.
  - intros k1 k2 ch Hk. by rewrite lookup_empty in Hk.
Qed.

Lemma routes_ok_heap r h h' :
  routes_ok r h → length h' = length h → (∀ ch, sent_of h' ch = sent_of h ch) →
  routes_ok r h'.
Proof.
  intros (Hsize & Hlook & Hinj) Hlen Hsent. split_and!; [congruence| |done].
  intros k ch Hk. rewrite Hlen, Hsent. by apply Hlook.
Qed.

Lemma routes_ok_send r h ch snd h' :
  routes_ok r h → routes r !! query snd = Some ch →
  send_chan ch snd h = SendOk h' → routes_ok r h'.
Proof.
  intros (Hsize & Hlook & Hinj) Hq Hsend.
  split_and!; [by erewrite send_chan_length| |done].
  intros k ch' Hk. erewrite send_chan_length by done.
  destruct (Hlook _ _ Hk) as [Hlt Hall]. split; [done|].
  erewrite sent_of_send by done. apply Forall_app. split; [done|].
  case_decide; [|constructor]. subst ch'.
  constructor; [|constructor]. by eapply Hinj.
Qed.

Lemma routes_ok_route q r h ch r' h' :
  routes_ok r h → multi_route q r h = (ch, r', h') →
  routes_ok r' h' ∧ routes r' !! q = Some ch ∧
  (∀ k x, routes r !! k = Some x → routes r' !! k = Some x) ∧
  dom (routes r') = dom (routes r) ∪ {[q]}.
Proof.
  intros (Hsize & Hlook & Hinj) [(Hq & -> & ->)|(Hq & -> & -> & ->)]%multi_route_cases.
  - split_and!; try done.
    apply set_eq. intros k. rewrite elem_of_union, elem_of_singleton, !elem_of_dom.
    split; [auto|]. intros [?| ->]; [done|]. by eexists.
  - simpl. split_and!.
    + split_and!; simpl.
      * rewrite map_size_insert_None by done. rewrite length_app. simpl. lia.
      * intros k ch [(<- & <-)|(Hne & Hk)]%lookup_insert_Some.
        -- rewrite length_app. simpl. split; [lia|].
           rewrite sent_of_make.
           unfold sent_of. by rewrite lookup_ge_None_2.
        -- destruct (Hlook _ _ Hk) as [Hlt Hall]. rewrite length_app. split; [lia|].
           by rewrite sent_of_make.
      * intros k1 k2 ch [(<- & <-)|(Hne1 & Hk1)]%lookup_insert_Some
                         [(<- & Heq)|(Hne2 & Hk2)]%lookup_insert_Some; try done.
        -- destruct (Hlook _ _ Hk2). lia.
        -- destruct (Hlook _ _ Hk1). lia.
        -- by eapply Hinj.
    + apply lookup_insert_eq.
    + intros k x Hk. rewrite lookup_insert_ne; [done|]. intros <-. congruence.
    + rewrite dom_insert_L. set_solver.
Qed.

Lemma launch_keys_mix cfg :
  mix cfg = true → onlyDownload cfg = false →
  pl_key <$> launch cfg = args cfg.
Proof.
  intros Hmix Hd. unfold launch. rewrite Hmix, Hd. simpl.
  rewrite <- list_fmap_compose.
  replace (pl_key ∘ (λ q, mkPlayer q false PlStart)) with (@id string) by done.
  apply list_fmap_id.
Qed.

Lemma stream_keys_mix cfg :
  mix cfg = true → onlyDownload cfg = false →
  stream_keys cfg = list_to_set (args cfg).
Proof.
  intros Hmix Hd. unfold stream_keys. rewrite launch_keys_mix by done.
  apply union_idemp_L.
Qed.

Lemma player_ok_mono r r' pl :
  (∀ k x, routes r !! k = Some x → routes r' !! k = Some x) →
  player_ok r pl → player_ok r' pl.
Proof.
  unfold player_ok. intros Hmono. destruct (pl_st pl); [done|by apply Hmono|].
  rewrite !elem_of_dom. intros [x Hx]. exists x. by apply Hmono.
Qed.

Lemma alter_player_keys p x (ps : list player_task) :
  pl_key <$> alter (λ pl, mkPlayer (pl_key pl) (pl_mock pl) x) p ps = pl_key <$> ps.
Proof.
  revert p. induction ps as [|pl ps IH]; intros [|p]; csimpl; try done.
  f_equal. apply IH.
Qed.

Lemma alter_player_ok r p x (ps : list player_task) pl :
  ps !! p = Some pl →
  Forall (player_ok r) ps →
  player_ok r (mkPlayer (pl_key pl) (pl_mock pl) x) →
  Forall (player_ok r) (alter (λ pl, mkPlayer (pl_key pl) (pl_mock pl) x) p ps).
Proof.
  intros Hp Hall Hx. apply Forall_lookup. intros i y Hy.
  destruct (decide (i = p)) as [->|Hne].
  - rewrite list_lookup_alter_eq, Hp in Hy. simpl in Hy. by simplify_eq.
  - rewrite list_lookup_alter_ne in Hy by done. by eapply Forall_lookup_1.
Qed.

Lemma bind_lookup_Some {A} (o : option (list A)) p x :
  o ≫= (.!! p) = Some x → ∃ ps, o = Some ps ∧ ps !! p = Some x.
Proof. destruct o as [ps|]; simpl; [eauto|done]. Qed.

Lemma mix_step cfg w s r l s' :
  reachable cfg w s → mix_inv cfg s r → step cfg l s = Some s' →
  ∃ r', mix_inv cfg s' r'.
Proof.
  intros Hreach [Hr Hok Hkeys Hdl Hlaunch Hpl] Hstep.
  pose proof (reachable_items _ _ _ Hreach) as [_ Hitems _ _].
  step_inv Hstep; rewrite ?Hr in *; simpl in *.
  all: try (exists r; constructor; simpl; dl_norm; by auto).
  - (* router.close() *)
    exists r. constructor; simpl; try done.
    unfold multi_close in *. eapply routes_ok_heap; [done| |].
    + by eapply close_all_length.
    + intros ch. by eapply sent_of_close_all.
  - (* the downloader routes *)
    destruct (multi_route (query snd) r (st_heap s)) as [[ch r1] h1] eqn:Hroute.
    simplify_eq.
    destruct (routes_ok_route _ _ _ _ _ _ Hok Hroute) as (Hok' & Hq & Hmono & Hdom).
    exists r1. constructor; simpl; try done.
    + rewrite Hdom. apply Forall_cons in Hitems as [Hsnd _].
      apply produced_fields in Hsnd as [Hin _].
      apply union_subseteq. split; [done|]. apply singleton_subseteq_l.
      unfold stream_keys. apply elem_of_union. right. by apply elem_of_list_to_set.
    + intros ? ? ?. by simplify_eq.
    + intros ps Hps. eapply Forall_impl; [by apply Hpl|].
      intros pl. by apply player_ok_mono.
  - (* the downloader sends *)
    exists r. constructor; simpl; try done.
    eapply routes_ok_send; eauto.
  - (* the players are launched *)
    exists r. constructor; simpl; try done; intros ps ?; simplify_eq; [done|].
    unfold launch. repeat case_match; repeat constructor.
    apply Forall_fmap, Forall_true. by intros q.
  - (* a player routes *)
    destruct (multi_route pl_key0 r (st_heap s)) as [[ch r1] h1] eqn:Hroute.
    simplify_eq.
    destruct (routes_ok_route _ _ _ _ _ _ Hok Hroute) as (Hok' & Hq & Hmono & Hdom).
    apply bind_lookup_Some in H0 as (ps & Hps & Hp).
    exists r1. constructor; simpl; try done.
    + rewrite Hdom. apply union_subseteq. split; [done|]. apply singleton_subseteq_l.
      unfold stream_keys. apply elem_of_union. left. apply elem_of_list_to_set.
      rewrite <- (Hlaunch _ Hps). apply list_elem_of_fmap.
      eexists. split; [|by eapply list_elem_of_lookup_2]. done.
    + intros snd ch' Hs. by apply Hmono, Hdl.
    + intros ps' Hps'. rewrite Hps in Hps'. simpl in Hps'. simplify_eq.
      rewrite alter_player_keys. by apply Hlaunch.
    + intros ps' Hps'. rewrite Hps in Hps'. simpl in Hps'. simplify_eq.
      eapply (alter_player_ok _ _ _ _ _ Hp); [|done].
      eapply Forall_impl; [by apply Hpl|]. intros pl. by apply player_ok_mono.
  - (* a mock player receives *)
    exists r. constructor; simpl; try done.
    eapply routes_ok_heap; [done|by eapply recv_chan_length|].
    intros ch'. by eapply sent_of_recv.
  - (* a player receives *)
    exists r. constructor; simpl; try done.
    eapply routes_ok_heap; [done|by eapply recv_chan_length|].
    intros ch'. by eapply sent_of_recv.
  - (* a player ends *)
    apply bind_lookup_Some in H0 as (ps & Hps & Hp).
    exists r. constructor; simpl; try done.
    + intros ps' Hps'. rewrite Hps in Hps'. simpl in Hps'. simplify_eq.
      rewrite alter_player_keys. by apply Hlaunch.
    + intros ps' Hps'. rewrite Hps in Hps'. simpl in Hps'. simplify_eq.
      eapply (alter_player_ok _ _ _ _ _ Hp); [by apply Hpl|].
      pose proof (Forall_lookup_1 _ _ _ _ (Hpl _ Hps) Hp) as Hok1.
      unfold player_ok in *. simpl in *. apply elem_of_dom. by eexists.
Qed.

Lemma reachable_mix cfg w s :
  mix cfg = true → reachable cfg w s → ∃ r, mix_inv cfg s r.
Proof.
  intros Hmix. revert s. apply reachable_invariant.
  - destruct (init_fields cfg w) as (_ & _ & _ & Hdl & Hpl & _).
    destruct (init_heap_router cfg w) as [(_ & Hr & Hh)|(? & _)]; [|congruence].
    exists newMultiPlayersRouter.
    constructor; rewrite ?Hh, ?Hdl, ?Hpl; try done; try apply routes_ok_empty.
  - intros s l s' Hreach [r Hinv] Hstep. by eapply mix_step.
Qed.

(** ** Without [--shuffle] and [--mix] the queries run one after another *)

Lemma all_done_Forall qs : all_done qs = true ↔ Forall (λ q, q = InqDone) qs.
Proof.
  unfold all_done. induction qs as [|q qs IH]; simpl.
  - split; [constructor|done].
  - rewrite andb_true_iff, IH, Forall_cons. by destruct q; intuition.
Qed.

Lemma all_done_take i qs x m :
  all_done (take i qs) = true → qs !! m = Some x → m < i → x = InqDone.
Proof.
  intros Hd%all_done_Forall Hx Hlt.
  eapply (Forall_lookup_1 _ _ m x Hd). by rewrite lookup_take_lt.
Qed.

Lemma seq_shape_lookup j cur k i x :
  (replicate j InqDone ++ cur ++ replicate k InqIdle) !! i = Some x →
  (i < j ∧ x = InqDone) ∨
  ((j ≤ i)%nat ∧ cur !! (i - j) = Some x) ∨
  ((j + length cur ≤ i)%nat ∧ x = InqIdle).
Proof.
  intros [Hx|[Hj Hx]]%lookup_app_Some.
  - apply lookup_replicate in Hx as [-> ?]. auto.
  - rewrite length_replicate in Hj, Hx.
    apply lookup_app_Some in Hx as [Hx|[Hc Hx]]; [auto|].
    apply lookup_replicate in Hx as [-> ?]. right. right. split; [lia|done].
Qed.

Lemma seq_shape_at j cur k x :
  (replicate j InqDone ++ x :: cur ++ replicate k InqIdle) !! j = Some x.
Proof.
  rewrite lookup_app_r by (rewrite length_replicate; lia).
  by rewrite length_replicate, Nat.sub_diag.
Qed.

Lemma seq_shape_insert j y (l : list inq_state) x :
  <[j := x]> (replicate j InqDone ++ y :: l) = replicate j InqDone ++ x :: l.
Proof.
  rewrite insert_app_r_alt by (rewrite length_replicate; lia).
  by rewrite length_replicate, Nat.sub_diag.
Qed.

(** The only inquirer that can move is the one at the loop index. *)
Lemma seq_shape_idle j k i rest :
  (replicate j InqDone ++ [InqRunning rest] ++ replicate k InqIdle) !! i
    = Some InqIdle →
  all_done (take i (replicate j InqDone ++ [InqRunning rest] ++ replicate k InqIdle))
    = false.
Proof.
  intros Hi. destruct (all_done _) eqn:Hd; [|done]. exfalso.
  assert (j < i) as Hlt.
  { apply seq_shape_lookup in Hi as [[_ ?]|[[? Hc]|[? _]]]; simpl in *; try done; [|lia].
    destruct (i - j) as [|n] eqn:Hn; simpl in Hc; [done|lia]. }
  pose proof (all_done_take _ _ _ _ Hd (seq_shape_at j [] k (InqRunning rest)) Hlt).
  done.
Qed.

Lemma seq_shape_first_idle j k i :
  (replicate j InqDone ++ replicate k InqIdle) !! i = Some InqIdle →
  all_done (take i (replicate j InqDone ++ replicate k InqIdle)) = true →
  i = j ∧ ∃ k', k = S k'.
Proof.
  intros Hi Hd.
  apply lookup_app_Some in Hi as [Hi|[Hj Hi]].
  { by apply lookup_replicate in Hi as [? _]. }
  rewrite length_replicate in Hj, Hi. apply lookup_replicate in Hi as [_ Hk].
  destruct k as [|k']; [lia|]. split; [|by eexists].
  destruct (decide (i = j)) as [|Hne]; [done|]. exfalso.
  assert (j < i) as Hlt by lia.
  pose proof (all_done_take _ _ _ _ Hd (seq_shape_at j [] k' InqIdle) Hlt).
  done.
Qed.

Lemma seq_shape_running j cur k i rest :
  match cur with [] => True | [InqRunning _] => True | _ => False end →
  (replicate j InqDone ++ cur ++ replicate k InqIdle) !! i
    = Some (InqRunning rest) →
  i = j ∧ cur = [InqRunning rest].
Proof.
  intros Hcur Hi.
  apply seq_shape_lookup in Hi as [[_ ?]|[[? Hc]|[? ?]]]; try done.
  destruct cur as [|[] [|]]; try done.
  destruct (i - j) as [|n] eqn:Hn; simpl in Hc; [|done].
  simplify_eq. split; [lia|done].
Qed.

Lemma taken_app tr1 tr2 : taken (tr1 ++ tr2) = taken tr1 ++ taken tr2.
Proof. apply omap_app. Qed.

Lemma retrieve_taken cfg w snd w' evs err :
  retrieve cfg w snd = (w', evs, err) → taken evs = [].
Proof.
  intros [(-> & _)|[(-> & _)|(-> & _)]]%retrieve_cases; done.
Qed.

Lemma reachable_seq cfg w s :
  concurrent_queries cfg = false → reachable cfg w s → seq_inv cfg w s.
Proof.
  intros Hseq. revert s. apply reachable_invariant.
  - destruct (init_fields cfg w) as (_ & Hinq & _ & _ & _ & Htr & _).
    exists 0, (length (args cfg)), [], []. by rewrite Hinq, Htr.
  - intros s l s' Hreach Hinv Hstep.
    pose proof (reachable_catalog _ _ _ Hreach) as Hcat.
    step_inv Hstep; destruct Hinv as (j & k & cur & pre & Hinq & Htk & Hcur).
    all: assert (match cur with [] => True | [InqRunning _] => True | _ => False end)
      as Hcur' by (by destruct cur as [|[] [|]]).
    all: try (exists j, k, cur, pre; simpl; proj_norm; done).
    all: try (exists j, k, cur, pre; simpl; rewrite ?taken_app;
              match goal with
              | H : retrieve _ _ _ = _ |- _ => rewrite (retrieve_taken _ _ _ _ _ _ H)
              end;
              try (unfold taken at 2; simpl); rewrite ?app_nil_r; done).
    + (* stmt.Query *)
      unfold may_start in *. rewrite Hseq in *. simpl in *.
      rewrite Hinq in *. destruct cur as [|[] [|]]; try done.
      * subst pre. simpl in *.
        match goal with
        | H1 : _ !! _ = Some InqIdle, H2 : all_done _ = true |- _ =>
            destruct (seq_shape_first_idle _ _ _ H1 H2) as [-> [k' ->]]
        end.
        exists j, k', [InqRunning l0], []. split_and!.
        -- simpl. apply seq_shape_insert.
        -- simpl. proj_norm. by rewrite Htk, app_nil_r.
        -- exists s0. split; [done|]. unfold items_of.
           erewrite <- query_items_catalog by done.
           by match goal with H : query_items _ _ _ = _ |- _ => rewrite H end.
      * match goal with
        | H : _ !! _ = Some InqIdle |- _ => apply seq_shape_idle in H
        end. congruence.
    + (* queryDatabase returns *)
      rewrite Hinq in *.
      match goal with
      | H : _ !! _ = Some (InqRunning _) |- _ =>
          destruct (seq_shape_running _ _ _ _ _ Hcur' H) as [-> ->]
      end.
      destruct Hcur as (q & Hq & Hitems). rewrite app_nil_r in Hitems.
      exists (S j), k, [], []. split_and!; [| |done].
      * rewrite replicate_S_end, <- (assoc_L (++)). simpl. apply seq_shape_insert.
      * simpl. rewrite Htk, app_nil_r.
        erewrite take_S_r by exact Hq.
        rewrite fmap_app, concat_app. simpl. by rewrite app_nil_r, Hitems.
    + (* a send to the downloader *)
      rewrite Hinq in *.
      match goal with
      | H : _ !! _ = Some (InqRunning _) |- _ =>
          destruct (seq_shape_running _ _ _ _ _ Hcur' H) as [-> ->]
      end.
      destruct Hcur as (q & Hq & Hitems).
      exists j, k, [InqRunning l0], (pre ++ [s0]). split_and!.
      * simpl. apply seq_shape_insert.
      * simpl. proj_norm. by rewrite Htk, (assoc_L (++)).
      * exists q. split; [done|]. by rewrite <- (assoc_L (++)).
Qed.

(** ** The streams stay open until the downloader closes the router, and
    nothing panics *)

Lemma reachable_router_ok cfg w s :
  reachable cfg w s → router_ok (st_router s) (st_heap s).
Proof.
  intros Hreach. destruct (mix cfg) eqn:Hmix.
  - destruct (reachable_mix _ _ _ Hmix Hreach) as [r [Hr Hok _ _ _ _]].
    by rewrite Hr.
  - destruct (single_mode_router _ _ _ Hmix Hreach) as [-> Hlen]. simpl. lia.
Qed.

Lemma route_bound q (r : router) h ch r' h' :
  router_ok r h → route q r h = (ch, r', h') → ch < length h'.
Proof.
  intros Hok H. destruct r as [r|r]; simpl in *.
  - by simplify_eq.
  - destruct (multi_route q r h) as [[ch1 r1] h1] eqn:Hroute. simplify_eq.
    destruct (routes_ok_route _ _ _ _ _ _ Hok Hroute) as ((_ & Hlook & _) & Hq & _).
    by apply Hlook in Hq as [? _].
Qed.

Lemma all_open_insert h i x :
  all_open h → closed x = false → all_open (<[i := x]> h).
Proof.
  intros Hall Hx. apply Forall_lookup. intros j y Hy.
  apply list_lookup_insert_Some in Hy as [(_ & <- & _)|(_ & Hy)]; [done|].
  by eapply (Forall_lookup_1 _ _ _ _ Hall).
Qed.

Lemma all_open_send c snd h h' :
  all_open h → send_chan c snd h = SendOk h' → all_open h'.
Proof. intros Hall (x & _ & _ & ->)%send_chan_Some. by apply all_open_insert. Qed.

Lemma all_open_recv c h snd h' :
  all_open h → recv_chan c h = RecvOk snd h' → all_open h'.
Proof.
  intros Hall (x & rest & Hx & _ & ->)%recv_chan_Some.
  apply all_open_insert; [done|]. simpl. by eapply (Forall_lookup_1 _ _ _ _ Hall).
Qed.

Lemma all_open_route q (r : router) h ch r' h' :
  all_open h → route q r h = (ch, r', h') → all_open h'.
Proof.
  intros Hall H. destruct r as [r|r]; simpl in H.
  - by simplify_eq.
  - destruct (multi_route q r h) as [[ch1 r1] h1] eqn:Hroute. simplify_eq.
    apply multi_route_cases in Hroute as [(_ & _ & ->)|(_ & _ & _ & ->)]; [done|].
    apply Forall_app. split; [done|]. by repeat constructor.
Qed.

Lemma send_chan_open c snd h :
  all_open h → c < length h → send_chan c snd h ≠ SendPanic.
Proof.
  intros Hall Hlt. unfold send_chan.
  destruct (lookup_lt_is_Some_2 h c Hlt) as [x Hx]. rewrite Hx.
  rewrite (Forall_lookup_1 _ _ _ _ Hall Hx). by case_decide.
Qed.

Lemma close_chan_open c h :
  all_open h → c < length h → is_Some (close_chan c h).
Proof.
  intros Hall Hlt. unfold close_chan.
  destruct (lookup_lt_is_Some_2 h c Hlt) as [x Hx]. rewrite Hx.
  by rewrite (Forall_lookup_1 _ _ _ _ Hall Hx).
Qed.

(** Closing distinct open channels succeeds. *)
Lemma close_all_open cs h :
  NoDup cs → (∀ ch, ch ∈ cs → ∃ x, h !! ch = Some x ∧ closed x = false) →
  is_Some (close_all cs h).
Proof.
  revert h. induction cs as [|ch cs IH]; intros h Hnd Hopen.
  - by eexists.
  - apply NoDup_cons in Hnd as [Hnot Hnd]. rewrite close_all_cons.
    destruct (Hopen ch) as (x & Hx & Hc); [by left|].
    unfold close_chan at 1. rewrite Hx, Hc. simpl. apply IH; [done|].
    intros ch' Hin. destruct (Hopen ch') as (y & Hy & Hcy); [by right|].
    exists y. split; [|done]. rewrite list_lookup_insert_ne; [done|].
    intros ->. done.
Qed.

Lemma routes_values_NoDup (m : gmap string nat) :
  (∀ k1 k2 ch, m !! k1 = Some ch → m !! k2 = Some ch → k1 = k2) →
  NoDup ((map_to_list m).*2).
Proof.
  intros Hinj. apply NoDup_fmap_2_strong; [|apply NoDup_map_to_list].
  intros [k1 v1] [k2 v2] H1%elem_of_map_to_list H2%elem_of_map_to_list Heq.
  simpl in Heq. subst v2. f_equal. by eapply Hinj.
Qed.

Lemma router_close_open (r : router) h :
  router_ok r h → all_open h → is_Some (close r h).
Proof.
  intros Hok Hall. destruct r as [r|r]; simpl in *.
  - by apply close_chan_open.
  - destruct Hok as (_ & Hlook & Hinj). unfold multi_close.
    apply close_all_open; [by apply routes_values_NoDup|].
    intros ch Hin. apply list_elem_of_fmap in Hin as ([k v] & -> & Hkv).
    apply elem_of_map_to_list in Hkv. simpl.
    destruct (Hlook _ _ Hkv) as [Hlt _].
    destruct (lookup_lt_is_Some_2 h v Hlt) as [x Hx]. exists x. split; [done|].
    by eapply (Forall_lookup_1 _ _ _ _ Hall).
Qed.

Lemma route_length_le q (r : router) h ch r' h' :
  route q r h = (ch, r', h') → (length h ≤ length h')%nat.
Proof.
  intros H. destruct r as [r|r]; simpl in H.
  - by simplify_eq.
  - destruct (multi_route q r h) as [[ch1 r1] h1] eqn:Hroute. simplify_eq.
    apply multi_route_cases in Hroute as [(_ & _ & ->)|(_ & _ & _ & ->)]; [done|].
    rewrite length_app. lia.
Qed.

Lemma reachable_live cfg w s : reachable cfg w s → live_inv s.
Proof.
  revert s. apply reachable_invariant.
  - destruct (init_fields cfg w) as (_ & _ & _ & Hdl & _ & _ & Hh).
    constructor; rewrite ?Hdl, ?Hh; try done.
    intros _. destruct (init_heap_router cfg w) as [(_ & _ & ->)|(_ & _ & ->)];
      by repeat constructor.
  - intros s l s' Hreach [Hopen Hchan Hhalt] Hstep.
    pose proof (reachable_router_ok _ _ _ Hreach) as Hrok.
    step_inv Hstep; constructor; simpl; dl_norm.
    all: try match goal with
         | H : st_halt _ = None |- st_halt _ ≠ _ => rewrite H
         end; try done.
    all: try match goal with
         | |- _ ≠ DlDone → _ => intros Hne
         | |- ∀ snd ch, _ = DlSending snd ch → _ => intros ? ? Hsending; simplify_eq
         | |- Some Panic ≠ Some Panic => intros _; exfalso
         end.
    all: try (by apply Hopen; first [done|congruence]).
    all: try (eapply all_open_route; [apply Hopen; first [done|congruence]|done]).
    all: try (eapply all_open_send; [apply Hopen; first [done|congruence]|done]).
    all: try (eapply all_open_recv; [apply Hopen; first [done|congruence]|done]).
    all: try (by eapply route_bound).
    all: try (erewrite recv_chan_length by done; by eapply Hchan).
    all: try (eapply Nat.lt_le_trans; [by eapply Hchan|by eapply route_length_le]).
    + (* router.close() cannot panic *)
      destruct (router_close_open (st_router s) (st_heap s)) as [h' Hh']; [done| |].
      * apply Hopen. congruence.
      * congruence.
    + (* a send cannot panic *)
      eapply (send_chan_open ch snd (st_heap s)); [|by eapply Hchan|done].
      apply Hopen. congruence.
Qed.

(** ** [router.close()] runs after the end of the input *)

Lemma all_done_lookup qs i x :
  all_done qs = true → qs !! i = Some x → x = InqDone.
Proof.
  intros Hd%all_done_Forall Hx. by apply (Forall_lookup_1 _ _ _ _ Hd Hx).
Qed.

Lemma close_after_end_of_input cfg w s :
  reachable cfg w s →
  (st_dl s = DlDone → st_intake_closed s = true) ∧
  (st_intake_closed s = true → all_done (st_inq s) = true).
Proof.
  revert s. apply reachable_invariant.
  - destruct (init_fields cfg w) as (_ & _ & -> & -> & _). done.
  - intros s l s' _ [Hdone Hclosed] Hstep.
    step_inv Hstep; simpl; dl_norm; split; try done; try (intros; congruence).
    all: try (intros _;
              match goal with
              | H : _ && _ = true |- _ => by apply andb_true_iff in H as [? _]
              end).
    all: try (intros ?; by apply Hclosed).
    all: intros Hc; first [specialize (Hclosed Hc)|specialize (Hclosed eq_refl)];
      match goal with
      | H : st_inq _ !! _ = Some _ |- _ =>
          apply (all_done_lookup _ _ _ Hclosed) in H; discriminate H
      end.
Qed.

(** ** After [router.close()] nothing closes a channel *)

Lemma route_closed q (r : router) h ch r' h' i x :
  route q r h = (ch, r', h') → h' !! i = Some x → closed x = true →
  h !! i = Some x.
Proof.
  intros H Hx Hc. destruct r as [r|r]; simpl in H.
  - by simplify_eq.
  - destruct (multi_route q r h) as [[ch1 r1] h1] eqn:Hroute. simplify_eq.
    apply multi_route_cases in Hroute as [(_ & _ & ->)|(_ & _ & _ & ->)]; [done|].
    apply lookup_app_Some in Hx as [Hx|[_ Hx]]; [done|].
    apply list_lookup_singleton_Some in Hx as [_ <-]. done.
Qed.

Lemma closed_fmap_eq (h h' : heap) i x' :
  closed <$> (h' !! i) = closed <$> (h !! i) →
  h' !! i = Some x' → closed x' = true →
  ∃ x, h !! i = Some x ∧ closed x = true.
Proof.
  intros Heq Hx Hc. rewrite Hx in Heq. simpl in Heq.
  destruct (h !! i) as [x|]; simpl in Heq; [|done].
  exists x. split; [done|]. congruence.
Qed.

Lemma no_close_after_done cfg l s s' :
  st_dl s = DlDone → step cfg l s = Some s' →
  st_dl s' = DlDone ∧
  ∀ i x', st_heap s' !! i = Some x' → closed x' = true →
          ∃ x, st_heap s !! i = Some x ∧ closed x = true.
Proof.
  intros Hdone Hstep. step_inv Hstep; simpl; try congruence.
  all: split; [done|]; intros j x' Hx' Hc; eauto.
  - eexists. split; [|done]. by eapply route_closed.
  - eapply closed_fmap_eq; [by eapply recv_chan_closed|done..].
  - eapply closed_fmap_eq; [by eapply recv_chan_closed|done..].
Qed.

(** ** The downloader is never stuck with an item, except on a full
    stream *)

Lemma downloader_progress cfg w s :
  reachable cfg w s → st_halt s = None →
  match st_dl s with
  | DlGot _ => is_Some (step cfg LDownloader s)
  | DlReady _ => is_Some (step cfg LDownloader s)
  | DlSending snd ch =>
      ∃ x, st_heap s !! ch = Some x ∧ closed x = false ∧
           (length (buf x) < cap x → is_Some (step cfg LDownloader s))
  | DlRecv | DlDone => True
  end.
Proof.
  intros Hreach Hhalt. destruct (reachable_live _ _ _ Hreach) as [Hopen Hchan _].
  unfold step, step_running, downloader. rewrite Hhalt.
  destruct (st_dl s) as [|snd|snd|snd ch|] eqn:Hdl; try done.
  - destruct (retrieve cfg (st_world s) snd) as [[w' evs] [e|]]; by eexists.
  - destruct (route (query snd) (st_router s) (st_heap s)) as [[ch r'] h'].
    by eexists.
  - destruct (lookup_lt_is_Some_2 (st_heap s) ch) as [x Hx]; [by eapply Hchan|].
    assert (closed x = false) as Hc.
    { eapply (Forall_lookup_1 _ _ _ _ (Hopen ltac:(congruence)) Hx). }
    exists x. split_and!; [done..|]. intros Hroom.
    unfold send_chan. rewrite Hx, Hc. rewrite decide_True by done. by eexists.
Qed.

(** ** A cache path is never an asset URL *)

Lemma list_ascii_app (a b : string) :
  String.list_ascii_of_string (a +:+ b)
  = String.list_ascii_of_string a ++ String.list_ascii_of_string b.
Proof. induction a as [|x a IH]; simpl; [done|]. by rewrite IH. Qed.

Lemma soundsDir_not_empty cfg : soundsDir cfg ≠ "".
Proof.
  unfold soundsDir, filepath_Join. repeat case_decide; try done.
  intros Hlen%(f_equal String.list_ascii_of_string).
  rewrite !list_ascii_app in Hlen. apply (f_equal length) in Hlen.
  rewrite !length_app in Hlen. simpl in Hlen. lia.
Qed.

Lemma soundPath_not_assetUrl cfg f : soundPath cfg f ≠ assetUrl f.
Proof.
  unfold soundPath, assetUrl. pose proof (soundsDir_not_empty cfg) as Hne.
  unfold filepath_Join at 1. rewrite decide_False by done.
  unfold soundsDir, filepath_Join.
  intros Heq%(f_equal String.list_ascii_of_string).
  repeat case_decide; subst; rewrite ?list_ascii_app in Heq; try done.
  all: rewrite ?(assoc_L (++)) in Heq; try apply app_inv_tail in Heq.
  all: apply (f_equal reverse) in Heq; rewrite ?reverse_app in Heq.
  all: vm_compute in Heq; discriminate Heq.
Qed.

(** ** The preview *)

Lemma pv_run_app cfg ls1 ls2 p :
  pv_run cfg (ls1 ++ ls2) p = pv_run cfg ls1 p ≫= pv_run cfg ls2.
Proof.
  revert p. induction ls1 as [|l ls1 IH]; intros p; simpl; [done|].
  destruct (pv_step cfg l p) as [p1|]; simpl; [apply IH | done].
Qed.

Lemma pv_reachable_invariant cfg w (P : pv_state → Prop) :
  P (pv_init w) →
  (∀ p l p', P p → pv_step cfg l p = Some p' → P p') →
  ∀ p, pv_reachable cfg w p → P p.
Proof.
  intros Hinit Hstep p [ls Hls]. revert p Hls.
  induction ls as [|l ls IH] using rev_ind; intros p Hls.
  - simpl in Hls. by simplify_eq.
  - rewrite pv_run_app in Hls.
    destruct (pv_run cfg ls (pv_init w)) as [p0|] eqn:Hp0; simpl in Hls; [|done].
    destruct (pv_step cfg l p0) as [p1|] eqn:Hp1; simpl in Hls; [|done].
    simplify_eq. eapply Hstep; [by apply IH | done].
Qed.

Lemma printed_by_app i log1 log2 :
  printed_by i (log1 ++ log2) = printed_by i log1 ++ printed_by i log2.
Proof. apply omap_app. Qed.

Lemma printed_by_one i j snd :
  printed_by i [(j, snd)] = if decide (j = i) then [snd] else [].
Proof. unfold printed_by. simpl. by case_decide. Qed.

Lemma pv_step_inv cfg w p l p' :
  pv_inv cfg w p → pv_step cfg l p = Some p' → pv_inv cfg w p'.
Proof.
  intros Hinv Hstep. unfold pv_step in Hstep.
  destruct (pv_exit p) eqn:Hexit; [done|].
  destruct Hinv as [Hw Hout Hpr Hpos Hitems Hfresh _].
  unfold pv_started in *.
  destruct l as [|i]; simpl in Hstep; [unfold preview_main in Hstep|].
  - destruct (pv_rest p) as [[|snd rest]|] eqn:Hrest.
    + destruct (args cfg !! pv_pos p) as [q0|] eqn:Hq0; [|done].
      destruct (rows_fatal cfg (pv_world p) q0) eqn:Hfatal; simplify_eq.
      { (* the cursor has failed: log.Fatal *)
        constructor; unfold pv_started; simpl; rewrite ?Hrest; try done.
        intros code ?. simplify_eq. by right. }
      (* queryDatabase returns *)
      constructor; unfold pv_started; simpl; rewrite ?Hrest; try done.
      * lia.
      * lia.
      * intros i hold Hi. destruct (Hitems _ _ Hi) as (q & Hq & Heq).
        exists q. split; [done|]. rewrite <- Heq. do 2 f_equal.
        by repeat case_decide.
    + (* a send to the printer *)
      destruct (pv_printers p !! pv_pos p) as [[|]|] eqn:Hp; simplify_eq.
      constructor; unfold pv_started; simpl; rewrite ?Hrest; try done.
      * by rewrite length_insert.
      * intros i hold [(<- & <- & _)|(Hne & Hi)]%list_lookup_insert_Some.
        -- destruct (Hitems _ _ Hp) as (q & Hq & Heq). exists q. split; [done|].
           rewrite decide_True in * by done. done.
        -- destruct (Hitems _ _ Hi) as (q & Hq & Heq). exists q. split; [done|].
           rewrite decide_False in * by done. done.
      * intros i Hi. rewrite length_insert in Hi. by apply Hfresh.
    + destruct (args cfg !! pv_pos p) as [q|] eqn:Hq.
      * (* stmt.Query *)
        destruct (query_items cfg (pv_world p) q) as [items|] eqn:Hitems';
          simplify_eq; constructor; unfold pv_started; simpl;
          rewrite ?Hrest in *; try done.
        -- rewrite length_app. simpl. lia.
        -- apply lookup_lt_Some in Hq. lia.
        -- intros i hold [Hi|[Hlen Hi]]%lookup_app_Some.
           ++ destruct (Hitems _ _ Hi) as (q' & Hq' & Heq). exists q'. split; [done|].
              apply lookup_lt_Some in Hi.
              repeat case_decide; try lia. done.
           ++ apply list_lookup_singleton_Some in Hi as [Hi <-].
              assert (i = pv_pos p) as -> by lia. exists q. split; [done|].
              rewrite Hfresh by lia. rewrite decide_True by done. simpl.
              unfold items_of. by rewrite Hitems'.
        -- intros i Hi. rewrite length_app in Hi. apply Hfresh. lia.
        -- intros code ?. simplify_eq. by right.
      * (* os.Exit(0) *)
        simplify_eq.
        constructor; unfold pv_started; simpl; rewrite ?Hrest; try done.
        intros code ?. simplify_eq. left. split_and!; try done.
        apply lookup_ge_None in Hq. lia.
  - (* a printer prints *)
    unfold printer in Hstep.
    destruct (pv_printers p !! i) as [[snd|]|] eqn:Hp; simplify_eq.
    constructor; unfold pv_started; simpl; try done.
    + by rewrite Hout, fmap_app.
    + by rewrite length_insert.
    + intros j hold [(<- & <- & _)|(Hne & Hj)]%list_lookup_insert_Some.
      * destruct (Hitems _ _ Hp) as (q & Hq & Heq). exists q. split; [done|].
        rewrite printed_by_app, printed_by_one, decide_True by done.
        simpl in *. by rewrite <- (assoc_L (++)).
      * destruct (Hitems _ _ Hj) as (q & Hq & Heq). exists q. split; [done|].
        rewrite printed_by_app, printed_by_one, decide_False by done.
        by rewrite app_nil_r.
    + intros j Hj. rewrite length_insert in Hj. apply lookup_lt_Some in Hp.
      rewrite printed_by_app, printed_by_one, decide_False by lia.
      rewrite app_nil_r. by apply Hfresh.
Qed.

Lemma pv_reachable_inv cfg w p : pv_reachable cfg w p → pv_inv cfg w p.
Proof.
  revert p. apply pv_reachable_invariant.
  - constructor; unfold pv_started; simpl; try done; lia.
  - intros p l p' Hinv Hstep. by eapply pv_step_inv.
Qed.

(** * The claims *)

(** C1, on the failing runs.  With [-d] the launcher's first branch calls
    [router.route("")] also when [--mix] has chosen the per-query router.
    On [thames -d --mix cafe] that call makes a stream for the empty key,
    which is no term, the only player reads it, and the item of "cafe" is
    sent on a second stream: one term, two streams.  On
    [thames -d --mix wind], where the term matches nothing, the run ends
    with the stream of the empty key alone: the term has no stream. *)
Theorem download_mix_streams_not_per_term :
  args cfg_download_mix = ["cafe"] ∧
  reachable cfg_download_mix w_cached
    (state_after cfg_download_mix w_cached sched_routed) ∧
  (∃ r, st_router (state_after cfg_download_mix w_cached sched_routed) = RMulti r ∧
        routes r !! "" = Some 0 ∧ routes r !! "cafe" = Some 1 ∧
        size (routes r) = 2) ∧
  length (st_heap (state_after cfg_download_mix w_cached sched_routed)) = 2 ∧
  st_players (state_after cfg_download_mix w_cached sched_routed)
  = Some [mkPlayer "" true (PlRecv 0)] ∧
  routed_on 1 (st_trace (state_after cfg_download_mix w_cached sched_routed))
  = [snd_a "cafe"] ∧
  args cfg_download_wind = ["wind"] ∧
  reachable cfg_download_wind w_empty
    (state_after cfg_download_wind w_empty sched_early) ∧
  finished (state_after cfg_download_wind w_empty sched_early) = true ∧
  (∃ r, st_router (state_after cfg_download_wind w_empty sched_early) = RMulti r ∧
        routes r !! "" = Some 0 ∧ routes r !! "wind" = None ∧
        size (routes r) = 1).
Proof.
  split; [reflexivity|]. split; [by_schedule sched_routed|].
  split; [eexists; split; [vm_compute; reflexivity|]; by vm_compute|].
  split; [by vm_compute|]. split; [by vm_compute|]. split; [by vm_compute|].
  split; [reflexivity|]. split; [by_schedule sched_early|].
  split; [by vm_compute|].
  eexists. split; [vm_compute; reflexivity|]. by vm_compute.
Qed.

(** C3.  Every item the downloader takes from [downloadCh] ends in exactly
    one of two ways, sent on a stream or logged and dropped: the items taken
    are, in order, the items of the outcomes followed by the item in hand
    (if any), so the routed and the dropped items add up to the items taken
    once the downloader has finished; the streams hold the routed items and
    nothing else; [downloadFile] is called at most once per item taken; an
    item whose retrieval fails is dropped by that very step, with the heap
    untouched; and the downloader can always go on with the item in hand
    unless the stream it sends on is full. *)
Theorem retrieval_routes_or_drops cfg w s :
  reachable cfg w s →
  taken (st_trace s)
    = (outcome_item <$> outcomes (st_trace s)) ++ inflight (st_dl s) ∧
  length (taken (st_trace s))
    = length (routed (st_trace s)) + length (dropped (st_trace s))
      + length (inflight (st_dl s)) ∧
  (st_dl s = DlDone →
   length (routed (st_trace s)) + length (dropped (st_trace s))
   = length (taken (st_trace s))) ∧
  (∀ ch, sent_of (st_heap s) ch = routed_on ch (st_trace s)) ∧
  sublist (fetches (st_trace s)) (taken (st_trace s)) ∧
  (∀ snd s', st_dl s = DlGot snd → step cfg LDownloader s = Some s' →
     match (retrieve cfg (st_world s) snd).2 with
     | None =>
         st_dl s' = DlReady snd ∧ outcomes (st_trace s') = outcomes (st_trace s)
     | Some e =>
         st_dl s' = DlRecv ∧ st_heap s' = st_heap s ∧
         outcomes (st_trace s') = outcomes (st_trace s) ++ [Dropped snd e]
     end) ∧
  (st_halt s = None →
   match st_dl s with
   | DlGot _ => is_Some (step cfg LDownloader s)
   | DlReady _ => is_Some (step cfg LDownloader s)
   | DlSending snd ch =>
       ∃ x, st_heap s !! ch = Some x ∧ closed x = false ∧
            (length (buf x) < cap x → is_Some (step cfg LDownloader s))
   | DlRecv | DlDone => True
   end).
Proof.
  intros Hreach. destruct (reachable_acct _ _ _ Hreach) as [Htk Hft Hsent].
  assert (length (taken (st_trace s))
          = length (routed (st_trace s)) + length (dropped (st_trace s))
            + length (inflight (st_dl s))) as Hlen.
  { rewrite Htk, length_app, length_fmap, outcomes_length. done. }
  split_and!; try done.
  - intros Hdone. rewrite Hlen, Hdone. simpl. lia.
  - rewrite Htk. etrans; [exact Hft|].
    apply sublist_app; [done|].
    destruct (st_dl s); simpl; try done; by apply sublist_nil_l.
  - intros snd s' Hdl Hstep. unfold step in Hstep.
    destruct (st_halt s); [done|]. simpl in Hstep.
    unfold downloader in Hstep. rewrite Hdl in Hstep.
    destruct (retrieve cfg (st_world s) snd) as [[w' evs] err] eqn:Hret.
    apply retrieve_cases in Hret as Hcases. simpl.
    destruct err as [e|]; simplify_eq; simpl.
    + split_and!; try done.
      destruct Hcases as [(-> & _)|[(-> & _)|(-> & _)]]; by proj_norm.
    + split; [done|].
      destruct Hcases as [(-> & _)|[(-> & _)|(-> & _)]]; by proj_norm.
  - intros Hhalt. by apply (downloader_progress cfg w).
Qed.

Lemma retrieval_routes_or_drops_witness :
  reachable cfg_seq2 w_empty (state_after cfg_seq2 w_empty sched_seq2) ∧
  taken (st_trace (state_after cfg_seq2 w_empty sched_seq2))
  = [snd_a "cafe"; snd_b "typewriter"] ∧
  outcomes (st_trace (state_after cfg_seq2 w_empty sched_seq2))
  = [Routed 0 (snd_a "cafe")].
Proof.
  assert (reachable cfg_seq2 w_empty (state_after cfg_seq2 w_empty sched_seq2))
    as Hreach by by_schedule sched_seq2.
  split; [exact Hreach|].
  destruct (retrieval_routes_or_drops _ _ _ Hreach) as (Htk & _).
  split; [rewrite Htk|]; reflexivity.
Defined.

(** C8.  The single-key router's [route] is a constant function: for any
    two queries it returns the same channel, makes none and leaves the
    router as it was; and without [--mix] the pipeline has that router and
    its one channel in every state of every run, whatever the number of
    terms. *)
Theorem single_route_constant cfg w s q1 q2 :
  mix cfg = false → reachable cfg w s →
  (∀ (r : singlePlayersRouter) h,
     route q1 r h = route q2 r h ∧ route q1 r h = (c r, r, h)) ∧
  ∃ r : singlePlayersRouter,
    st_router s = RSingle r ∧ length (st_heap s) = 1 ∧
    route q1 (st_router s) (st_heap s) = route q2 (st_router s) (st_heap s) ∧
    route q1 (st_router s) (st_heap s) = (c r, st_router s, st_heap s).
Proof.
  intros Hmix Hreach. split; [done|].
  destruct (single_mode_router _ _ _ Hmix Hreach) as [Hr Hlen].
  exists (mkSingle 0). rewrite Hr. done.
Qed.

Lemma single_route_constant_witness :
  mix cfg_seq2 = false ∧
  reachable cfg_seq2 w_empty (state_after cfg_seq2 w_empty sched_seq2) ∧
  route "cafe" (st_router (state_after cfg_seq2 w_empty sched_seq2))
        (st_heap (state_after cfg_seq2 w_empty sched_seq2))
  = route "typewriter" (st_router (state_after cfg_seq2 w_empty sched_seq2))
          (st_heap (state_after cfg_seq2 w_empty sched_seq2)).
Proof.
  assert (mix cfg_seq2 = false) as Hmix by reflexivity.
  assert (reachable cfg_seq2 w_empty (state_after cfg_seq2 w_empty sched_seq2))
    as Hreach by by_schedule sched_seq2.
  split; [exact Hmix|]. split; [exact Hreach|].
  destruct (single_route_constant _ _ _ "cafe" "typewriter" Hmix Hreach)
    as (_ & r & _ & _ & Heq & _).
  exact Heq.
Defined.

(** C10.  On the per-query router, [route k] after [close], for a key [k]
    that was never routed, makes a new open channel, one that [close] did
    not close; once the downloader has run [router.close()] no step of the
    pipeline closes any channel, so that channel stays open; and a second
    [close] on the single-key router closes a closed channel, which
    panics. *)
Theorem route_after_close_and_double_close
    (r : multiPlayersRouter) (h h' : heap) (k : string) :
  close r h = Some h' → routes r !! k = None →
  (∃ ch r' h'',
     route k r h' = (ch, r', h'') ∧ routes r' !! k = Some ch ∧
     h'' !! ch = Some (mkChan [] false PlayerChannelSize []) ∧
     h' !! ch = None ∧ (∀ k', routes r !! k' ≠ Some ch)) ∧
  (∀ cfg l s s', st_dl s = DlDone → step cfg l s = Some s' →
     st_dl s' = DlDone ∧
     ∀ i x', st_heap s' !! i = Some x' → closed x' = true →
             ∃ x, st_heap s !! i = Some x ∧ closed x = true) ∧
  (∀ (r1 : singlePlayersRouter) h1 h1',
     close r1 h1 = Some h1' → close r1 h1' = None).
Proof.
  intros Hclose Hk. split_and!.
  - exists (length h'), (mkMulti (<[k := length h']> (routes r))),
           (h' ++ [mkChan [] false PlayerChannelSize []]).
    simpl in Hclose. unfold multi_close in Hclose.
    destruct (close_all_length _ _ _ Hclose) as [Hlen Hin].
    split_and!.
    + simpl. unfold multi_route. by rewrite Hk.
    + apply lookup_insert_eq.
    + rewrite lookup_app_r by done. by rewrite Nat.sub_diag.
    + by apply lookup_ge_None_2.
    + intros k' Hk'. assert (length h' < length h); [|lia].
      apply Hin. apply list_elem_of_fmap. exists (k', length h').
      split; [done|]. by apply elem_of_map_to_list.
  - intros cfg l s s'. apply no_close_after_done.
  - intros r1 h1 h1' Hc. simpl in *.
    apply close_chan_closed in Hc as (x & Hx & Hcl).
    unfold close_chan. by rewrite Hx, Hcl.
Qed.

Lemma route_after_close_and_double_close_witness :
  close r_cafe h_cafe = Some [mkChan [] true PlayerChannelSize []] ∧
  routes r_cafe !! "rain" = None ∧
  (route "rain" r_cafe [mkChan [] true PlayerChannelSize []]).1.1 = 1 ∧
  close (mkSingle 0) [mkChan [] true PlayerChannelSize []] = None.
Proof.
  assert (close r_cafe h_cafe = Some [mkChan [] true PlayerChannelSize []])
    as Hclose by reflexivity.
  assert (routes r_cafe !! "rain" = None) as Hk by reflexivity.
  split; [exact Hclose|]. split; [exact Hk|].
  destruct (route_after_close_and_double_close _ _ _ _ Hclose Hk)
    as ((ch & r' & h'' & Hroute & _) & _ & Hdouble).
  split; [reflexivity|].
  apply (Hdouble (mkSingle 0) h_cafe). reflexivity.
Defined.

(** C4, as stated, fails: [os.Stat] on the cache path of a.wav fails with an
    error other than not-exist, the asset is downloadable, and the
    downloader logs the error and drops the item without calling
    [downloadFile]. *)
Lemma stat_error_counterexample :
  os_Stat w_denied (soundPath cfg_cafe "a.wav") = Some (EStat "sounds/a.wav") ∧
  remote w_denied !! assetUrl "a.wav" = Some (mkResponse 200 payload None) ∧
  (λ s, (st_dl s, st_trace s, fetches (st_trace s), routed (st_trace s),
         files (st_world s) !! "sounds/a.wav"))
    <$> run cfg_cafe [LInquirer 0; LInquirer 0; LDownloader] (init cfg_cafe w_denied)
  = Some (DlRecv,
          [EvQuery 0 "cafe"; EvTaken (snd_a "cafe");
           LogErrorDownload (snd_a "cafe") (EStat "sounds/a.wav")],
          [], [], None).
Proof. vm_compute. done. Qed.

(** C4, amended.  The error of the cache check decides: when [os.Stat]
    reports not-exist the item is a cache miss and [downloadFile] is called
    for it; when [os.Stat] fails with any other error nothing is fetched, the
    world is untouched, and the downloader's step logs that error and drops
    the item. *)
Theorem cache_check_error_decides cfg w snd e :
  os_Stat w (soundPath cfg (fname snd)) = Some e →
  if os_IsNotExist e then
    retrieve cfg w snd
    = ((downloadFile w (soundPath cfg (fname snd)) (assetUrl (fname snd))).1,
       [LogFetch snd],
       (downloadFile w (soundPath cfg (fname snd)) (assetUrl (fname snd))).2)
  else
    retrieve cfg w snd = (w, [], Some e) ∧
    ∀ s, st_world s = w → st_dl s = DlGot snd → st_halt s = None →
         step cfg LDownloader s
         = Some (emit [LogErrorDownload snd e] (set_dl DlRecv (set_world w s))).
Proof.
  intros Hstat. unfold retrieve, fileExists. rewrite Hstat.
  destruct (os_IsNotExist e) eqn:Hne; simpl.
  - by destruct (downloadFile _ _ _).
  - split; [done|]. intros s Hw Hdl Hhalt.
    unfold step, step_running, downloader, retrieve, fileExists.
    by rewrite Hhalt, Hdl, Hw, Hstat, Hne.
Qed.

Lemma cache_check_error_decides_witness :
  os_Stat w_denied (soundPath cfg_cafe (fname (snd_a "cafe")))
  = Some (EStat "sounds/a.wav") ∧
  retrieve cfg_cafe w_denied (snd_a "cafe")
  = (w_denied, [], Some (EStat "sounds/a.wav")).
Proof.
  assert (os_Stat w_denied (soundPath cfg_cafe (fname (snd_a "cafe")))
          = Some (EStat "sounds/a.wav")) as Hstat by reflexivity.
  split; [exact Hstat|].
  exact (proj1 (cache_check_error_decides cfg_cafe w_denied (snd_a "cafe") _ Hstat)).
Defined.

(** C6, as stated, fails: the copy of a.wav breaks after two of its four
    bytes, the cafe item is dropped, and the coffee item, which names the
    same file, is then found "cached" and sent to the player although the
    file holds half of the payload. *)
Lemma half_written_counterexample :
  (λ s, (st_trace s, files (st_world s) !! "sounds/a.wav",
         sent_of (st_heap s) 0))
    <$> run cfg_cafe_coffee
          [LInquirer 0; LInquirer 0; LDownloader; LInquirer 0;
           LInquirer 1; LInquirer 1; LDownloader; LDownloader; LDownloader]
          (init cfg_cafe_coffee w_cut)
  = Some ([EvQuery 0 "cafe"; EvTaken (snd_a "cafe"); LogFetch (snd_a "cafe");
           LogErrorDownload (snd_a "cafe") (ECopy "sounds/a.wav");
           EvQuery 1 "coffee"; EvTaken (snd_a "coffee");
           LogCached (snd_a "coffee"); EvRouted 0 (snd_a "coffee")],
          Some [Byte.x52; Byte.x49],
          [snd_a "coffee"]) ∧
  body <$> (remote w_cut !! assetUrl "a.wav") = Some payload ∧
  payload ≠ [Byte.x52; Byte.x49].
Proof. vm_compute. done. Qed.

(** C6, amended.  The downloader writes a fetched payload straight to its
    cache path, create then populate: on a cache miss its step is decided by
    [downloadFile]; when that succeeds the file holds the whole body and the
    item goes on; when it fails the item is logged and dropped in that pass;
    and when it is the copy that fails, the part written stays at the cache
    path and the cache check reports the file as present from then on. *)
Theorem download_create_then_populate cfg s snd w' err :
  st_halt s = None → st_dl s = DlGot snd →
  fileExists (st_world s) (soundPath cfg (fname snd)) = (false, None) →
  downloadFile (st_world s) (soundPath cfg (fname snd)) (assetUrl (fname snd))
  = (w', err) →
  step cfg LDownloader s
  = Some (match err with
          | None => emit [LogFetch snd] (set_dl (DlReady snd) (set_world w' s))
          | Some e =>
              emit [LogFetch snd; LogErrorDownload snd e]
                   (set_dl DlRecv (set_world w' s))
          end) ∧
  match err with
  | None =>
      ∃ resp, remote (st_world s) !! assetUrl (fname snd) = Some resp ∧
              files w' !! soundPath cfg (fname snd) = Some (body resp)
  | Some (ECopy _) =>
      ∃ resp n, remote (st_world s) !! assetUrl (fname snd) = Some resp ∧
                copy_cut resp = Some n ∧
                files w' !! soundPath cfg (fname snd) = Some (take n (body resp)) ∧
                (soundPath cfg (fname snd) ∉ stat_denied w' →
                 fileExists w' (soundPath cfg (fname snd)) = (true, None))
  | Some _ => w' = st_world s
  end.
Proof.
  intros Hhalt Hdl Hex Hdown. split.
  - unfold step, step_running, downloader, retrieve. rewrite Hhalt, Hdl, Hex, Hdown.
    by destruct err.
  - unfold downloadFile in Hdown.
    destruct (remote (st_world s) !! assetUrl (fname snd)) as [resp|] eqn:Hresp;
      [|by simplify_eq].
    destruct (negb (status resp =? 200)%Z); [by simplify_eq|].
    destruct (bool_decide _); [by simplify_eq|].
    destruct (copy_cut resp) as [n|] eqn:Hcut; simplify_eq.
    + exists resp, n. split_and!; try done.
      * simpl. apply lookup_insert_eq.
      * simpl. intros Hnot. unfold fileExists, os_Stat. simpl.
        rewrite bool_decide_eq_false_2 by done. by rewrite lookup_insert_eq.
    + exists resp. split; [done|]. simpl. apply lookup_insert_eq.
Qed.

Lemma download_create_then_populate_witness :
  fileExists w_cut (soundPath cfg_cafe (fname (snd_a "cafe"))) = (false, None) ∧
  files (downloadFile w_cut (soundPath cfg_cafe (fname (snd_a "cafe")))
                      (assetUrl (fname (snd_a "cafe")))).1
    !! "sounds/a.wav" = Some [Byte.x52; Byte.x49] ∧
  st_dl <$> step cfg_cafe LDownloader
              (state_after cfg_cafe w_cut [LInquirer 0; LInquirer 0])
  = Some DlRecv.
Proof.
  assert (fileExists w_cut (soundPath cfg_cafe (fname (snd_a "cafe")))
          = (false, None)) as Hex by reflexivity.
  split; [exact Hex|]. split; [reflexivity|].
  rewrite (proj1 (download_create_then_populate cfg_cafe
                    (state_after cfg_cafe w_cut [LInquirer 0; LInquirer 0])
                    (snd_a "cafe") _ _ eq_refl eq_refl Hex eq_refl)).
  reflexivity.
Defined.


(** C5, as stated, fails: the query for "typewriter" begins as soon as the
    last "cafe" item has been handed to the downloader, here while that item
    is still in the downloader's hands, neither retrieved nor on the stream
    nor played. *)
Lemma next_query_early_counterexample :
  (λ s, (st_trace s, st_dl s, routed (st_trace s), sent_of (st_heap s) 0))
    <$> run cfg_seq2 [LInquirer 0; LInquirer 0; LInquirer 0; LInquirer 1]
            (init cfg_seq2 w_cached)
  = Some ([EvQuery 0 "cafe"; EvTaken (snd_a "cafe"); EvQuery 1 "typewriter"],
          DlGot (snd_a "cafe"), [], []).
Proof. vm_compute. done. Qed.

(** C5, amended.  Without [--shuffle] and [--mix], once the query at
    position [j] of the command line has begun, every query before it has
    returned, so all their items have been handed to the downloader: the
    items taken are all the items of the queries before [j], in the order of
    the command line, followed by what was taken since; and once anything
    was taken since, all the items of the queries before [j] have met their
    outcome, sent on the stream or dropped.  (The query at [j] itself can
    begin while the last item before it is still being retrieved.) *)
Theorem sequential_order cfg w s j :
  shuffle cfg = false → mix cfg = false → reachable cfg w s →
  is_Some (st_inq s !! j) → st_inq s !! j ≠ Some InqIdle →
  (∀ i, i < j → st_inq s !! i = Some InqDone) ∧
  ∃ pre,
    taken (st_trace s) = concat (items_of cfg w <$> take j (args cfg)) ++ pre ∧
    (pre ≠ [] →
     ∃ more, outcome_item <$> outcomes (st_trace s)
             = concat (items_of cfg w <$> take j (args cfg)) ++ more).
Proof.
  intros Hsh Hmix Hreach [x Hx] Hidle.
  assert (concurrent_queries cfg = false) as Hseq.
  { unfold concurrent_queries. by rewrite Hsh, Hmix. }
  destruct (reachable_seq _ _ _ Hseq Hreach) as (J & k & cur & pre0 & Hinq & Htk & Hcur).
  destruct (reachable_acct _ _ _ Hreach) as [Hacct _ _].
  assert (x ≠ InqIdle) as Hx' by congruence.
  assert ((j ≤ J)%nat ∧
          ∃ pre, taken (st_trace s)
                 = concat (items_of cfg w <$> take j (args cfg)) ++ pre)
    as [HjJ [pre Hpre]].
  { rewrite Hinq in Hx. apply seq_shape_lookup in Hx as [[Hlt _]|[[Hle Hc]|[_ ?]]];
      [| |done].
    - split; [lia|].
      exists (concat (items_of cfg w <$> drop j (take J (args cfg))) ++ pre0).
      rewrite Htk. rewrite <- (take_drop j (take J (args cfg))) at 1.
      rewrite take_take, Nat.min_l by lia.
      by rewrite fmap_app, concat_app, <- (assoc_L (++)).
    - destruct cur as [|[] [|]]; try done.
      destruct (j - J) as [|n] eqn:Hn; simpl in Hc; [|done].
      assert (j = J) as -> by lia. split; [done|]. by exists pre0. }
  split.
  - intros i Hi. rewrite Hinq. rewrite lookup_app_l by (rewrite length_replicate; lia).
    apply lookup_replicate_2. lia.
  - exists pre. split; [done|]. intros Hne. rewrite Hacct in Hpre.
    destruct (inflight (st_dl s)) as [|y [|]] eqn:Hfl.
    + rewrite app_nil_r in Hpre. by exists pre.
    + destruct pre as [|z pre _] using rev_ind; [done|].
      rewrite (assoc_L (++)) in Hpre. apply app_inj_tail in Hpre as [-> _].
      by exists pre.
    + by destruct (st_dl s).
Qed.

Lemma sequential_order_witness :
  shuffle cfg_seq2 = false ∧ mix cfg_seq2 = false ∧
  reachable cfg_seq2 w_empty (state_after cfg_seq2 w_empty sched_seq2) ∧
  st_inq (state_after cfg_seq2 w_empty sched_seq2) !! 1 = Some (InqRunning []) ∧
  st_inq (state_after cfg_seq2 w_empty sched_seq2) !! 0 = Some InqDone.
Proof.
  assert (reachable cfg_seq2 w_empty (state_after cfg_seq2 w_empty sched_seq2))
    as Hreach by by_schedule sched_seq2.
  split; [reflexivity|]. split; [reflexivity|]. split; [exact Hreach|].
  split; [reflexivity|].
  refine (proj1 (sequential_order cfg_seq2 w_empty _ 1 eq_refl eq_refl Hreach _ _)
            0 _).
  - eexists. reflexivity.
  - discriminate.
  - constructor.
Defined.

(** C2, on the failing run.  With [--mix] and the one term "wind", which
    matches nothing, [router.close()] runs on an empty table; the player's
    [route] then makes the stream for "wind"; it is open, nothing will close
    it, the player waits on it for ever and no goroutine can move, although
    the program has not finished. *)
Theorem late_route_stream_never_closed :
  (λ s, (st_trace s, st_dl s, st_intake_closed s, st_heap s, st_players s,
         st_halt s, finished s))
    <$> run cfg_wind sched_late (init cfg_wind w_empty)
  = Some ([EvQuery 0 "wind"; EvClose], DlDone, true,
          [mkChan [] false PlayerChannelSize []],
          Some [mkPlayer "wind" false (PlRecv 0)], None, false) ∧
  stuck cfg_wind (state_after cfg_wind w_empty sched_late).
Proof.
  split; [vm_compute; done|].
  intros l. destruct l as [i| | | |p]; try reflexivity.
  - by destruct i as [|i].
  - by destruct p as [|p].
Qed.

(** For contrast: when the player has routed before the downloader closes
    the router, the stream is closed once, the player ends and the program
    finishes. *)
Example early_route_stream_closed :
  (λ s, (st_trace s, st_heap s, st_players s, st_halt s, finished s))
    <$> run cfg_wind sched_early (init cfg_wind w_empty)
  = Some ([EvQuery 0 "wind"; EvClose],
          [mkChan [] true PlayerChannelSize []],
          Some [mkPlayer "wind" false PlDone], None, true).
Proof. vm_compute. done. Qed.

(** ** The preview, from [main] *)

Lemma main_run_preview cfg ls p0 g :
  main_run cfg ls (Preview p0) = Some g →
  ∃ p pls, g = Preview p ∧ pv_run cfg pls p0 = Some p.
Proof.
  revert p0. induction ls as [|l ls IH]; intros p0 Hrun; simpl in Hrun.
  - simplify_eq. by exists p0, [].
  - destruct l as [l|l]; simpl in Hrun; [|done].
    destruct (pv_step cfg l p0) as [p1|] eqn:Hstep; simpl in Hrun; [|done].
    destruct (IH _ Hrun) as (p & pls & -> & Hpls).
    exists p, (l :: pls). split; [done|]. simpl. by rewrite Hstep.
Qed.

(** C9, on the failing run.  [os.Exit(0)] follows the last [queryDatabase]
    call at once and does not wait for the printers, which [main] started
    as goroutines of their own.  On [thames --query cafe typewriter], when
    the main goroutine runs ahead of them, the program exits with status 0
    having printed nothing: each printer still holds the one item of its
    query, received and not yet printed. *)
Theorem preview_exits_before_printing :
  onlyQuery cfg_preview = true ∧
  (λ g, match g with
        | Preview p => Some (pv_exit p, pv_stdout p, pv_printers p)
        | Pipeline _ => None
        end) <$> main_run cfg_preview (InPreview <$> replicate 7 PvMain)
                          (main cfg_preview w_half)
  = Some (Some (Some 0%Z, [], [Some (snd_a "cafe"); Some (snd_b "typewriter")])).
Proof. split; [reflexivity|]. vm_compute. reflexivity. Qed.

(** * More invariants *)

(** ** What the downloader does to the files *)

Lemma downloadFile_frame w path url w' err :
  downloadFile w path url = (w', err) →
  stat_denied w' = stat_denied w ∧ create_denied w' = create_denied w ∧
  remote w' = remote w ∧
  ∀ p, p ≠ path → files w' !! p = files w !! p.
Proof.
  unfold downloadFile. intros H. repeat case_match; simplify_eq; simpl.
  all: split_and!; try done.
  all: intros p Hp; by rewrite lookup_insert_ne.
Qed.

Lemma fileExists_miss w path :
  fileExists w path = (false, None) →
  (path ∉ stat_denied w) ∧ files w !! path = None.
Proof.
  unfold fileExists, os_Stat. intros H.
  destruct (bool_decide (path ∈ stat_denied w)) eqn:Hd; simpl in H; [done|].
  apply bool_decide_eq_false in Hd.
  destruct (files w !! path); simpl in H; [done|]. done.
Qed.

Lemma fileExists_cases w path :
  (fileExists w path = (true, None) ∧ (path ∉ stat_denied w) ∧ is_Some (files w !! path)) ∨
  (fileExists w path = (false, None) ∧ (path ∉ stat_denied w) ∧ files w !! path = None) ∨
  (fileExists w path = (false, Some (EStat path)) ∧ path ∈ stat_denied w).
Proof.
  unfold fileExists, os_Stat.
  destruct (bool_decide (path ∈ stat_denied w)) eqn:Hd; simpl.
  - apply bool_decide_eq_true in Hd. auto.
  - apply bool_decide_eq_false in Hd.
    destruct (files w !! path) eqn:Hf; simpl; eauto 6.
Qed.

(** [retrieve] never touches a file that is there. *)
Lemma retrieve_frame cfg w snd w' evs err :
  retrieve cfg w snd = (w', evs, err) →
  stat_denied w' = stat_denied w ∧ create_denied w' = create_denied w ∧
  remote w' = remote w ∧
  ∀ p, files w' !! p = files w !! p ∨
       (p = soundPath cfg (fname snd) ∧ files w !! p = None ∧
        (p ∉ stat_denied w) ∧ evs = [LogFetch snd] ∧
        downloadFile w p (assetUrl (fname snd)) = (w', err)).
Proof.
  intros H. unfold retrieve in H.
  destruct (fileExists_cases w (soundPath cfg (fname snd)))
    as [(Hex & _)|[(Hex & Hnd & Hnone)|(Hex & _)]]; rewrite Hex in H.
  - simplify_eq. auto.
  - destruct (downloadFile w _ _) as [w1 err1] eqn:Hdl. simplify_eq.
    pose proof (downloadFile_frame _ _ _ _ _ Hdl) as (? & ? & ? & Hfr).
    split_and!; try done.
    intros p. destruct (decide (p = soundPath cfg (fname snd))) as [->|Hne]; auto 6.
  - simplify_eq. auto.
Qed.

Lemma step_world_frame cfg l s s' :
  step cfg l s = Some s' →
  stat_denied (st_world s') = stat_denied (st_world s) ∧
  create_denied (st_world s') = create_denied (st_world s) ∧
  remote (st_world s') = remote (st_world s) ∧
  ∀ p, files (st_world s') !! p = files (st_world s) !! p ∨
       (files (st_world s) !! p = None ∧ (p ∉ stat_denied (st_world s)) ∧
        ∃ snd err, st_dl s = DlGot snd ∧ p = soundPath cfg (fname snd) ∧
               fetches (st_trace s') = fetches (st_trace s) ++ [snd] ∧
               downloadFile (st_world s) p (assetUrl (fname snd))
               = (st_world s', err)).
Proof.
  intros Hstep. step_inv Hstep; simpl; auto.
  all: match goal with
       | H : retrieve _ _ _ = _ |- _ =>
           apply retrieve_frame in H as (? & ? & ? & Hfr)
       end.
  all: split_and!; try done.
  all: intros p; destruct (Hfr p) as [?|(-> & ? & ? & -> & ?)]; auto.
  all: right; split_and!; try done; eexists _, _; split_and!; try done.
  all: by proj_norm.
Qed.

Lemma downloadFile_written w path url w' err :
  downloadFile w path url = (w', err) →
  files w' !! path = files w !! path ∨
  ∃ resp b, remote w !! url = Some resp ∧ status resp = 200%Z ∧
            files w' !! path = Some b ∧ b `prefix_of` body resp.
Proof.
  unfold downloadFile. intros H.
  destruct (remote w !! url) as [resp|] eqn:Hresp; [|simplify_eq; by left].
  destruct (status resp =? 200)%Z eqn:Hst; simpl in H; [|simplify_eq; by left].
  apply Z.eqb_eq in Hst.
  destruct (bool_decide _); [simplify_eq; by left|].
  destruct (copy_cut resp) as [n|]; simplify_eq; right; exists resp; simpl;
    rewrite lookup_insert_eq; eexists; split_and!; try done.
  apply prefix_take.
Qed.

(** ** A sound is played only once its file is in the cache *)

Lemma retrieve_ok_file cfg w snd w' evs :
  retrieve cfg w snd = (w', evs, None) →
  is_Some (files w' !! soundPath cfg (fname snd)) ∧
  (soundPath cfg (fname snd) ∉ stat_denied w').
Proof.
  intros H. unfold retrieve in H.
  destruct (fileExists_cases w (soundPath cfg (fname snd)))
    as [(Hex & ? & ?)|[(Hex & Hnd & Hnone)|(Hex & _)]]; rewrite Hex in H.
  - simplify_eq. auto.
  - destruct (downloadFile w _ _) as [w1 err1] eqn:Hdl. simplify_eq.
    pose proof (downloadFile_frame _ _ _ _ _ Hdl) as (Hsd & _).
    rewrite Hsd. split; [|done].
    unfold downloadFile in Hdl. repeat case_match; simplify_eq.
    simpl. rewrite lookup_insert_eq. by eexists.
  - by simplify_eq.
Qed.

Lemma has_file_step cfg l s s' snd :
  step cfg l s = Some s' →
  has_file cfg (st_world s) snd → has_file cfg (st_world s') snd.
Proof.
  intros Hstep [b Hb]. exists b.
  apply step_world_frame in Hstep as (_ & _ & _ & Hfr).
  destruct (Hfr (soundPath cfg (fname snd))) as [->|(Hnone & _)]; [done|congruence].
Qed.

Lemma elem_of_routed_on ch snd tr :
  snd ∈ routed_on ch tr ↔ EvRouted ch snd ∈ tr.
Proof.
  unfold routed_on. rewrite list_elem_of_omap. split.
  - intros (e & He & Hsome). destruct e; try done. case_decide; by simplify_eq.
  - intros He. eexists. split; [exact He|]. simpl. by rewrite decide_True.
Qed.

Lemma reachable_cached cfg w s : reachable cfg w s → cached_inv cfg s.
Proof.
  revert s. apply reachable_invariant.
  - destruct (init_fields cfg w) as (_ & _ & _ & Hdl & _ & Htr & _).
    constructor; rewrite ?Hdl, ?Htr; simpl; try done.
    all: intros; exfalso; eapply not_elem_of_nil; eauto.
  - intros s l s' Hreach [Hdl Hrt Hpl Hrun] Hstep.
    pose proof (λ snd, has_file_step _ _ _ _ snd Hstep) as Hmono.
    destruct (reachable_items _ _ _ Hreach) as [_ _ Hwf _].
    destruct (reachable_acct _ _ _ Hreach) as [_ _ Hsent].
    step_inv Hstep; simpl in Hmono.
    all: try match goal with
         | H : retrieve _ _ _ = (_, _, None) |- _ =>
             pose proof (retrieve_ok_file _ _ _ _ _ H) as [Hfile _];
             pose proof (retrieve_cases _ _ _ _ _ _ H) as [(-> & _)|[(-> & _)|(-> & _)]]
         | H : retrieve _ _ _ = (_, _, Some _) |- _ =>
             pose proof (retrieve_cases _ _ _ _ _ _ H) as [(-> & _)|[(-> & _)|(-> & _)]]
         end.
    all: try match goal with
         | H : recv_chan ?ch _ = RecvOk ?snd _ |- _ =>
             assert (EvRouted ch snd ∈ st_trace s) as Hwas;
             [ apply elem_of_routed_on; rewrite <- Hsent;
               apply recv_chan_Some in H as (x & rest & Hx & Hbuf & _);
               destruct (Hwf _ _ Hx) as [_ [pre Hsuf]];
               unfold sent_of; rewrite Hx; simpl; rewrite Hsuf, Hbuf;
               apply elem_of_app; right; by left |]
         end.
    all: constructor; simpl; dl_norm; simpl in *.
    all: try (apply Forall_cons in Hdl as [Hsnd _]).
    all: try done.
    all: set_unfold; naive_solver.
Qed.

(** ** What stops the pipeline *)

Lemma rows_fatal_catalog cfg w w' q :
  catalog w' = catalog w → rows_fatal cfg w' q = rows_fatal cfg w q.
Proof. unfold rows_fatal, stmt_Query. by intros ->. Qed.

(** [log.Fatal] is reached from [queryDatabase] only: [stmt.Query] fails,
    or the cursor does ([rows.Scan], [rows.Err]). *)
Lemma reachable_fatal cfg w s :
  reachable cfg w s → st_halt s = Some Fatal →
  ∃ i q, args cfg !! i = Some q ∧
         (stmt_Query w q (nsounds cfg) = None ∨ rows_fatal cfg w q = true).
Proof.
  revert s.
  apply (reachable_invariant cfg w
           (λ s, st_halt s = Some Fatal →
                 ∃ i q, args cfg !! i = Some q ∧
                        (stmt_Query w q (nsounds cfg) = None ∨
                         rows_fatal cfg w q = true))).
  - by destruct (init_fields cfg w) as (_ & _ & _ & _ & _ & _ & ->).
  - intros s l s' Hreach IH Hstep.
    pose proof (reachable_catalog _ _ _ Hreach) as Hcat.
    step_inv Hstep; simpl; try done; try congruence.
    + intros _. eexists _, _. split; [eassumption|]. left.
      match goal with
      | H : query_items _ _ _ = None |- _ =>
          unfold query_items in H; apply fmap_None in H
      end.
      unfold stmt_Query in *. by rewrite <- Hcat.
    + intros _. eexists _, _. split; [eassumption|]. right.
      by rewrite <- (rows_fatal_catalog cfg w (st_world s)).
Qed.

(** ** Without [--mix]: one stream, one player *)

Lemma send_single snd x h' :
  send_chan 0 snd [x] = SendOk h' →
  closed x = false ∧ length (buf x) < cap x ∧
  h' = [mkChan (buf x ++ [snd]) false (cap x) (sent x ++ [snd])].
Proof.
  unfold send_chan. simpl. destruct (closed x); [done|].
  case_decide; [|done]. intros ?. by simplify_eq.
Qed.

Lemma recv_single x snd h' :
  recv_chan 0 [x] = RecvOk snd h' →
  ∃ rest, buf x = snd :: rest ∧ h' = [mkChan rest (closed x) (cap x) (sent x)].
Proof.
  unfold recv_chan. simpl. destruct (buf x) as [|y rest].
  - by destruct (closed x).
  - intros ?. simplify_eq. eauto.
Qed.

Lemma recv_single_end x :
  recv_chan 0 [x] = RecvEnd → buf x = [] ∧ closed x = true.
Proof.
  unfold recv_chan. simpl. destruct (buf x) as [|y rest]; [|done].
  by destruct (closed x).
Qed.

Lemma close_single x h' :
  close_chan 0 [x] = Some h' → h' = [mkChan (buf x) true (cap x) (sent x)].
Proof.
  unfold close_chan. simpl. destruct (closed x); [done|]. intros ?. by simplify_eq.
Qed.

Lemma reachable_single cfg w s :
  mix cfg = false → reachable cfg w s → ∃ x, single_inv cfg s x.
Proof.
  intros Hmix. revert s. apply reachable_invariant.
  - destruct (init_fields cfg w) as (_ & _ & _ & Hdl & Hpl & Htr & _).
    destruct (init_heap_router cfg w) as [(? & _)|(_ & Hr & Hh)]; [congruence|].
    eexists. constructor; rewrite ?Hdl, ?Hpl, ?Htr, ?Hr, ?Hh; simpl; try done.
    simpl. lia.
  - intros s l s' Hreach [x Hinv] Hstep.
    step_inv Hstep; destruct Hinv as [Hr Hh Hcap Hop Hcl Hfifo Hrt Hsend Hpl Hrm].
    all: rewrite ?Hr, ?Hh in *; simpl in *; simplify_eq.
    all: try match goal with
         | H : st_dl _ = DlSending _ ?ch |- _ => pose proof (Hsend _ _ H); subst ch
         end.
    all: try match goal with
         | H : st_players _ ≫= _ = Some _ |- _ =>
             apply bind_lookup_Some in H as (ps0 & Hps0 & Hp0);
             destruct (Hpl _ Hps0) as (st0 & -> & Hat);
             destruct p as [|p]; simpl in Hp0; [|by rewrite ?lookup_nil in Hp0];
             simplify_eq; simpl in Hat; subst
         end.
    all: try match goal with
         | H : send_chan 0 _ [_] = SendOk _ |- _ =>
             apply send_single in H as (Hopen & Hroom & ->)
         | H : recv_chan 0 [_] = RecvOk _ _ |- _ =>
             apply recv_single in H as (rest & Hbuf & ->)
         | H : recv_chan 0 [_] = RecvEnd |- _ =>
             apply recv_single_end in H as (Hbuf & Hclosed)
         | H : close_chan 0 [_] = Some _ |- _ =>
             apply close_single in H as ->
         end.
    all: try match goal with
         | H : retrieve _ _ _ = _ |- _ =>
             apply retrieve_cases in H as [(-> & _)|[(-> & _)|(-> & _)]]
         end.
    all: eexists; constructor; simpl; dl_norm; try done.
    all: unfold played, routed in *; rewrite ?omap_app; csimpl; rewrite ?app_nil_r.
    all: try done.
    all: try (intros _; apply Hop; congruence).
    all: try (intros ? ? ?; congruence).
    all: try (rewrite Hfifo, ?Hbuf, <- ?(assoc_L (++)); done).
    all: try (by rewrite Hrt).
    all: try (rewrite Hps0; simpl; intros ? ?; simplify_eq; eexists; split; [done|];
              simpl; done).
    all: try (intros ps Hps; destruct (Hpl _ Hps) as (st & -> & Hat);
              exists st; split; [done|]; destruct st; simpl in *; try done;
              destruct Hat as [? ?]; first [congruence | done]).
    all: try (intros ps ?; simplify_eq; unfold launch; rewrite Hmix; simpl;
              destruct (onlyDownload cfg); by eexists).
    all: try (rewrite length_app; simpl; rewrite <- ?Hcap; simpl; lia).
    all: rewrite Hbuf in Hrm; simpl in Hrm; lia.
Qed.

(** ** The calls of [queryDatabase] *)

Lemma reachable_inq_length cfg w s :
  reachable cfg w s → length (st_inq s) = length (args cfg).
Proof.
  revert s. apply reachable_invariant.
  - destruct (init_fields cfg w) as (_ & -> & _). apply length_replicate.
  - intros s l s' _ IH Hstep. step_inv Hstep; simpl; try done.
    all: by rewrite length_insert.
Qed.

(** The first call that has not returned. *)
Lemma first_not_done qs :
  all_done qs = false →
  ∃ i x, qs !! i = Some x ∧ x ≠ InqDone ∧ all_done (take i qs) = true.
Proof.
  induction qs as [|q qs IH]; [done|]. intros H.
  destruct q as [|rest|].
  - exists 0, InqIdle. by split_and!.
  - exists 0, (InqRunning rest). by split_and!.
  - simpl in H. destruct (IH H) as (i & x & Hi & Hx & Htake).
    exists (S i), x. by split_and!.
Qed.

Lemma weight_insert (f : string → inq_state → nat) (qs : list string)
    (xs : list inq_state) i q x y :
  qs !! i = Some q → xs !! i = Some x →
  sum_list (zip_with f qs (<[i := y]> xs)) + f q x
  = sum_list (zip_with f qs xs) + f q y.
Proof.
  revert xs i. induction qs as [|q' qs IH]; intros [|x' xs] [|i] Hq Hx;
    simpl in *; simplify_eq; try lia.
  specialize (IH xs i Hq Hx). lia.
Qed.

(** ** Without [--mix] the pipeline cannot deadlock *)

Lemma single_progress cfg w s :
  mix cfg = false → reachable cfg w s → st_halt s = None → finished s = false →
  ∃ l s', step cfg l s = Some s' ∧
          (st_halt s' = Some Fatal ∨
           (st_halt s' = None ∧ weight cfg w s' < weight cfg w s)).
Proof.
  intros Hmix Hreach Hhalt Hfin.
  destruct (reachable_single _ _ _ Hmix Hreach)
    as [x [Hr Hh Hcap Hop Hcl Hfifo Hrt Hsend Hpl Hroom]].
  destruct (close_after_end_of_input _ _ _ Hreach) as [Hdone_closed Hclosed_done].
  pose proof (reachable_inq_length _ _ _ Hreach) as Hlen.
  pose proof (reachable_catalog _ _ _ Hreach) as Hcat.
  unfold step. rewrite Hhalt.
  assert (∀ l s', step_running cfg l s = Some s' → st_halt s' = None →
                  weight cfg w s' < weight cfg w s →
                  ∃ l s', step_running cfg l s = Some s' ∧
                    (st_halt s' = Some Fatal ∨
                     (st_halt s' = None ∧ weight cfg w s' < weight cfg w s)))
    as Hgo by (intros l s' ? ? ?; exists l, s'; auto).
  destruct (st_players s) as [ps|] eqn:Hps.
  2: { apply (Hgo LLaunch _ ltac:(simpl; by rewrite Hps) ltac:(done)).
       unfold weight. simpl. rewrite Hps. simpl.
       unfold launch. rewrite Hmix. destruct (onlyDownload cfg); simpl; lia. }
  destruct (Hpl _ eq_refl) as (st & -> & Hat).
  destruct st as [|ch|]; simpl in Hat.
  - (* the player has not called route yet *)
    eapply (Hgo (LPlayer 0)).
    { simpl. unfold player. rewrite Hps. simpl. rewrite Hr, Hh. simpl. done. }
    { done. }
    unfold weight, set_player. simpl. rewrite ?Hps, ?Hh. simpl. lia.
  - subst ch. destruct (buf x) as [|snd rest] eqn:Hbuf.
    + destruct (closed x) eqn:Hclosed.
      * (* the stream is closed and drained *)
        eapply (Hgo (LPlayer 0)).
        { simpl. unfold player. rewrite Hps. simpl. rewrite Hh.
          unfold recv_chan. simpl. rewrite Hbuf, Hclosed. done. }
        { done. }
        unfold weight, set_player. simpl. rewrite ?Hps, ?Hh. simpl. lia.
      * (* the stream is open and empty: the downloader or a query moves *)
        destruct (st_dl s) as [|item|item|item ch|] eqn:Hdl.
        -- destruct (st_intake_closed s) eqn:Hic.
           ++ (* end of input: router.close() *)
              eapply (Hgo LDownloader).
              { simpl. unfold downloader. rewrite Hdl, Hic, Hr, Hh. simpl.
                unfold close_chan. simpl. rewrite Hclosed. done. }
              { done. }
              unfold weight. simpl. rewrite Hps, Hh, Hdl, Hic. simpl. lia.
           ++ destruct (all_done (st_inq s)) eqn:Hall.
              ** (* close(downloadCh) *)
                 eapply (Hgo LCloseIntake).
                 { simpl. rewrite Hall, Hic. done. }
                 { done. }
                 unfold weight. simpl. rewrite Hps, Hh, Hdl, Hic. simpl. lia.
              ** destruct (first_not_done _ Hall) as (i & xq & Hi & Hxq & Htake).
                 destruct (lookup_lt_is_Some_2 (args cfg) i) as [q Hq].
                 { rewrite <- Hlen. by eapply lookup_lt_Some. }
                 pose proof (λ y, weight_insert (inq_weight cfg w) _ _ _ _ _ y Hq Hi) as Hw.
                 destruct xq as [|[|snd rest]|]; [| | |done].
                 --- (* stmt.Query *)
                     destruct (query_items cfg (st_world s) q) as [items|] eqn:Hitems.
                     +++ eapply (Hgo (LInquirer i)).
                         { simpl. unfold queryDatabase, may_start.
                           rewrite Hi, Hq, Htake, orb_true_r, Hitems. done. }
                         { done. }
                         unfold weight. simpl. rewrite Hps, Hh, Hdl, Hic. simpl.
                         specialize (Hw (InqRunning items)). simpl in Hw.
                         unfold items_of in Hw.
                         rewrite <- (query_items_catalog cfg w (st_world s) q Hcat),
                           Hitems in Hw. simpl in Hw. lia.
                     +++ exists (LInquirer i). eexists. split.
                         { simpl. unfold queryDatabase, may_start.
                           rewrite Hi, Hq, Htake, orb_true_r, Hitems. done. }
                         by left.
                 --- (* queryDatabase returns, or the cursor has failed *)
                     destruct (rows_fatal cfg (st_world s) q) eqn:Hfatal.
                     +++ exists (LInquirer i). eexists. split.
                         { simpl. unfold queryDatabase.
                           rewrite Hi, Hq, Hfatal. done. }
                         by left.
                     +++ eapply (Hgo (LInquirer i)).
                         { simpl. unfold queryDatabase.
                           rewrite Hi, Hq, Hfatal. done. }
                         { done. }
                         unfold weight. simpl. rewrite Hps, Hh, Hdl, Hic. simpl.
                         specialize (Hw InqDone). simpl in Hw. lia.
                 --- (* the send on downloadCh *)
                     eapply (Hgo (LInquirer i)).
                     { simpl. unfold queryDatabase. rewrite Hi, Hdl.
                       destruct (args cfg !! i); done. }
                     { done. }
                     unfold weight. simpl. rewrite Hps, Hh, Hdl, Hic. simpl.
                     specialize (Hw (InqRunning rest)). simpl in Hw. lia.
        -- (* the cache check and the fetch *)
           destruct (retrieve cfg (st_world s) item) as [[w' evs] [e|]] eqn:Hret.
           ++ eapply (Hgo LDownloader).
              { simpl. unfold downloader. rewrite Hdl, Hret. done. }
              { done. }
              unfold weight. simpl. rewrite Hps, Hh, Hdl. simpl. lia.
           ++ eapply (Hgo LDownloader).
              { simpl. unfold downloader. rewrite Hdl, Hret. done. }
              { done. }
              unfold weight. simpl. rewrite Hps, Hh, Hdl. simpl. lia.
        -- (* router.route *)
           eapply (Hgo LDownloader).
           { simpl. unfold downloader. rewrite Hdl, Hr, Hh. simpl. done. }
           { done. }
           unfold weight. simpl. rewrite Hps, Hh, Hdl. simpl. lia.
        -- (* the send on the stream: there is room *)
           rewrite (Hsend _ _ eq_refl) in *.
           eapply (Hgo LDownloader).
           { simpl. unfold downloader. rewrite Hdl, Hh. unfold send_chan. simpl.
             rewrite Hclosed, Hbuf, Hcap. simpl. done. }
           { done. }
           unfold weight. simpl. rewrite Hps, Hh, Hdl, ?Hbuf. simpl. lia.
        -- by specialize (Hcl eq_refl).
    + (* the player receives *)
      eapply (Hgo (LPlayer 0)).
      { simpl. unfold player. rewrite Hps. simpl. rewrite Hh.
        unfold recv_chan. simpl. rewrite Hbuf. done. }
      { by destruct (onlyDownload cfg). }
      unfold weight. simpl. rewrite Hps, Hh. simpl. rewrite Hbuf.
      destruct (onlyDownload cfg); simpl; lia.
  - (* the player is done: so is everything else *)
    exfalso. destruct Hat as [Hclosed Hbuf].
    assert (st_dl s = DlDone) as Hdl.
    { destruct (st_dl s) eqn:Hdl; try done; rewrite Hop in Hclosed; done. }
    unfold finished in Hfin.
    rewrite Hps, Hdl, (Hdone_closed Hdl), (Hclosed_done (Hdone_closed Hdl)) in Hfin.
    done.
Qed.

(** ** From the queries to the downloader *)

Lemma zip_with_replicate_r {A B C} (f : A → B → C) (l : list A) (y : B) :
  zip_with f l (replicate (length l) y) = (λ x, f x y) <$> l.
Proof. induction l as [|x l IH]; csimpl; [done|]. by rewrite IH. Qed.

Lemma concat_insert_perm {A} (f : string → inq_state → list A) (qs : list string)
    (xs : list inq_state) i q x y :
  qs !! i = Some q → xs !! i = Some x →
  concat (zip_with f qs (<[i := y]> xs)) ++ f q x
  ≡ₚ concat (zip_with f qs xs) ++ f q y.
Proof.
  revert xs i. induction qs as [|q' qs IH]; intros [|x' xs] [|i] Hq Hx;
    simpl in *; simplify_eq.
  - rewrite <- !(assoc_L (++)).
    rewrite (Permutation_app_comm (f q y)), (Permutation_app_comm (f q x)).
    rewrite <- !(assoc_L (++)). f_equiv. apply Permutation_app_comm.
  - rewrite <- !(assoc_L (++)). f_equiv. by apply IH.
Qed.

Lemma length_rows_read rs : (length (rows_read rs) ≤ length rs)%nat.
Proof. induction rs as [|[r|] rs IH]; simpl; lia. Qed.

Lemma length_items_of cfg w q :
  (0 ≤ nsounds cfg)%Z → (length (items_of cfg w q) ≤ Z.to_nat (nsounds cfg))%nat.
Proof.
  intros Hn. unfold items_of, query_items, stmt_Query, limit_rows.
  destruct (catalog w q) as [rs|]; simpl; [|lia].
  rewrite length_fmap. destruct (nsounds cfg <? 0)%Z eqn:Hneg; [lia|].
  etrans; [apply length_rows_read|]. rewrite length_take. lia.
Qed.

Lemma items_of_query cfg w q snd :
  snd ∈ items_of cfg w q → query snd = q ∧ fpath snd = soundPath cfg (fname snd).
Proof.
  unfold items_of, query_items, stmt_Query.
  destruct (catalog w q) as [rs|]; simpl; [|by intros ?%elem_of_nil].
  intros (r & -> & _)%list_elem_of_fmap. done.
Qed.

Lemma items_of_world cfg w s q items :
  reachable cfg w s → query_items cfg (st_world s) q = Some items →
  items_of cfg w q = items.
Proof.
  intros Hreach Hitems. unfold items_of.
  rewrite <- (query_items_catalog cfg w (st_world s) q), Hitems; [done|].
  by apply (reachable_catalog cfg).
Qed.

Lemma reachable_conserved cfg w s :
  reachable cfg w s →
  taken (st_trace s) ++ all_pending cfg w s ≡ₚ all_items cfg w.
Proof.
  revert s. apply reachable_invariant.
  - destruct (init_fields cfg w) as (_ & Hinq & _ & _ & _ & Htr & _).
    unfold all_pending, all_items. rewrite Hinq, Htr. simpl.
    by rewrite zip_with_replicate_r.
  - intros s l s' Hreach IH Hstep. unfold all_pending in *.
    pose proof (reachable_inq_length _ _ _ Hreach) as Hlen.
    step_inv Hstep; simpl; try done.
    all: rewrite ?taken_app; csimpl; rewrite ?app_nil_r.
    all: try match goal with
         | H : retrieve _ _ _ = _ |- _ =>
             rewrite (retrieve_taken _ _ _ _ _ _ H), ?app_nil_r
         end; try done.
    all: match goal with
         | Hi : st_inq _ !! ?i = Some ?x |- context [<[?i := ?y]> _] =>
             let q := fresh "q" in let Hq := fresh "Hq" in
             destruct (lookup_lt_is_Some_2 (args cfg) i) as [q Hq];
             [rewrite <- Hlen; by eapply lookup_lt_Some|];
             pose proof (concat_insert_perm (pending cfg w) _ _ _ _ _ y Hq Hi) as Hp;
             simpl in Hp; rewrite ?app_nil_r in Hp; simplify_eq
         end.
    + erewrite items_of_world in Hp by eauto.
      apply Permutation_app_inv_r in Hp. by rewrite Hp.
    + by rewrite Hp.
    + rewrite <- (assoc_L (++)). simpl. rewrite <- IH. f_equiv.
      apply (Permutation_app_inv_r l0). rewrite <- Hp. simpl.
      apply Permutation_middle.
Qed.

Lemma reachable_order cfg w s :
  NoDup (args cfg) → reachable cfg w s → order_inv cfg w s.
Proof.
  intros Hnd. revert s. apply reachable_invariant.
  - destruct (init_fields cfg w) as (_ & Hinq & _ & _ & _ & Htr & _).
    intros i q x Hq Hx. rewrite Htr. rewrite Hinq in Hx.
    apply lookup_replicate in Hx as [-> _]. done.
  - intros s l s' Hreach IH Hstep.
    step_inv Hstep; simpl.
    all: intros j q' x' Hq' Hx'; simpl in *.
    all: rewrite ?taken_app; csimpl; rewrite ?app_nil_r.
    all: try match goal with
         | H : retrieve _ _ _ = _ |- _ =>
             rewrite (retrieve_taken _ _ _ _ _ _ H), ?app_nil_r
         end.
    all: try (by apply (IH j)).
    all: apply list_lookup_insert_Some in Hx' as [(-> & <- & _)|(Hne & Hx')].
    all: try (by apply (IH j)).
    + (* stmt.Query *)
      assert (q' = s0) as -> by congruence.
      simpl.
      match goal with
      | H : query_items _ _ _ = Some _ |- _ =>
          pose proof (items_of_world cfg w s _ _ Hreach H) as <-
      end.
      by apply (IH j _ InqIdle).
    + (* queryDatabase returns *)
      simpl. by apply (IH j _ (InqRunning [])).
    + (* the item sent is an item of this query *)
      match goal with
      | H : st_inq s !! j = Some (InqRunning (?a :: ?r)) |- _ =>
          pose proof (IH j _ _ Hq' H) as Hj; simpl in Hj
      end.
      assert (query s0 = q') as Hs0.
      { eapply (items_of_query cfg w). rewrite <- Hj.
        apply elem_of_app. right. by left. }
      unfold of_query in *. rewrite filter_app, filter_cons_True, filter_nil by done.
      simpl. by rewrite <- (assoc_L (++)).
    + (* the item sent is an item of another query *)
      match goal with
      | H : st_inq s !! ?i = Some (InqRunning (?a :: ?r)) |- _ =>
          destruct (lookup_lt_is_Some_2 (args cfg) i) as [q Hq];
          [rewrite <- (reachable_inq_length cfg w s Hreach); by eapply lookup_lt_Some|];
          pose proof (IH i _ _ Hq H) as Hi; simpl in Hi
      end.
      assert (query s0 = q) as Hs0.
      { eapply (items_of_query cfg w). rewrite <- Hi.
        apply elem_of_app. right. by left. }
      assert (q ≠ q') as Hqq.
      { intros ->. apply Hne. by eapply NoDup_lookup. }
      unfold of_query in *. rewrite filter_app, filter_cons_False, filter_nil by congruence.
      rewrite app_nil_r. by apply (IH j).
Qed.

(** ** Every stream has room for [PlayerChannelSize] items *)

Lemma chan_ok_route q (r : router) h ch r' h' :
  Forall chan_ok h → route q r h = (ch, r', h') → Forall chan_ok h'.
Proof.
  intros Hall H. destruct r as [r|r]; simpl in H.
  - by simplify_eq.
  - destruct (multi_route q r h) as [[ch1 r1] h1] eqn:Hroute. simplify_eq.
    apply multi_route_cases in Hroute as [(_ & _ & ->)|(_ & _ & _ & ->)]; [done|].
    apply Forall_app. split; [done|]. constructor; [|constructor].
    split; simpl; [done|lia].
Qed.

Lemma chan_ok_insert h i x : Forall chan_ok h → chan_ok x → Forall chan_ok (<[i := x]> h).
Proof.
  intros Hall Hx. apply Forall_lookup. intros j y Hy.
  apply list_lookup_insert_Some in Hy as [(_ & <- & _)|(_ & Hy)]; [done|].
  by eapply (Forall_lookup_1 _ _ _ _ Hall).
Qed.

Lemma chan_ok_send c snd h h' :
  Forall chan_ok h → send_chan c snd h = SendOk h' → Forall chan_ok h'.
Proof.
  intros Hall H. unfold send_chan in H.
  destruct (h !! c) as [x|] eqn:Hx; [|done].
  destruct (closed x); [done|]. case_decide; [|done]. simplify_eq.
  destruct (Forall_lookup_1 _ _ _ _ Hall Hx) as [Hcap Hlen].
  apply chan_ok_insert; [done|]. split; simpl; [done|].
  rewrite length_app. simpl. lia.
Qed.

Lemma chan_ok_recv c h snd h' :
  Forall chan_ok h → recv_chan c h = RecvOk snd h' → Forall chan_ok h'.
Proof.
  intros Hall (x & rest & Hx & Hbuf & ->)%recv_chan_Some.
  destruct (Forall_lookup_1 _ _ _ _ Hall Hx) as [Hcap Hlen].
  apply chan_ok_insert; [done|]. split; simpl; [done|].
  rewrite Hbuf in Hlen. simpl in Hlen. lia.
Qed.

Lemma chan_ok_close c h h' :
  Forall chan_ok h → close_chan c h = Some h' → Forall chan_ok h'.
Proof.
  intros Hall (x & Hx & _ & ->)%close_chan_Some.
  apply chan_ok_insert; [done|]. exact (Forall_lookup_1 _ _ _ _ Hall Hx).
Qed.

Lemma chan_ok_close_all cs h h' :
  Forall chan_ok h → close_all cs h = Some h' → Forall chan_ok h'.
Proof.
  revert h. induction cs as [|c cs IH]; intros h Hall H.
  - unfold close_all in H. simpl in H. by simplify_eq.
  - rewrite close_all_cons in H.
    destruct (close_chan c h) as [h1|] eqn:H1; simpl in H; [|done].
    eapply IH; [|done]. by eapply chan_ok_close.
Qed.

Lemma chan_ok_router_close (r : router) h h' :
  Forall chan_ok h → close r h = Some h' → Forall chan_ok h'.
Proof.
  intros Hall H. destruct r as [r|r]; simpl in H.
  - by eapply chan_ok_close.
  - by eapply chan_ok_close_all.
Qed.

Lemma reachable_caps cfg w s : reachable cfg w s → Forall chan_ok (st_heap s).
Proof.
  revert s. apply reachable_invariant.
  - destruct (init_heap_router cfg w) as [(_ & _ & ->)|(_ & _ & ->)].
    + constructor.
    + constructor; [|constructor]. split; simpl; [done|lia].
  - intros s l s' _ IH Hstep. step_inv Hstep; simpl; try done.
    all: first [ by eapply chan_ok_router_close | by eapply chan_ok_route
               | by eapply chan_ok_send | by eapply chan_ok_recv ].
Qed.

(** ** Once the router is closed, every stream that ever carried an item is
    closed *)

Lemma close_all_keeps_closed cs h h' i x :
  close_all cs h = Some h' → h !! i = Some x → closed x = true →
  ∃ x', h' !! i = Some x' ∧ closed x' = true.
Proof.
  revert h x. induction cs as [|c cs IH]; intros h x H Hx Hc.
  - unfold close_all in H. simpl in H. simplify_eq. eauto.
  - rewrite close_all_cons in H.
    destruct (close_chan c h) as [h1|] eqn:H1; simpl in H; [|done].
    apply close_chan_Some in H1 as (y & Hy & Hyc & ->).
    destruct (decide (c = i)) as [->|Hne]; [congruence|].
    eapply IH; [done| |done]. by rewrite list_lookup_insert_ne.
Qed.

Lemma close_all_closed cs h h' ch :
  close_all cs h = Some h' → ch ∈ cs →
  ∃ x, h' !! ch = Some x ∧ closed x = true.
Proof.
  revert h. induction cs as [|c cs IH]; intros h H Hin.
  - by apply elem_of_nil in Hin.
  - rewrite close_all_cons in H.
    destruct (close_chan c h) as [h1|] eqn:H1; simpl in H; [|done].
    apply elem_of_cons in Hin as [->|Hin]; [|by eapply IH].
    apply close_chan_closed in H1 as (x & Hx & Hc).
    by eapply close_all_keeps_closed.
Qed.

(** The table of the per-query router names every channel of the heap. *)
Lemma routes_cover r h ch :
  routes_ok r h → ch < length h → ch ∈ (map_to_list (routes r)).*2.
Proof.
  intros (Hsize & Hlook & Hinj) Hlt.
  pose proof (routes_values_NoDup _ Hinj) as Hnd.
  set (vs := (map_to_list (routes r)).*2) in *.
  assert (list_to_set vs = (set_seq 0 (length h) : gset nat)) as Heq.
  { apply set_subseteq_size_eq.
    - intros v Hv%elem_of_list_to_set. apply elem_of_set_seq.
      apply list_elem_of_fmap in Hv as ([k v'] & -> & Hkv).
      apply elem_of_map_to_list in Hkv. destruct (Hlook _ _ Hkv). simpl. lia.
    - rewrite size_set_seq, size_list_to_set by done.
      unfold vs. rewrite length_fmap, length_map_to_list. lia. }
  apply (elem_of_list_to_set (C := gset nat)). rewrite Heq.
  apply elem_of_set_seq. lia.
Qed.

Lemma router_close_closed cfg w s h' :
  reachable cfg w s → close (st_router s) (st_heap s) = Some h' →
  Forall (λ x, closed x = true) h'.
Proof.
  intros Hreach Hclose. apply Forall_lookup. intros ch x Hx.
  destruct (mix cfg) eqn:Hmix.
  - destruct (reachable_mix _ _ _ Hmix Hreach) as [r [Hr Hok _ _ _ _]].
    rewrite Hr in Hclose. simpl in Hclose. unfold multi_close in Hclose.
    destruct (close_all_length _ _ _ Hclose) as [Hlen _].
    destruct (close_all_closed _ _ _ ch Hclose) as (x' & Hx' & Hc).
    { apply routes_cover with (h := st_heap s); [done|].
      rewrite <- Hlen. by eapply lookup_lt_Some. }
    congruence.
  - destruct (reachable_single _ _ _ Hmix Hreach) as [y [Hr Hh _ _ _ _ _ _ _ _]].
    rewrite Hr, Hh in Hclose. simpl in Hclose. apply close_single in Hclose as ->.
    destruct ch as [|ch]; simpl in Hx; [by simplify_eq|].
    by rewrite lookup_nil in Hx.
Qed.

Lemma reachable_settled cfg w s :
  reachable cfg w s → st_dl s = DlDone → Forall settled (st_heap s).
Proof.
  revert s. apply (reachable_invariant cfg w (λ s, st_dl s = DlDone → Forall settled (st_heap s))).
  - by destruct (init_fields cfg w) as (_ & _ & _ & -> & _).
  - intros s l s' Hreach IH Hstep.
    pose proof (λ h', router_close_closed cfg w s h' Hreach) as Hcl.
    step_inv Hstep; simpl; dl_norm; try done; try (intros; congruence).
    all: intros Hd.
    all: try (eapply Forall_impl; [by apply Hcl|]; intros ? ?; by left).
    all: specialize (IH Hd).
    + (* a late route makes an empty stream *)
      match goal with
      | H : route _ _ _ = _ |- _ => destruct (st_router s) as [r0|r0]; simpl in H
      end.
      * by simplify_eq.
      * destruct (multi_route _ r0 (st_heap s)) as [[ch1 r1] h1] eqn:Hroute.
        simplify_eq.
        apply multi_route_cases in Hroute as [(_ & _ & ->)|(_ & _ & _ & ->)]; [done|].
        apply Forall_app. split; [done|]. constructor; [|constructor]. by right.
    + match goal with
      | H : recv_chan _ _ = RecvOk _ _ |- _ =>
          apply recv_chan_Some in H as (x & rest & Hx & _ & ->)
      end.
      apply Forall_lookup. intros j y Hy.
      apply list_lookup_insert_Some in Hy as [(_ & <- & _)|(_ & Hy)].
      * exact (Forall_lookup_1 _ _ _ _ IH Hx).
      * exact (Forall_lookup_1 _ _ _ _ IH Hy).
    + match goal with
      | H : recv_chan _ _ = RecvOk _ _ |- _ =>
          apply recv_chan_Some in H as (x & rest & Hx & _ & ->)
      end.
      apply Forall_lookup. intros j y Hy.
      apply list_lookup_insert_Some in Hy as [(_ & <- & _)|(_ & Hy)].
      * exact (Forall_lookup_1 _ _ _ _ IH Hx).
      * exact (Forall_lookup_1 _ _ _ _ IH Hy).
Qed.

(** ** [-d] with [--mix]: nothing drains the streams of the terms *)

Lemma download_mix_no_recv cfg w s p key mock ch snd h' :
  onlyDownload cfg = true → mix cfg = true → "" ∉ args cfg →
  reachable cfg w s →
  st_players s ≫= (.!! p) = Some (mkPlayer key mock (PlRecv ch)) →
  recv_chan ch (st_heap s) = RecvOk snd h' → False.
Proof.
  intros Hd Hmix Hno Hreach Hp Hrecv.
  destruct (reachable_mix _ _ _ Hmix Hreach) as [r [Hr Hok _ _ Hlaunch Hpl]].
  destruct (reachable_items _ _ _ Hreach) as [_ _ Hwf _].
  apply bind_lookup_Some in Hp as (ps & Hps & Hp).
  assert (key = "") as ->.
  { specialize (Hlaunch _ Hps). unfold launch in Hlaunch. rewrite Hd in Hlaunch.
    apply (f_equal (.!! p)) in Hlaunch. rewrite list_lookup_fmap, Hp in Hlaunch.
    simpl in Hlaunch. destruct p as [|p]; simpl in Hlaunch; [congruence|].
    by rewrite lookup_nil in Hlaunch. }
  pose proof (Forall_lookup_1 _ _ _ _ (Hpl _ Hps) Hp) as Hplok.
  unfold player_ok in Hplok. simpl in Hplok.
  destruct Hok as (_ & Hlook & _). destruct (Hlook _ _ Hplok) as [_ Hq].
  apply recv_chan_Some in Hrecv as (x & rest & Hx & Hbuf & _).
  destruct (Hwf _ _ Hx) as [Hprod [pre Hsuf]].
  unfold sent_of in Hq. rewrite Hx in Hq. simpl in Hq.
  assert (snd ∈ sent x) as Hin.
  { rewrite Hsuf, Hbuf. apply elem_of_app. right. by left. }
  pose proof (proj1 (Forall_forall _ _) Hq _ Hin) as Hquery. simpl in Hquery.
  pose proof (proj1 (Forall_forall _ _) Hprod _ Hin) as Hp'.
  apply produced_fields in Hp' as [Hargs _]. by rewrite Hquery in Hargs.
Qed.

Lemma Forall_heap_route (Q : chan → Prop) q (r : router) h ch r' h' :
  Q (mkChan [] false PlayerChannelSize []) →
  Forall Q h → route q r h = (ch, r', h') → Forall Q h'.
Proof.
  intros HQ Hall H. destruct r as [r|r]; simpl in H.
  - by simplify_eq.
  - destruct (multi_route q r h) as [[ch1 r1] h1] eqn:Hroute. simplify_eq.
    apply multi_route_cases in Hroute as [(_ & _ & ->)|(_ & _ & _ & ->)]; [done|].
    apply Forall_app. split; [done|]. by constructor.
Qed.

Lemma Forall_heap_close_all (Q : chan → Prop) cs h h' :
  (∀ x, Q x → Q (mkChan (buf x) true (cap x) (sent x))) →
  Forall Q h → close_all cs h = Some h' → Forall Q h'.
Proof.
  intros HQ. revert h. induction cs as [|c cs IH]; intros h Hall H.
  - unfold close_all in H. simpl in H. by simplify_eq.
  - rewrite close_all_cons in H.
    destruct (close_chan c h) as [h1|] eqn:H1; simpl in H; [|done].
    eapply IH; [|done].
    apply close_chan_Some in H1 as (x & Hx & _ & ->).
    apply Forall_insert; [done|]. apply HQ. exact (Forall_lookup_1 _ _ _ _ Hall Hx).
Qed.

Lemma Forall_heap_close (Q : chan → Prop) (r : router) h h' :
  (∀ x, Q x → Q (mkChan (buf x) true (cap x) (sent x))) →
  Forall Q h → close r h = Some h' → Forall Q h'.
Proof.
  intros HQ Hall H. destruct r as [r|r]; simpl in H.
  - apply (Forall_heap_close_all Q [c r] h h' HQ Hall).
    unfold close_all. simpl. done.
  - by eapply Forall_heap_close_all.
Qed.

Lemma Forall_heap_send (Q : chan → Prop) c snd h h' :
  (∀ x, Q x → Q (mkChan (buf x ++ [snd]) false (cap x) (sent x ++ [snd]))) →
  Forall Q h → send_chan c snd h = SendOk h' → Forall Q h'.
Proof.
  intros HQ Hall (x & Hx & _ & ->)%send_chan_Some.
  apply Forall_insert; [done|]. apply HQ. exact (Forall_lookup_1 _ _ _ _ Hall Hx).
Qed.

Lemma reachable_download_mix cfg w s :
  onlyDownload cfg = true → mix cfg = true → "" ∉ args cfg →
  reachable cfg w s →
  Forall (λ x, buf x = sent x) (st_heap s) ∧ played (st_trace s) = [].
Proof.
  intros Hd Hmix Hno. revert s. apply reachable_invariant.
  - destruct (init_fields cfg w) as (_ & _ & _ & _ & _ & -> & _). split; [|done].
    destruct (init_heap_router cfg w) as [(_ & _ & ->)|(? & _)]; [|congruence].
    constructor.
  - intros s l s' Hreach [Hbufs Hplayed] Hstep.
    pose proof (download_mix_no_recv cfg w s) as Hno_recv.
    step_inv Hstep; simpl.
    all: try (exfalso; eapply Hno_recv; by eauto).
    all: unfold played in *; rewrite ?omap_app; csimpl; rewrite ?app_nil_r.
    all: try match goal with
         | H : retrieve _ _ _ = _ |- _ =>
             apply retrieve_cases in H as [(-> & _)|[(-> & _)|(-> & _)]]; csimpl;
             rewrite ?app_nil_r
         end.
    all: try done.
    all: split; [|done].
    all: first [ eapply Forall_heap_close; [|exact Hbufs|eassumption]; by intros ? ?
               | eapply Forall_heap_route; [|exact Hbufs|eassumption]; done
               | eapply Forall_heap_send; [|exact Hbufs|eassumption];
                 intros ? ?; simpl in *; congruence ].
Qed.

(** ** No step opens a closed channel *)

Lemma route_keeps q (r : router) h ch r' h' i x :
  route q r h = (ch, r', h') → h !! i = Some x → h' !! i = Some x.
Proof.
  intros H Hx. destruct r as [r|r]; simpl in H.
  - by simplify_eq.
  - destruct (multi_route q r h) as [[ch1 r1] h1] eqn:Hroute. simplify_eq.
    apply multi_route_cases in Hroute as [(_ & _ & ->)|(_ & _ & _ & ->)]; [done|].
    by apply lookup_app_l_Some.
Qed.

Lemma router_close_keeps_closed (r : router) h h' i x :
  close r h = Some h' → h !! i = Some x → closed x = true →
  ∃ x', h' !! i = Some x' ∧ closed x' = true.
Proof.
  destruct r as [r|r]; simpl; intros H Hx Hc.
  - apply (close_all_keeps_closed [c r] h h' i x); [|done..].
    unfold close_all. by simpl.
  - by eapply close_all_keeps_closed.
Qed.

Lemma step_keeps_closed cfg l s s' i x :
  step cfg l s = Some s' → st_heap s !! i = Some x → closed x = true →
  ∃ x', st_heap s' !! i = Some x' ∧ closed x' = true.
Proof.
  intros Hstep Hx Hc. step_inv Hstep; simpl; eauto.
  all: try (eexists; split; [by eapply route_keeps|done]).
  all: try (by eapply router_close_keeps_closed).
  all: try match goal with
       | H : recv_chan _ _ = RecvOk _ ?h' |- _ =>
           pose proof (recv_chan_closed _ _ _ _ i H) as Heq; rewrite Hx in Heq;
           destruct (h' !! i) as [x'|]; simpl in Heq; [|done];
           exists x'; split; [done|congruence]
       end.
  match goal with
  | H : send_chan _ _ _ = SendOk _ |- _ =>
      apply send_chan_Some in H as (y & Hy & Hyc & ->)
  end.
  exists x. split; [|done]. rewrite list_lookup_insert_ne; [done|].
  intros ->. congruence.
Qed.

Lemma run_after_close cfg ls s s' :
  st_dl s = DlDone → run cfg ls s = Some s' →
  st_dl s' = DlDone ∧
  ∀ i x, st_heap s !! i = Some x → closed x = true →
         ∃ x', st_heap s' !! i = Some x' ∧ closed x' = true.
Proof.
  revert s. induction ls as [|l ls IH]; intros s Hdone Hrun; simpl in Hrun.
  - simplify_eq. eauto.
  - destruct (step cfg l s) as [s1|] eqn:Hstep; simpl in Hrun; [|done].
    destruct (no_close_after_done _ _ _ _ Hdone Hstep) as [Hdone1 _].
    destruct (IH _ Hdone1 Hrun) as [Hdone' Hkeep]. split; [done|].
    intros i x Hx Hc.
    destruct (step_keeps_closed _ _ _ _ _ _ Hstep Hx Hc) as (x1 & Hx1 & Hc1).
    by eapply Hkeep.
Qed.

Lemma reachable_run cfg w ls s s' :
  reachable cfg w s → run cfg ls s = Some s' → reachable cfg w s'.
Proof.
  intros [ls0 Hls0] Hrun. exists (ls0 ++ ls). by rewrite run_app, Hls0.
Qed.

(** The step in which the downloader ends is [router.close()]: every stream
    there is at that time is closed by it. *)
Lemma close_step_closes cfg w s l s' :
  reachable cfg w s → st_dl s ≠ DlDone → step cfg l s = Some s' →
  st_dl s' = DlDone → Forall (λ x, closed x = true) (st_heap s').
Proof.
  intros Hreach Hne Hstep Hdone.
  pose proof (λ h', router_close_closed cfg w s h' Hreach) as Hcl.
  step_inv Hstep; simpl in *; dl_norm; try congruence.
  by apply Hcl.
Qed.

(** ** The rows that [initDatabase] inserts *)

Lemma insert_records_ok dbFile n recs h rows :
  (∀ c, h_sql_fails h c = false) →
  h_dbs h !! dbFile = Some rows →
  Forall (λ r, (7 ≤ length r)%nat) recs →
  insert_records dbFile n recs h
  = Returns () (host_set_dbs (<[dbFile := rows ++ (take 7 <$> recs)]> (h_dbs h)) h).
Proof.
  revert n h rows. induction recs as [|r recs IH]; intros n h rows Hsql Hdb Hall.
  - simpl. unfold call_ret. rewrite app_nil_r, insert_id by done. by destruct h.
  - apply Forall_cons in Hall as [Hr Hall]. simpl. unfold call_bind, insert_record.
    rewrite decide_False by lia. rewrite Hsql, Hdb. simpl.
    erewrite IH; [|done|simpl; apply lookup_insert_eq|done].
    simpl. rewrite insert_insert_eq. by rewrite <- (assoc_L (++)).
Qed.

Lemma insert_records_short dbFile n pre r post h rows :
  (∀ c, h_sql_fails h c = false) →
  h_dbs h !! dbFile = Some rows →
  Forall (λ r, (7 ≤ length r)%nat) pre → length r < 7 →
  insert_records dbFile n (pre ++ r :: post) h
  = Dies Panic (host_set_dbs (<[dbFile := rows ++ (take 7 <$> pre)]> (h_dbs h)) h).
Proof.
  revert n h rows. induction pre as [|r0 pre IH]; intros n h rows Hsql Hdb Hall Hr.
  - simpl. unfold call_bind, insert_record. rewrite decide_True by done.
    rewrite app_nil_r, insert_id by done. by destruct h.
  - apply Forall_cons in Hall as [Hr0 Hall]. simpl. unfold call_bind, insert_record.
    rewrite decide_False by lia. rewrite Hsql, Hdb. simpl.
    erewrite IH; [|done|simpl; apply lookup_insert_eq|done..].
    simpl. rewrite insert_insert_eq. by rewrite <- (assoc_L (++)).
Qed.

Lemma csv_ReadAll_uniform h bytes records :
  csv_ReadAll h bytes = Some records →
  h_csv h bytes = Some records ∧ uniform records = true.
Proof.
  unfold csv_ReadAll. intros H. destruct (h_csv h bytes) as [recs|]; [|done].
  destruct (uniform recs) eqn:Hu; by simplify_eq.
Qed.

Lemma uniform_length r0 recs (r : record) :
  uniform (r0 :: recs) = true → r ∈ r0 :: recs → length r = length r0.
Proof.
  simpl. intros Hall [->|Hin]%elem_of_cons; [done|].
  apply Is_true_eq_left, forallb_True in Hall.
  pose proof (proj1 (Forall_forall _ _) Hall r Hin) as Hr. simpl in Hr.
  by apply Nat.eqb_eq, Is_true_eq_true.
Qed.

Lemma initDatabase_loop dbFile csvFile h bytes records :
  (∀ c, h_sql_fails h c = false) →
  os_Open h csvFile = Some bytes → csv_ReadAll h bytes = Some records →
  ∃ h1, h_dbs h1 !! dbFile = Some (default [] (h_dbs h !! dbFile)) ∧
        (∀ c, h_sql_fails h1 c = false) ∧
        (∀ d, host_set_dbs d h1 = host_set_dbs d (host_log (LogInitializing dbFile) h)) ∧
        <[dbFile := default [] (h_dbs h !! dbFile)]> (h_dbs h) = h_dbs h1 ∧
        initDatabase dbFile csvFile h = insert_records dbFile 0 records h1.
Proof.
  intros Hsql Hopen Hcsv. unfold initDatabase, call_bind, create_table. simpl.
  rewrite !Hsql. destruct (h_dbs h !! dbFile) as [rows|] eqn:Hdb; simpl.
  - exists (host_log (LogInitializing dbFile) h). split_and!; try done.
    + by rewrite insert_id.
    + unfold os_Open, csv_ReadAll in *. simpl. by rewrite Hopen, Hcsv, Hsql.
  - exists (host_set_dbs (<[dbFile := []]> (h_dbs h)) (host_log (LogInitializing dbFile) h)).
    split_and!; try done.
    + simpl. apply lookup_insert_eq.
    + unfold os_Open, csv_ReadAll in *. simpl. by rewrite Hopen, Hcsv, Hsql.
Qed.

(** ** Start-up only adds *)

Lemma evolves_refl h : evolves h h.
Proof. constructor; try done. intros p rows ?. by exists rows. Qed.

Lemma evolves_trans h1 h2 h3 : evolves h1 h2 → evolves h2 h3 → evolves h1 h3.
Proof.
  intros [] []. constructor; try congruence.
  - set_solver.
  - eauto.
  - intros p rows Hp. destruct (ev_dbs0 _ _ Hp) as (rows2 & H2 & Hpre2).
    destruct (ev_dbs1 _ _ H2) as (rows3 & H3 & Hpre3).
    exists rows3. split; [done|]. by etrans.
  - by etrans.
Qed.

Lemma mkdir_or_exists_cases dir h :
  (dir ∈ h_mkdir_denied h ∧ mkdir_or_exists dir h = Dies Fatal h) ∨
  ((dir ∉ h_mkdir_denied h) ∧ path_exists h dir ∧
   mkdir_or_exists dir h = Returns () h) ∨
  ((dir ∉ h_mkdir_denied h) ∧ ¬ path_exists h dir ∧
   mkdir_or_exists dir h = Returns () (host_set_dirs ({[ dir ]} ∪ h_dirs h) h)).
Proof.
  unfold mkdir_or_exists, call_bind, os_Mkdir.
  destruct (bool_decide (dir ∈ h_mkdir_denied h)) eqn:Hd.
  - apply bool_decide_eq_true in Hd. by left.
  - apply bool_decide_eq_false in Hd. right.
    destruct (bool_decide (path_exists h dir)) eqn:He.
    + apply bool_decide_eq_true in He. by left.
    + apply bool_decide_eq_false in He. by right.
Qed.

Lemma mkdir_or_exists_evolves dir h : evolves h (host_after (mkdir_or_exists dir h)).
Proof.
  destruct (mkdir_or_exists_cases dir h) as [(_ & ->)|[(_ & _ & ->)|(_ & _ & ->)]];
    simpl; try apply evolves_refl.
  constructor; simpl; try done.
  - set_solver.
  - intros p rows ?. by exists rows.
Qed.

Lemma mkdir_or_exists_returns dir h h' :
  mkdir_or_exists dir h = Returns () h' →
  (dir ∉ h_mkdir_denied h') ∧ path_exists h' dir.
Proof.
  destruct (mkdir_or_exists_cases dir h) as [(_ & ->)|[(? & ? & ->)|(? & ? & ->)]];
    intros ?; simplify_eq; [done|].
  split; [done|]. left. simpl. set_solver.
Qed.

Lemma path_exists_evolves h h' p : evolves h h' → path_exists h p → path_exists h' p.
Proof.
  intros [] [Hd|[Hf|Hb]].
  - left. set_solver.
  - right. left. apply elem_of_dom in Hf as [b Hb]. apply elem_of_dom.
    exists b. eauto.
  - right. right. apply elem_of_dom in Hb as [rows Hr]. apply elem_of_dom.
    destruct (ev_dbs0 _ _ Hr) as (rows' & ? & _). by exists rows'.
Qed.

Lemma fileExists_evolves h h' p :
  evolves h h' → fileExists (h_world h) p = (true, None) →
  fileExists (h_world h') p = (true, None).
Proof.
  intros [] Hex.
  destruct (fileExists_cases (h_world h) p) as [(_ & Hnd & [b Hb])|[(? & _)|(? & _)]];
    [|congruence..].
  unfold fileExists, os_Stat. rewrite ev_stat0.
  rewrite bool_decide_eq_false_2 by done. by rewrite (ev_files0 _ _ Hb).
Qed.

Lemma host_Stat_evolves h h' p :
  evolves h h' →
  (∀ e, host_Stat h p = Some e → os_IsNotExist e = false) →
  ∀ e, host_Stat h' p = Some e → os_IsNotExist e = false.
Proof.
  intros [] Hold e. unfold host_Stat, os_Stat in *. rewrite ev_stat0.
  destruct (bool_decide (p ∈ stat_denied (h_world h))); [by intros ?; simplify_eq|].
  destruct (files (h_world h) !! p) as [b|] eqn:Hb.
  - by rewrite (ev_files0 _ _ Hb).
  - destruct (bool_decide (p ∈ dom (h_dbs h) ∨ p ∈ h_dirs h)) eqn:Hdom.
    + apply bool_decide_eq_true in Hdom.
      destruct (files (h_world h') !! p); [done|].
      rewrite bool_decide_eq_true_2; [done|].
      destruct Hdom as [Hdom|Hdir]; [left|right; set_solver].
      apply elem_of_dom in Hdom as [rows Hr].
      destruct (ev_dbs0 _ _ Hr) as (rows' & Hr' & _).
      apply elem_of_dom. by eexists.
    + specialize (Hold _ eq_refl). done.
Qed.

Lemma host_set_dbs_id h : host_set_dbs (h_dbs h) h = h.
Proof. by destruct h. Qed.

(** Whatever happens in the loop, the table holds the rows it had and,
    after them, the rows of the first [k] records. *)
Lemma insert_records_any dbFile n recs h rows :
  h_dbs h !! dbFile = Some rows →
  ∃ k, (k ≤ length recs)%nat ∧
       host_after (insert_records dbFile n recs h)
       = host_set_dbs (<[dbFile := rows ++ (take 7 <$> take k recs)]> (h_dbs h)) h ∧
       (∀ h', insert_records dbFile n recs h = Returns () h' → k = length recs).
Proof.
  revert n h rows. induction recs as [|r recs IH]; intros n h rows Hdb.
  - exists 0. simpl. rewrite app_nil_r, insert_id, host_set_dbs_id by done. done.
  - simpl. unfold call_bind, insert_record.
    case_decide.
    { exists 0. simpl. rewrite app_nil_r, insert_id, host_set_dbs_id by done.
      split_and!; [lia|done|done]. }
    destruct (h_sql_fails h (SqlInsert dbFile n)).
    { exists 0. simpl. rewrite app_nil_r, insert_id, host_set_dbs_id by done.
      split_and!; [lia|done|done]. }
    rewrite Hdb. simpl.
    destruct (IH (S n) (host_set_dbs (<[dbFile := rows ++ [take 7 r]]> (h_dbs h)) h)
                (rows ++ [take 7 r])) as (k & Hk & Hafter & Hret);
      [simpl; apply lookup_insert_eq|].
    exists (S k). split_and!; [simpl; lia| |].
    + rewrite Hafter. simpl. rewrite insert_insert_eq.
      by rewrite <- (assoc_L (++)).
    + intros h' Hr. simpl. f_equal. by eapply Hret.
Qed.

Lemma evolves_set_dbs h dbFile rows more :
  (h_dbs h !! dbFile = Some rows ∨ (h_dbs h !! dbFile = None ∧ rows = [])) →
  evolves h (host_set_dbs (<[dbFile := rows ++ more]> (h_dbs h)) h).
Proof.
  intros Hdb. constructor; simpl; try done.
  intros p rows0 Hp. destruct (decide (p = dbFile)) as [->|Hne].
  - rewrite lookup_insert_eq. eexists. split; [done|].
    destruct Hdb as [?|[? _]]; simplify_eq. by apply prefix_app_r.
  - rewrite lookup_insert_ne by done. by exists rows0.
Qed.

Lemma evolves_log e h : evolves h (host_log e h).
Proof.
  constructor; simpl; try done.
  - intros p rows ?. by exists rows.
  - by apply prefix_app_r.
Qed.

Lemma initDatabase_evolves dbFile csvFile h :
  evolves h (host_after (initDatabase dbFile csvFile h)).
Proof.
  unfold initDatabase, call_bind, create_table. simpl.
  pose proof (evolves_log (LogInitializing dbFile) h) as Hlog.
  set (h0 := host_log (LogInitializing dbFile) h) in *.
  destruct (h_sql_fails h (SqlOpen dbFile)); [done|].
  destruct (h_sql_fails h (SqlCreateTable dbFile)); [done|].
  assert (∃ h1 rows, h_dbs h1 !! dbFile = Some rows ∧ evolves h h1 ∧
            (match h_dbs h !! dbFile with
             | Some _ => Returns () h0
             | None => Returns () (host_set_dbs (<[dbFile := []]> (h_dbs h)) h0)
             end : outcome_of_call unit) = Returns () h1) as (h1 & rows & Hdb1 & Hev1 & ->).
  { destruct (h_dbs h !! dbFile) as [rows|] eqn:Hdb.
    - exists h0, rows. done.
    - exists (host_set_dbs (<[dbFile := []]> (h_dbs h)) h0), []. split_and!; try done.
      + simpl. apply lookup_insert_eq.
      + eapply evolves_trans; [exact Hlog|].
        apply (evolves_set_dbs h0 dbFile [] []). by right. }
  destruct (os_Open h1 csvFile) as [bytes|]; [|done].
  destruct (csv_ReadAll h1 bytes) as [records|]; [|done].
  destruct (h_sql_fails h1 (SqlPrepareInsert dbFile)); [done|].
  destruct (insert_records_any dbFile 0 records h1 rows Hdb1) as (k & _ & -> & _).
  eapply evolves_trans; [exact Hev1|]. apply evolves_set_dbs. by left.
Qed.

Lemma initDatabase_returns dbFile csvFile h h' :
  initDatabase dbFile csvFile h = Returns () h' → dbFile ∈ dom (h_dbs h').
Proof.
  unfold initDatabase, call_bind, create_table. simpl.
  set (h0 := host_log (LogInitializing dbFile) h) in *.
  destruct (h_sql_fails h (SqlOpen dbFile)); [done|].
  destruct (h_sql_fails h (SqlCreateTable dbFile)); [done|].
  assert (∃ h1 rows, h_dbs h1 !! dbFile = Some rows ∧
            (match h_dbs h !! dbFile with
             | Some _ => Returns () h0
             | None => Returns () (host_set_dbs (<[dbFile := []]> (h_dbs h)) h0)
             end : outcome_of_call unit) = Returns () h1) as (h1 & rows & Hdb1 & ->).
  { destruct (h_dbs h !! dbFile) as [rows|] eqn:Hdb.
    - exists h0, rows. done.
    - exists (host_set_dbs (<[dbFile := []]> (h_dbs h)) h0), []. split; [|done].
      simpl. apply lookup_insert_eq. }
  destruct (os_Open h1 csvFile) as [bytes|]; [|done].
  destruct (csv_ReadAll h1 bytes) as [records|]; [|done].
  destruct (h_sql_fails h1 (SqlPrepareInsert dbFile)); [done|].
  intros Hret.
  destruct (insert_records_any dbFile 0 records h1 rows Hdb1) as (k & _ & Hafter & _).
  rewrite Hret in Hafter. simpl in Hafter. subst h'. simpl.
  apply elem_of_dom. rewrite lookup_insert_eq. by eexists.
Qed.

Lemma call_bind_evolves {A B} (m : call A) (f : A → call B) h :
  evolves h (host_after (m h)) →
  (∀ a h1, m h = Returns a h1 → evolves h1 (host_after (f a h1))) →
  evolves h (host_after (call_bind m f h)).
Proof.
  intros Hm Hf. unfold call_bind. destruct (m h) as [a h1|x h1] eqn:Hmh; simpl in *.
  - eapply evolves_trans; [exact Hm|]. by apply Hf.
  - done.
Qed.

Lemma choose_workDir_evolves root h : evolves h (host_after (choose_workDir root h)).
Proof.
  unfold choose_workDir. case_decide; [|apply evolves_refl].
  destruct (h_cache_dir h) as [cdir|]; [|apply evolves_refl].
  apply call_bind_evolves; [apply mkdir_or_exists_evolves|].
  intros _ h1 _. apply evolves_refl.
Qed.

Lemma choose_workDir_returns root h wd h1 :
  choose_workDir root h = Returns wd h1 →
  work_dir_of root h = Some wd ∧
  (root = "" → (wd ∉ h_mkdir_denied h1) ∧ path_exists h1 wd).
Proof.
  unfold choose_workDir, work_dir_of. case_decide as Hroot.
  - destruct (h_cache_dir h) as [cdir|]; [|done]. unfold call_bind.
    destruct (mkdir_or_exists _ h) as [[] h2|] eqn:Hmk; [|done].
    unfold call_ret. intros ?. simplify_eq. split; [done|]. intros _.
    by eapply mkdir_or_exists_returns.
  - unfold call_ret. intros ?. by simplify_eq.
Qed.

Lemma fetch_index_cases wd h :
  (fileExists (h_world h) (csvFile wd) = (true, None) ∧
   fetch_index wd h = Returns () h) ∨
  (fileExists (h_world h) (csvFile wd) = (false, None) ∧
   ∃ w' err, downloadFile (h_world h) (csvFile wd) (assetUrl "BBCSoundEffects.csv")
             = (w', err) ∧
             fetch_index wd h
             = match err with
               | Some _ => Dies Fatal (host_set_world w' h)
               | None => Returns () (host_set_world w' h)
               end) ∨
  (fileExists (h_world h) (csvFile wd) = (false, Some (EStat (csvFile wd))) ∧
   fetch_index wd h = Dies Fatal h).
Proof.
  unfold fetch_index.
  destruct (fileExists_cases (h_world h) (csvFile wd))
    as [(Hex & _)|[(Hex & _)|(Hex & _)]]; rewrite Hex; simpl; auto.
  right. left. split; [done|].
  destruct (downloadFile _ _ _) as [w' err]. by exists w', err.
Qed.

Lemma evolves_set_world h w' path url err :
  fileExists (h_world h) path = (false, None) →
  downloadFile (h_world h) path url = (w', err) →
  evolves h (host_set_world w' h).
Proof.
  intros [_ Hnone]%fileExists_miss Hdl.
  pose proof (downloadFile_frame _ _ _ _ _ Hdl) as (? & ? & ? & Hfr).
  pose proof (downloadFile_catalog _ _ _ _ _ Hdl).
  constructor; simpl; try done.
  - intros p b Hp. rewrite Hfr; [done|]. congruence.
  - intros p rows ?. by exists rows.
Qed.

Lemma fetch_index_evolves wd h : evolves h (host_after (fetch_index wd h)).
Proof.
  destruct (fetch_index_cases wd h)
    as [(_ & ->)|[(Hex & w' & err & Hdl & ->)|(_ & ->)]]; try apply evolves_refl.
  destruct err; simpl; by eapply evolves_set_world.
Qed.

Lemma downloadFile_ok_file w path url w' :
  downloadFile w path url = (w', None) → is_Some (files w' !! path).
Proof.
  unfold downloadFile. intros H. repeat case_match; simplify_eq.
  simpl. rewrite lookup_insert_eq. by eexists.
Qed.

Lemma fetch_index_returns wd h h' :
  fetch_index wd h = Returns () h' →
  fileExists (h_world h') (csvFile wd) = (true, None).
Proof.
  destruct (fetch_index_cases wd h)
    as [(Hex & ->)|[(Hex & w' & [e|] & Hdl & ->)|(_ & ->)]]; try done.
  - intros ?. by simplify_eq.
  - intros ?. simplify_eq. simpl.
    apply fileExists_miss in Hex as [Hnd _].
    pose proof (downloadFile_frame _ _ _ _ _ Hdl) as (Hsd & _).
    apply downloadFile_ok_file in Hdl as [b Hb].
    unfold fileExists, os_Stat. rewrite Hsd, bool_decide_eq_false_2 by done.
    by rewrite Hb.
Qed.

Lemma build_index_evolves wd h : evolves h (host_after (build_index wd h)).
Proof.
  unfold build_index. destruct (host_Stat h (dbFile wd)) as [e|]; [|apply evolves_refl].
  destruct (os_IsNotExist e); [|apply evolves_refl]. apply initDatabase_evolves.
Qed.

Lemma build_index_returns wd h h' :
  build_index wd h = Returns () h' →
  ∀ e, host_Stat h' (dbFile wd) = Some e → os_IsNotExist e = false.
Proof.
  unfold build_index. destruct (host_Stat h (dbFile wd)) as [e|] eqn:Hst.
  - destruct (os_IsNotExist e) eqn:Hne.
    + intros Hinit e' He'.
      pose proof (initDatabase_returns _ _ _ _ Hinit) as Hdom.
      unfold host_Stat in He'. destruct (os_Stat _ _) as [[]|]; simplify_eq; try done.
      by rewrite bool_decide_eq_true_2 in He' by (by left).
    + intros ? e' ?. by simplify_eq.
  - intros ? e' ?. simplify_eq.
Qed.

Lemma work_dir_of_evolves root h h' :
  evolves h h' → work_dir_of root h' = work_dir_of root h.
Proof. intros []. unfold work_dir_of. by rewrite ev_cache0. Qed.

Lemma prepareWorkDirectory_ready root h wd h' :
  prepareWorkDirectory root h = Returns wd h' → ready root wd h'.
Proof.
  unfold prepareWorkDirectory, call_bind, call_ret.
  destruct (choose_workDir root h) as [wd1 h1|] eqn:H1; [|done].
  destruct (mkdir_or_exists _ h1) as [[] h2|] eqn:H2; [|done].
  destruct (fetch_index wd1 h2) as [[] h3|] eqn:H3; [|done].
  destruct (build_index wd1 h3) as [[] h4|] eqn:H4; [|done].
  intros ?. simplify_eq.
  pose proof (choose_workDir_evolves root h) as E1. rewrite H1 in E1.
  pose proof (mkdir_or_exists_evolves (filepath_Join wd "sounds") h1) as E2.
  rewrite H2 in E2.
  pose proof (fetch_index_evolves wd h2) as E3. rewrite H3 in E3.
  pose proof (build_index_evolves wd h3) as E4. rewrite H4 in E4.
  simpl in *.
  apply choose_workDir_returns in H1 as [Hwd Hroot].
  apply mkdir_or_exists_returns in H2 as [Hnd Hex].
  apply fetch_index_returns in H3.
  pose proof (build_index_returns _ _ _ H4) as Hdb.
  pose proof (evolves_trans _ _ _ E2 (evolves_trans _ _ _ E3 E4)) as E24.
  pose proof (evolves_trans _ _ _ E3 E4) as E34.
  unfold ready. split_and!.
  - rewrite <- Hwd. apply work_dir_of_evolves.
    by eapply evolves_trans.
  - intros Hr. destruct (Hroot Hr) as [? ?]. split.
    + by rewrite (ev_mkdir _ _ E24).
    + by apply (path_exists_evolves _ _ _ E24).
  - by rewrite (ev_mkdir _ _ E34).
  - by apply (path_exists_evolves _ _ _ E34).
  - by apply (fileExists_evolves _ _ _ E4).
  - done.
Qed.

Lemma ready_prepareWorkDirectory root wd h :
  ready root wd h → prepareWorkDirectory root h = Returns wd h.
Proof.
  intros (Hwd & Hroot & Hnd & Hex & Hcsv & Hdb).
  unfold prepareWorkDirectory, call_bind, call_ret.
  assert (choose_workDir root h = Returns wd h) as ->.
  { unfold choose_workDir, work_dir_of in *. case_decide as Hr; [|by simplify_eq].
    destruct (h_cache_dir h) as [cdir|]; simpl in Hwd; [|done]. simplify_eq.
    destruct (Hroot eq_refl) as [Hnd0 Hex0]. unfold call_bind, call_ret.
    destruct (mkdir_or_exists_cases (filepath_Join cdir "thames") h)
      as [(? & _)|[(_ & _ & ->)|(_ & ? & _)]]; done. }
  destruct (mkdir_or_exists_cases (filepath_Join wd "sounds") h)
    as [(? & _)|[(_ & _ & ->)|(_ & ? & _)]]; [done| |done].
  destruct (fetch_index_cases wd h) as [(_ & ->)|[(? & _)|(? & _)]]; [|congruence..].
  unfold build_index. destruct (host_Stat h (dbFile wd)) as [e|] eqn:Hst; [|done].
  by rewrite (Hdb _ eq_refl).
Qed.

(** ** What each block of [prepareWorkDirectory] can touch *)

Lemma mkdir_or_exists_dirs dir h :
  ∃ d, host_after (mkdir_or_exists dir h) = host_set_dirs d h.
Proof.
  destruct (mkdir_or_exists_cases dir h) as [(_ & ->)|[(_ & _ & ->)|(_ & _ & ->)]];
    simpl; eauto.
  all: exists (h_dirs h); by destruct h.
Qed.

Lemma choose_workDir_dirs root h :
  ∃ d, host_after (choose_workDir root h) = host_set_dirs d h.
Proof.
  unfold choose_workDir. case_decide.
  - destruct (h_cache_dir h) as [cdir|]; [|exists (h_dirs h); by destruct h].
    unfold call_bind, call_ret.
    destruct (mkdir_or_exists_dirs (filepath_Join cdir "thames") h) as [d Hd].
    exists d. by destruct (mkdir_or_exists _ h).
  - exists (h_dirs h). by destruct h.
Qed.






(** A path that [os.Mkdir] was called on is a directory afterwards, unless
    something else was at that path: the "exists" error is accepted. *)
Lemma mkdir_or_exists_made dir h h' :
  mkdir_or_exists dir h = Returns () h' →
  dir ∈ h_dirs h' ∨ dir ∈ dom (files (h_world h)) ∨ dir ∈ dom (h_dbs h).
Proof.
  destruct (mkdir_or_exists_cases dir h) as [(_ & ->)|[(_ & He & ->)|(_ & _ & ->)]];
    intros ?; simplify_eq.
  - destruct He as [?|[?|?]]; auto.
  - left. simpl. set_solver.
Qed.

Lemma prepareWorkDirectory_made root h wd h' :
  prepareWorkDirectory root h = Returns wd h' →
  ∀ dir, dir = filepath_Join wd "sounds" ∨ (root = "" ∧ dir = wd) →
         dir ∈ h_dirs h' ∨ dir ∈ dom (files (h_world h)) ∨ dir ∈ dom (h_dbs h).
Proof.
  unfold prepareWorkDirectory, call_bind, call_ret.
  destruct (choose_workDir_dirs root h) as [d1 Hd1].
  destruct (choose_workDir root h) as [wd1 h1|] eqn:H1; [|done]. simpl in Hd1.
  destruct (mkdir_or_exists _ h1) as [[] h2|] eqn:H2; [|done].
  destruct (fetch_index wd1 h2) as [[] h3|] eqn:H3; [|done].
  destruct (build_index wd1 h3) as [[] h4|] eqn:H4; [|done].
  intros ?. simplify_eq.
  pose proof (mkdir_or_exists_evolves (filepath_Join wd "sounds") (host_set_dirs d1 h))
    as E2. rewrite H2 in E2.
  pose proof (fetch_index_evolves wd h2) as E3. rewrite H3 in E3.
  pose proof (build_index_evolves wd h3) as E4. rewrite H4 in E4.
  simpl in *.
  pose proof (ev_dirs _ _ E2) as D2. pose proof (ev_dirs _ _ E3) as D3.
  pose proof (ev_dirs _ _ E4) as D4. simpl in D2.
  intros dir [->|[-> ->]].
  - apply mkdir_or_exists_made in H2 as [?|[?|?]]; simpl in *; auto.
  - unfold choose_workDir in H1. rewrite decide_True in H1 by done.
    destruct (h_cache_dir h) as [cdir|]; [|done]. unfold call_bind, call_ret in H1.
    destruct (mkdir_or_exists _ h) as [[] h0|] eqn:H0; [|done]. simplify_eq.
    apply mkdir_or_exists_made in H0 as [?|[?|?]]; simpl in *; auto.
Qed.

(** ** The end of a run *)

Lemma routed_outcomes tr : routed tr = omap routed_of (outcomes tr).
Proof.
  unfold routed, outcomes. induction tr as [|e tr IH]; [done|].
  destruct e; csimpl; by rewrite ?IH.
Qed.

Lemma all_pending_done cfg w s :
  all_done (st_inq s) = true → all_pending cfg w s = [].
Proof.
  intros Hd%all_done_Forall. unfold all_pending.
  generalize (args cfg). induction Hd as [|x xs -> _ IH]; intros [|q qs]; simpl; done.
Qed.

Lemma done_taken cfg w s :
  reachable cfg w s → all_done (st_inq s) = true →
  taken (st_trace s) ≡ₚ all_items cfg w.
Proof.
  intros Hreach Hd. pose proof (reachable_conserved _ _ _ Hreach) as Hc.
  by rewrite all_pending_done, app_nil_r in Hc.
Qed.

Lemma length_all_items cfg w :
  (0 ≤ nsounds cfg)%Z →
  (length (all_items cfg w) ≤ Z.to_nat (nsounds cfg) * length (args cfg))%nat.
Proof.
  intros Hn. unfold all_items. induction (args cfg) as [|q qs IH]; csimpl; [lia|].
  rewrite length_app. pose proof (length_items_of cfg w q Hn). lia.
Qed.

Lemma seq_finished_taken cfg w s :
  concurrent_queries cfg = false → reachable cfg w s →
  all_done (st_inq s) = true → taken (st_trace s) = all_items cfg w.
Proof.
  intros Hseq Hreach Hdone.
  destruct (reachable_seq _ _ _ Hseq Hreach) as (j & k & cur & pre & Hinq & Htk & Hcur).
  pose proof (reachable_inq_length _ _ _ Hreach) as Hlen.
  rewrite Hinq in Hdone, Hlen. apply all_done_Forall in Hdone.
  apply Forall_app in Hdone as [_ Hdone]. apply Forall_app in Hdone as [Hc Hk].
  destruct k as [|k]; [|by apply Forall_cons in Hk as [? _]].
  destruct cur as [|[] [|]]; try done.
  - subst pre. rewrite Htk, app_nil_r. unfold all_items.
    rewrite !length_app, length_replicate in Hlen. simpl in Hlen.
    by rewrite firstn_all2 by lia.
  - by apply Forall_cons in Hc as [? _].
Qed.

(** ** [initDatabase] leaves the files alone *)


(** ** With [--mix]: the players and their streams *)

Lemma players_weight_alter (ps : list player_task) p pl x :
  ps !! p = Some pl →
  sum_list (player_weight <$> alter (λ pl, mkPlayer (pl_key pl) (pl_mock pl) x) p ps)
    + player_weight pl
  = sum_list (player_weight <$> ps)
    + player_weight (mkPlayer (pl_key pl) (pl_mock pl) x).
Proof.
  revert p. induction ps as [|pl' ps IH]; intros [|p] Hp; csimpl in *; simplify_eq.
  - lia.
  - specialize (IH p Hp). lia.
Qed.

Lemma buffered_insert (h : heap) ch x y :
  h !! ch = Some x →
  buffered (<[ch := y]> h) + length (buf x) = buffered h + length (buf y).
Proof.
  unfold buffered. revert ch. induction h as [|x' h IH]; intros [|ch] Hx;
    csimpl in *; simplify_eq.
  - lia.
  - specialize (IH ch Hx). lia.
Qed.

Lemma buffered_route q (r : router) h ch r' h' :
  route q r h = (ch, r', h') → buffered h' = buffered h.
Proof.
  intros H. destruct r as [r|r]; simpl in H.
  - by simplify_eq.
  - destruct (multi_route q r h) as [[ch1 r1] h1] eqn:Hroute. simplify_eq.
    apply multi_route_cases in Hroute as [(_ & _ & ->)|(_ & _ & _ & ->)]; [done|].
    unfold buffered. rewrite fmap_app, sum_list_with_app. simpl. lia.
Qed.

Lemma buffered_close_all cs h h' : close_all cs h = Some h' → buffered h' = buffered h.
Proof.
  revert h. induction cs as [|c cs IH]; intros h H.
  - unfold close_all in H. simpl in H. by simplify_eq.
  - rewrite close_all_cons in H.
    destruct (close_chan c h) as [h1|] eqn:H1; simpl in H; [|done].
    rewrite (IH _ H). apply close_chan_Some in H1 as (x & Hx & _ & ->).
    pose proof (buffered_insert h c x (mkChan (buf x) true (cap x) (sent x)) Hx).
    simpl in *. lia.
Qed.

Lemma buffered_close (r : router) h h' : close r h = Some h' → buffered h' = buffered h.
Proof.
  destruct r as [r|r]; simpl; intros H.
  - apply (buffered_close_all [c r]). unfold close_all. by simpl.
  - by eapply buffered_close_all.
Qed.

Lemma Exists_lookup {A} (P : A → Prop) (l : list A) :
  Exists P l → ∃ i x, l !! i = Some x ∧ P x.
Proof.
  intros (x & Hin & HP)%Exists_exists.
  apply list_elem_of_lookup in Hin as [i Hi]. eauto.
Qed.

Lemma launch_unrouted cfg p pl : launch cfg !! p = Some pl → pl_st pl = PlStart.
Proof.
  unfold launch. intros H. repeat case_match.
  - apply list_lookup_singleton_Some in H as [_ <-]. done.
  - apply list_lookup_singleton_Some in H as [_ <-]. done.
  - apply list_lookup_fmap_Some in H as (q & -> & _). done.
Qed.

Lemma recv_chan_end c h :
  recv_chan c h = RecvEnd → ∃ x, h !! c = Some x ∧ buf x = [] ∧ closed x = true.
Proof.
  unfold recv_chan. intros H. destruct (h !! c) as [x|]; [|done].
  destruct (buf x) eqn:Hb; [|done]. destruct (closed x) eqn:Hc; [|done].
  exists x. by rewrite Hb, Hc.
Qed.

(** A player ends only after [router.close()]. *)
Lemma reachable_player_done cfg w s ps p pl :
  reachable cfg w s → st_players s = Some ps → ps !! p = Some pl →
  pl_st pl = PlDone → st_dl s = DlDone.
Proof.
  intros Hreach. revert ps p pl. revert s Hreach.
  apply (reachable_invariant cfg w
           (λ s, ∀ ps p pl, st_players s = Some ps → ps !! p = Some pl →
                            pl_st pl = PlDone → st_dl s = DlDone)).
  - destruct (init_fields cfg w) as (_ & _ & _ & _ & -> & _). done.
  - intros s l s' Hreach IH Hstep.
    destruct (reachable_live _ _ _ Hreach) as [Hopen _ _].
    step_inv Hstep; simpl; dl_norm; intros ps' p' pl' Hps' Hp' Hst'.
    all: try (by eapply IH).
    all: try (specialize (IH _ _ _ Hps' Hp' Hst'); congruence).
    + simplify_eq. by rewrite (launch_unrouted _ _ _ Hp') in Hst'.
    + apply bind_lookup_Some in H0 as (ps0 & Hps0 & Hp0). rewrite Hps0 in Hps'.
      simpl in Hps'. simplify_eq. destruct (decide (p' = p)) as [->|Hne].
      * rewrite list_lookup_alter_eq, Hp0 in Hp'. simpl in Hp'. by simplify_eq.
      * rewrite list_lookup_alter_ne in Hp' by done. by eapply IH.
    + match goal with
      | H : recv_chan _ _ = RecvEnd |- _ =>
          apply recv_chan_end in H as (x & Hx & _ & Hc)
      end.
      destruct (st_dl s) eqn:Hdl; try done.
      all: pose proof (Forall_lookup_1 _ _ _ _ (Hopen ltac:(done)) Hx) as Hc'.
      all: simpl in Hc'; congruence.
Qed.

Lemma launch_weight cfg : sum_list (player_weight <$> launch cfg) = 2 * length (launch cfg).
Proof.
  assert (∀ ps : list player_task, (∀ p pl, ps !! p = Some pl → pl_st pl = PlStart) →
            sum_list (player_weight <$> ps) = 2 * length ps) as Hsum.
  { induction ps as [|pl ps IH]; intros Hst; csimpl; [done|].
    rewrite IH by (intros p pl' ?; by apply (Hst (S p))).
    unfold player_weight. rewrite (Hst 0 pl eq_refl). lia. }
  apply Hsum. intros p pl. apply launch_unrouted.
Qed.

Lemma attached_heap s h' d tr :
  (∀ ch x, st_heap s !! ch = Some x → closed x = true →
           ∃ x', h' !! ch = Some x' ∧ closed x' = true) →
  st_dl s = d ∨ d ≠ DlDone →
  players_attached s →
  players_attached (mkState (st_world s) h' (st_router s) (st_inq s)
                            (st_intake_closed s) d (st_players s) tr (st_halt s)).
Proof.
  unfold players_attached. intros Hmono Hd [Hdl|(ps & Hps & Hall)].
  - left. simpl. destruct Hd as [<-|?]; done.
  - destruct Hd as [<-|Hne]; [|by left].
    right. exists ps. split; [done|]. simpl.
    eapply Forall_impl; [exact Hall|]. intros pl Hpl. simpl in Hpl.
    destruct (pl_st pl); try done. destruct Hpl as (x & Hx & Hc). by eapply Hmono.
Qed.

Lemma mix_progress cfg w s :
  mix cfg = true → onlyDownload cfg = false → reachable cfg w s →
  st_halt s = None → finished s = false → players_attached s →
  ∃ l s', step cfg l s = Some s' ∧
          (st_halt s' = Some Fatal ∨
           (st_halt s' = None ∧ weight cfg w s' < weight cfg w s ∧
            players_attached s')).
Proof.
  intros Hmix Hnd Hreach Hhalt Hfin Hatt.
  destruct (reachable_mix _ _ _ Hmix Hreach) as [r [Hr Hok Hkeys Hdlr Hlaunch Hplok]].
  destruct (reachable_live _ _ _ Hreach) as [Hopen Hchan _].
  destruct (close_after_end_of_input _ _ _ Hreach) as [Hdone_closed Hclosed_done].
  pose proof (reachable_inq_length _ _ _ Hreach) as Hlen.
  pose proof (reachable_catalog _ _ _ Hreach) as Hcat.
  pose proof (reachable_caps _ _ _ Hreach) as Hcaps.
  destruct (reachable_items _ _ _ Hreach) as [_ Hprod _ _].
  unfold step. rewrite Hhalt.
  assert (∀ l s', step_running cfg l s = Some s' → st_halt s' = None →
                  weight cfg w s' < weight cfg w s → players_attached s' →
                  ∃ l s', step_running cfg l s = Some s' ∧
                    (st_halt s' = Some Fatal ∨
                     (st_halt s' = None ∧ weight cfg w s' < weight cfg w s ∧
                      players_attached s')))
    as Hgo by (intros l s' ? ? ? ?; exists l, s'; auto).
  destruct (st_players s) as [ps|] eqn:Hps.
  2: { (* launch the players *)
       apply (Hgo LLaunch _ ltac:(simpl; by rewrite Hps) ltac:(done)).
       - unfold weight. simpl. rewrite Hps. simpl. rewrite launch_weight. lia.
       - destruct Hatt as [?|(? & ? & _)]; [by left|congruence]. }
  destruct (decide (Exists (λ pl, unrouted pl = true) ps)) as [Hex|Hrouted].
  { (* a player makes its route call *)
    apply Exists_lookup in Hex as (p & [key mock st] & Hp & Hst).
    destruct st; try done.
    assert (st_dl s ≠ DlDone) as Hdl.
    { destruct Hatt as [?|(ps' & ? & Hall)]; [done|]. simplify_eq.
      by pose proof (Forall_lookup_1 _ _ _ _ Hall Hp). }
    destruct (route key (st_router s) (st_heap s)) as [[ch r'] h'] eqn:Hroute.
    pose proof (buffered_route _ _ _ _ _ _ Hroute) as Hb. unfold buffered in Hb.
    eapply (Hgo (LPlayer p)).
    - simpl. unfold player. rewrite Hps. simpl. rewrite Hp. simpl.
      simpl in Hroute. rewrite Hroute. done.
    - done.
    - unfold weight, set_player. simpl. rewrite Hps. simpl.
      pose proof (players_weight_alter ps p _ (PlRecv ch) Hp) as Hw.
      unfold player_weight in Hw at 2 4. simpl in Hw. lia.
    - by left. }
  apply not_Exists_Forall in Hrouted; [|apply _].
  specialize (Hlaunch _ eq_refl). specialize (Hplok _ eq_refl).
  destruct (decide (Exists (λ pl, ready_player (st_heap s) pl = true) ps))
    as [Hex|Hnone].
  { (* a player receives, or sees the end of its stream *)
    apply Exists_lookup in Hex as (p & [key mock st] & Hp & Hst).
    unfold ready_player in Hst. simpl in Hst.
    destruct st as [|ch|]; try done.
    destruct (st_heap s !! ch) as [x|] eqn:Hx; [|done].
    destruct (buf x) as [|snd rest] eqn:Hbuf.
    - eapply (Hgo (LPlayer p)).
      + simpl. unfold player. rewrite Hps. simpl. rewrite Hp. simpl.
        unfold recv_chan. rewrite Hx, Hbuf, Hst. done.
      + done.
      + unfold weight, set_player. simpl. rewrite Hps. simpl.
        pose proof (players_weight_alter ps p _ PlDone Hp) as Hw.
        unfold player_weight in Hw at 2 4. simpl in Hw. lia.
      + destruct Hatt as [?|(ps' & Hps' & Hall)]; [by left|].
        assert (ps' = ps) as -> by congruence.
        right. eexists. split; [unfold set_player; simpl; by rewrite Hps|].
        simpl. apply Forall_alter; [done|]. by intros ? ? ?.
    - eapply (Hgo (LPlayer p)).
      + simpl. unfold player. rewrite Hps. simpl. rewrite Hp. simpl.
        unfold recv_chan. rewrite Hx, Hbuf. done.
      + by destruct mock.
      + pose proof (buffered_insert (st_heap s) ch x
                      (mkChan rest (closed x) (cap x) (sent x)) Hx) as Hb.
        unfold buffered in Hb. rewrite Hbuf in Hb. simpl in Hb.
        unfold weight. destruct mock; simpl; rewrite Hps; simpl; lia.
      + assert (players_attached
                  (set_heap (<[ch := mkChan rest (closed x) (cap x) (sent x)]> (st_heap s)) s))
          as Hatt'.
        { apply (attached_heap s _ (st_dl s) (st_trace s)); [|by left|done].
          intros ch' y Hy Hc. destruct (decide (ch' = ch)) as [->|Hne].
          - rewrite list_lookup_insert_eq by (by eapply lookup_lt_Some).
            simplify_eq. by eexists.
          - rewrite list_lookup_insert_ne by done. by exists y. }
        by destruct mock. }
  apply not_Exists_Forall in Hnone; [|apply _].
  assert (∀ p pl, ps !! p = Some pl →
            pl_st pl = PlDone ∨
            ∃ ch x, pl_st pl = PlRecv ch ∧ routes r !! pl_key pl = Some ch ∧
                    st_heap s !! ch = Some x ∧ buf x = [] ∧ closed x = false)
    as Hwait.
  { intros p pl Hp.
    pose proof (Forall_lookup_1 _ _ _ _ Hrouted Hp) as H1.
    pose proof (Forall_lookup_1 _ _ _ _ Hnone Hp) as H2.
    pose proof (Forall_lookup_1 _ _ _ _ Hplok Hp) as H3.
    simpl in H1, H2. unfold unrouted in H1. unfold ready_player in H2.
    unfold player_ok in H3.
    destruct (pl_st pl) as [|ch|]; [done| |by left]. right.
    destruct Hok as (_ & Hlook & _). destruct (Hlook _ _ H3) as [Hlt _].
    destruct (lookup_lt_is_Some_2 _ _ Hlt) as [x Hx]. rewrite Hx in H2.
    exists ch, x. destruct (buf x); [|done]. by destruct (closed x). }
  destruct (st_dl s) as [|item|item|item ch|] eqn:Hdl.
  - destruct (st_intake_closed s) eqn:Hic.
    + (* end of input: router.close() *)
      destruct (router_close_open (st_router s) (st_heap s)) as [h' Hclose].
      { by eapply reachable_router_ok. }
      { by apply Hopen. }
      pose proof (buffered_close _ _ _ Hclose) as Hb. unfold buffered in Hb.
      pose proof (router_close_closed _ _ _ _ Hreach Hclose) as Hcl.
      assert (length h' = length (st_heap s)) as Hlh.
      { rewrite Hr in Hclose. simpl in Hclose. unfold multi_close in Hclose.
        by destruct (close_all_length _ _ _ Hclose). }
      eapply (Hgo LDownloader).
      { simpl. unfold downloader. rewrite ?Hdl, ?Hic, Hclose. done. }
      { done. }
      { unfold weight. simpl. rewrite ?Hps, ?Hdl, ?Hic. simpl. lia. }
      right. exists ps. split; [done|]. simpl. apply Forall_lookup.
      intros p pl Hp. destruct (Hwait _ _ Hp) as [->|(c & x & -> & _ & Hx & _)]; [done|].
      destruct (lookup_lt_is_Some_2 h' c) as [x' Hx'].
      { rewrite Hlh. by eapply lookup_lt_Some. }
      exists x'. split; [done|]. by eapply (Forall_lookup_1 _ _ _ _ Hcl).
    + destruct (all_done (st_inq s)) eqn:Hall.
      * (* close(downloadCh) *)
        eapply (Hgo LCloseIntake).
        { simpl. rewrite Hall, ?Hic. done. }
        { done. }
        { unfold weight. simpl. rewrite ?Hps, ?Hdl, ?Hic. simpl. lia. }
        left. simpl. by rewrite ?Hdl.
      * destruct (first_not_done _ Hall) as (i & xq & Hi & Hxq & Htake).
        destruct (lookup_lt_is_Some_2 (args cfg) i) as [q Hq].
        { rewrite <- Hlen. by eapply lookup_lt_Some. }
        pose proof (λ y, weight_insert (inq_weight cfg w) _ _ _ _ _ y Hq Hi) as Hw.
        destruct xq as [|[|snd rest]|]; [| | |done].
        -- (* stmt.Query *)
           destruct (query_items cfg (st_world s) q) as [items|] eqn:Hitems.
           ++ eapply (Hgo (LInquirer i)).
              { simpl. unfold queryDatabase, may_start.
                rewrite Hi, Hq, Htake, orb_true_r, Hitems. done. }
              { done. }
              { unfold weight. simpl. rewrite ?Hps, ?Hdl, ?Hic. simpl.
                specialize (Hw (InqRunning items)). simpl in Hw.
                unfold items_of in Hw.
                rewrite <- (query_items_catalog cfg w (st_world s) q Hcat),
                  Hitems in Hw. simpl in Hw. lia. }
              left. simpl. by rewrite ?Hdl.
           ++ exists (LInquirer i). eexists. split.
              { simpl. unfold queryDatabase, may_start.
                rewrite Hi, Hq, Htake, orb_true_r, Hitems. done. }
              by left.
        -- (* queryDatabase returns, or the cursor has failed *)
           destruct (rows_fatal cfg (st_world s) q) eqn:Hfatal.
           ++ exists (LInquirer i). eexists. split.
              { simpl. unfold queryDatabase. rewrite Hi, Hq, Hfatal. done. }
              by left.
           ++ eapply (Hgo (LInquirer i)).
              { simpl. unfold queryDatabase. rewrite Hi, Hq, Hfatal. done. }
              { done. }
              { unfold weight. simpl. rewrite ?Hps, ?Hdl, ?Hic. simpl.
                specialize (Hw InqDone). simpl in Hw. lia. }
              left. simpl. by rewrite ?Hdl.
        -- (* the send on downloadCh *)
           eapply (Hgo (LInquirer i)).
           { simpl. unfold queryDatabase. rewrite Hi, ?Hdl.
             destruct (args cfg !! i); done. }
           { done. }
           { unfold weight. simpl. rewrite ?Hps, ?Hdl, ?Hic. simpl.
             specialize (Hw (InqRunning rest)). simpl in Hw. lia. }
           by left.
  - (* the cache check and the fetch *)
    destruct (retrieve cfg (st_world s) item) as [[w' evs] [e|]] eqn:Hret.
    + eapply (Hgo LDownloader).
      { simpl. unfold downloader. rewrite ?Hdl, Hret. done. }
      { done. }
      { unfold weight. simpl. rewrite ?Hps, ?Hdl. simpl. lia. }
      by left.
    + eapply (Hgo LDownloader).
      { simpl. unfold downloader. rewrite ?Hdl, Hret. done. }
      { done. }
      { unfold weight. simpl. rewrite ?Hps, ?Hdl. simpl. lia. }
      by left.
  - (* router.route *)
    destruct (route (query item) (st_router s) (st_heap s)) as [[ch r'] h'] eqn:Hroute.
    pose proof (buffered_route _ _ _ _ _ _ Hroute) as Hb. unfold buffered in Hb.
    eapply (Hgo LDownloader).
    { simpl. unfold downloader. rewrite ?Hdl, Hroute. done. }
    { done. }
    { unfold weight. simpl. rewrite ?Hps, ?Hdl. simpl. lia. }
    by left.
  - (* the send on the stream: its player has drained it *)
    simpl in Hprod. apply Forall_inv in Hprod.
    apply produced_fields in Hprod as [Hin _].
    rewrite <- (launch_keys_mix cfg Hmix Hnd), <- Hlaunch in Hin.
    apply list_elem_of_fmap in Hin as (pl & Hkey & Hin).
    apply list_elem_of_lookup in Hin as [p Hp].
    destruct (Hwait _ _ Hp) as [Hd|(c & x & Hst & Hrt & Hx & Hbuf & Hclosed)].
    { pose proof (reachable_player_done _ _ _ _ _ _ Hreach Hps Hp Hd). congruence. }
    rewrite <- Hkey, (Hdlr _ _ eq_refl) in Hrt. simplify_eq.
    pose proof (Forall_lookup_1 _ _ _ _ Hcaps Hx) as [Hcap _].
    pose proof (buffered_insert (st_heap s) c x
                  (mkChan (buf x ++ [item]) false (cap x) (sent x ++ [item])) Hx) as Hb.
    unfold buffered in Hb. rewrite Hbuf, Hcap in Hb. simpl in Hb.
    eapply (Hgo LDownloader).
    { simpl. unfold downloader. rewrite ?Hdl. unfold send_chan.
      rewrite Hx, Hclosed, Hbuf, Hcap. simpl. done. }
    { done. }
    { unfold weight. simpl. rewrite ?Hps, ?Hdl. simpl. rewrite ?Hbuf.
      simpl. lia. }
    by left.
  - (* everything has ended *)
    exfalso. unfold finished in Hfin.
    rewrite ?Hps, ?Hdl, (Hdone_closed eq_refl),
      (Hclosed_done (Hdone_closed eq_refl)) in Hfin. simpl in Hfin.
    apply not_true_iff_false in Hfin. apply Hfin.
    apply Is_true_eq_true, forallb_True, Forall_lookup. intros p pl Hp.
    destruct (Hwait _ _ Hp) as [->|(c & x & Hst & _ & Hx & _ & Hclosed)]; [done|].
    destruct Hatt as [?|(ps' & Hps' & Hall)]; [done|].
    assert (ps' = ps) as -> by congruence.
    pose proof (Forall_lookup_1 _ _ _ _ Hall Hp) as Hpl. simpl in Hpl.
    rewrite Hst in Hpl. destruct Hpl as (x' & Hx' & Hc'). congruence.
Qed.

(** ** The preview ends *)

Lemma held_insert prs i (x y : option sound) :
  prs !! i = Some x →
  held (<[i := y]> prs) + match x with Some _ => 1 | None => 0 end
  = held prs + match y with Some _ => 1 | None => 0 end.
Proof.
  unfold held. revert i. induction prs as [|x' prs IH]; intros [|i] Hx;
    csimpl in *; simplify_eq.
  - lia.
  - specialize (IH i Hx). lia.
Qed.

Lemma held_app prs1 prs2 : held (prs1 ++ prs2) = held prs1 + held prs2.
Proof. unfold held. by rewrite fmap_app, sum_list_with_app. Qed.

(** Every step of the preview is one of the steps counted. *)
Lemma pv_step_weight cfg w p l p' :
  pv_inv cfg w p → pv_step cfg l p = Some p' →
  pv_weight cfg w p' + 1 = pv_weight cfg w p.
Proof.
  intros [Hw _ _ _ _ _ _] Hstep. unfold pv_step in Hstep.
  destruct (pv_exit p) eqn:Hexit; [done|].
  unfold pv_weight, pv_started. rewrite Hexit.
  destruct l as [|i]; simpl in Hstep; [unfold preview_main in Hstep|].
  - destruct (pv_rest p) as [[|snd rest]|] eqn:Hrest.
    + destruct (args cfg !! pv_pos p) as [q0|] eqn:Hq0; [|done].
      destruct (rows_fatal cfg (pv_world p) q0); simplify_eq; simpl;
        rewrite ?Hrest, ?Nat.add_0_r, ?Nat.add_1_r; simpl; lia.
    + destruct (pv_printers p !! pv_pos p) as [[|]|] eqn:Hp; simplify_eq. simpl.
      pose proof (held_insert _ _ _ (Some snd) Hp) as Hh. simpl in Hh. lia.
    + destruct (args cfg !! pv_pos p) as [q|] eqn:Hq.
      * assert (query_steps cfg w q = 2 * length (default [] (query_items cfg (pv_world p) q)) + 2)
          as Hsteps by (by rewrite Hw).
        destruct (query_items cfg (pv_world p) q) as [items|]; simplify_eq; simpl.
        -- rewrite held_app. unfold held at 2. simpl in *.
           rewrite ?Nat.add_0_r, ?Nat.add_1_r, (drop_S _ _ _ Hq). csimpl. lia.
        -- rewrite ?Nat.add_0_r, (drop_S _ _ _ Hq). csimpl. lia.
      * simplify_eq. simpl. lia.
  - unfold printer in Hstep.
    destruct (pv_printers p !! i) as [[snd|]|] eqn:Hp; simplify_eq. simpl.
    pose proof (held_insert _ _ _ None Hp) as Hh. simpl in Hh. lia.
Qed.

(** Until the exit some goroutine can move: [main], or the printer that
    [main] is waiting for. *)
Lemma pv_progress cfg w p :
  pv_inv cfg w p → pv_exit p = None → ∃ l p', pv_step cfg l p = Some p'.
Proof.
  intros [_ _ Hpr Hpos _ _ _] Hexit. unfold pv_step. rewrite Hexit.
  unfold pv_started in Hpr, Hpos.
  destruct (pv_rest p) as [[|snd rest]|] eqn:Hrest.
  - destruct (lookup_lt_is_Some_2 (args cfg) (pv_pos p)) as [q Hq]; [lia|].
    exists PvMain. simpl. unfold preview_main. rewrite Hrest, Hq.
    destruct (rows_fatal cfg (pv_world p) q); eauto.
  - destruct (lookup_lt_is_Some_2 (pv_printers p) (pv_pos p)) as [[held_snd|] Hp];
      [lia| |].
    + exists (PvPrinter (pv_pos p)). simpl. unfold printer. rewrite Hp. eauto.
    + exists PvMain. simpl. unfold preview_main. rewrite Hrest, Hp. eauto.
  - exists PvMain. simpl. unfold preview_main. rewrite Hrest.
    destruct (args cfg !! pv_pos p); [|eauto].
    destruct (query_items cfg (pv_world p) s); eauto.
Qed.

(** * Further properties of the code *)

(** X1.  The pipeline never overwrites or removes a file: a file that is
    there in some state, with some contents, is there with the same
    contents after any further steps. *)
Theorem cache_never_overwritten cfg ls s s' p b :
  run cfg ls s = Some s' → files (st_world s) !! p = Some b →
  files (st_world s') !! p = Some b.
Proof.
  revert s. induction ls as [|l ls IH]; intros s Hrun Hp; simpl in Hrun.
  - by simplify_eq.
  - destruct (step cfg l s) as [s1|] eqn:Hstep; simpl in Hrun; [|done].
    apply (IH s1); [done|].
    apply step_world_frame in Hstep as (_ & _ & _ & Hfr).
    destruct (Hfr p) as [->|(Hnone & _)]; [done|congruence].
Qed.

Lemma cache_never_overwritten_witness :
  run cfg_cafe [LInquirer 0; LInquirer 0; LDownloader] (init cfg_cafe w_cached)
  = Some (state_after cfg_cafe w_cached [LInquirer 0; LInquirer 0; LDownloader]) ∧
  files (st_world (init cfg_cafe w_cached)) !! "sounds/a.wav" = Some payload ∧
  files (st_world (state_after cfg_cafe w_cached [LInquirer 0; LInquirer 0; LDownloader]))
    !! "sounds/a.wav" = Some payload.
Proof.
  assert (run cfg_cafe [LInquirer 0; LInquirer 0; LDownloader] (init cfg_cafe w_cached)
          = Some (state_after cfg_cafe w_cached [LInquirer 0; LInquirer 0; LDownloader]))
    as Hrun by (vm_compute; reflexivity).
  assert (files (st_world (init cfg_cafe w_cached)) !! "sounds/a.wav" = Some payload)
    as Hfile by reflexivity.
  split; [exact Hrun|]. split; [exact Hfile|].
  exact (cache_never_overwritten _ _ _ _ _ _ Hrun Hfile).
Defined.

(** X2.  All that the pipeline does to the world is to write cache files
    for items it fetched: the remote assets and the answers of [os.Stat] and
    [os.Create] are as at the start, and a file that differs from the start
    was absent then, lies at the cache path of an item for which
    [downloadFile] was called, and holds the body of that item's asset, or a
    beginning of it. *)
Theorem downloader_writes_only_fetched cfg w s :
  reachable cfg w s →
  stat_denied (st_world s) = stat_denied w ∧
  create_denied (st_world s) = create_denied w ∧
  remote (st_world s) = remote w ∧
  ∀ p, files (st_world s) !! p = files w !! p ∨
       (files w !! p = None ∧ (p ∉ stat_denied w) ∧
        ∃ snd resp b,
          snd ∈ fetches (st_trace s) ∧ p = soundPath cfg (fname snd) ∧
          remote w !! assetUrl (fname snd) = Some resp ∧ status resp = 200%Z ∧
          files (st_world s) !! p = Some b ∧ b `prefix_of` body resp).
Proof.
  revert s. apply reachable_invariant.
  - destruct (init_fields cfg w) as (-> & _). auto.
  - intros s l s' _ (Hsd & Hcd & Hrem & Hfiles) Hstep.
    pose proof (step_world_frame _ _ _ _ Hstep) as (Hsd' & Hcd' & Hrem' & Hfr).
    split_and!; try congruence.
    intros p. destruct (Hfr p) as [Heq|(Hnone & Hnd & snd & err & Hdl & -> & Hft & Hd)].
    + rewrite Heq.
      destruct (Hfiles p) as [?|(? & ? & snd & resp & b & Hin & ? & ? & ? & ? & ?)]; auto.
      right. split_and!; try done. exists snd, resp, b. split_and!; try done.
      assert (fetches (st_trace s) `sublist_of` fetches (st_trace s')) as Hsub.
      { clear -Hstep. step_inv Hstep; simpl; try done.
        all: unfold fetches; rewrite ?omap_app; by apply sublist_inserts_r. }
      by eapply elem_of_sublist.
    + destruct (Hfiles (soundPath cfg (fname snd)))
        as [Hw|(_ & _ & ? & ? & ? & _ & _ & _ & _ & Hsome & _)]; [|congruence].
      destruct (files (st_world s') !! soundPath cfg (fname snd)) as [b|] eqn:Hb;
        [|left; congruence].
      right. split_and!; try congruence.
      apply downloadFile_written in Hd as [Hd|(resp & b' & Hresp & Hst & Hb' & Hpre)].
      * congruence.
      * exists snd, resp, b. split_and!; try congruence.
        rewrite Hft. apply elem_of_app. right. by left.
Qed.

Lemma downloader_writes_only_fetched_witness :
  reachable cfg_seq2 w_empty (state_after cfg_seq2 w_empty sched_seq2) ∧
  remote (st_world (state_after cfg_seq2 w_empty sched_seq2)) = remote w_empty.
Proof.
  assert (reachable cfg_seq2 w_empty (state_after cfg_seq2 w_empty sched_seq2))
    as Hreach by by_schedule sched_seq2.
  split; [exact Hreach|].
  exact (proj1 (proj2 (proj2 (downloader_writes_only_fetched _ _ _ Hreach)))).
Defined.

(** X3.  What [downloadFile] wrote, [fileExists] finds: when the cache check
    and the fetch for an item end without error, the check for any item of
    the same file name, in the world they leave, is a cache hit that touches
    nothing. *)
Theorem retrieve_again_is_cached cfg w snd w' evs snd' :
  retrieve cfg w snd = (w', evs, None) → fname snd' = fname snd →
  retrieve cfg w' snd' = (w', [LogCached snd'], None).
Proof.
  intros Hret Hname. apply retrieve_ok_file in Hret as [[b Hb] Hnd].
  unfold retrieve, fileExists, os_Stat. rewrite Hname.
  rewrite bool_decide_eq_false_2 by done. by rewrite Hb.
Qed.

Lemma retrieve_again_is_cached_witness :
  retrieve cfg_cafe w_empty (snd_a "cafe")
  = (w_fetched, [LogFetch (snd_a "cafe")], None) ∧
  fname (snd_a "coffee") = fname (snd_a "cafe") ∧
  retrieve cfg_cafe w_fetched (snd_a "coffee")
  = (w_fetched, [LogCached (snd_a "coffee")], None).
Proof.
  assert (retrieve cfg_cafe w_empty (snd_a "cafe")
          = (w_fetched, [LogFetch (snd_a "cafe")], None)) as Hret
    by (vm_compute; reflexivity).
  split; [exact Hret|]. split; [reflexivity|].
  exact (retrieve_again_is_cached _ _ _ _ _ (snd_a "coffee") Hret eq_refl).
Defined.

(** X4.  A sound is played only after the downloader sent it on a stream,
    and its file is then in the cache: for every "Playing" line of the log
    the item was routed before, its path is its cache path, and a file is
    there. *)
Theorem played_sound_has_file cfg w s snd :
  reachable cfg w s → LogPlaying snd ∈ st_trace s →
  (∃ ch, EvRouted ch snd ∈ st_trace s) ∧
  fpath snd = soundPath cfg (fname snd) ∧
  is_Some (files (st_world s) !! fpath snd).
Proof.
  intros Hreach Hin. destruct (reachable_cached _ _ _ Hreach) as [_ Hrt Hpl _].
  destruct (Hpl _ Hin) as [ch Hch]. split; [by exists ch|].
  destruct (reachable_items _ _ _ Hreach) as [_ _ _ Htr].
  pose proof (proj1 (Forall_forall _ _) Htr _ Hin snd eq_refl) as Hp.
  apply produced_fields in Hp as [_ Hpath]. split; [done|].
  rewrite Hpath. by apply (Hrt ch).
Qed.

Lemma played_sound_has_file_witness :
  reachable cfg_mix2 w_cached (state_after cfg_mix2 w_cached sched_mix2) ∧
  LogPlaying (snd_a "cafe") ∈ st_trace (state_after cfg_mix2 w_cached sched_mix2) ∧
  is_Some (files (st_world (state_after cfg_mix2 w_cached sched_mix2))
             !! fpath (snd_a "cafe")).
Proof.
  assert (reachable cfg_mix2 w_cached (state_after cfg_mix2 w_cached sched_mix2))
    as Hreach by by_schedule sched_mix2.
  assert (LogPlaying (snd_a "cafe")
            ∈ st_trace (state_after cfg_mix2 w_cached sched_mix2)) as Hin.
  { apply (list_elem_of_lookup_2 _ 4). vm_compute. reflexivity. }
  split; [exact Hreach|]. split; [exact Hin|].
  exact (proj2 (proj2 (played_sound_has_file _ _ _ _ Hreach Hin))).
Defined.

(** X5.  The pipeline is never stopped by a run-time panic, in no
    interleaving (no send on a closed channel, no second close); when it is
    stopped it is by the [log.Fatal] of a [queryDatabase] call: for some term
    of the command line [stmt.Query] fails, or the rows of its query cannot
    be read to their end ([rows.Scan] or [rows.Err] fails). *)
Theorem pipeline_dies_only_on_failed_query cfg w s x :
  reachable cfg w s → st_halt s = Some x →
  x = Fatal ∧
  ∃ i q, args cfg !! i = Some q ∧
         (stmt_Query w q (nsounds cfg) = None ∨ rows_fatal cfg w q = true).
Proof.
  intros Hreach Hhalt. destruct (reachable_live _ _ _ Hreach) as [_ _ Hnp].
  destruct x; [|congruence]. split; [done|]. by eapply reachable_fatal.
Qed.

Lemma pipeline_dies_only_on_failed_query_witness :
  reachable cfg_description w_header
    (state_after cfg_description w_header [LInquirer 0; LInquirer 0]) ∧
  st_halt (state_after cfg_description w_header [LInquirer 0; LInquirer 0])
  = Some Fatal ∧
  ∃ i q, args cfg_description !! i = Some q ∧
         (stmt_Query w_header q (nsounds cfg_description) = None ∨
          rows_fatal cfg_description w_header q = true).
Proof.
  assert (reachable cfg_description w_header
            (state_after cfg_description w_header [LInquirer 0; LInquirer 0]))
    as Hreach by by_schedule [LInquirer 0; LInquirer 0].
  assert (st_halt (state_after cfg_description w_header [LInquirer 0; LInquirer 0])
          = Some Fatal)
    as Hhalt by reflexivity.
  split; [exact Hreach|]. split; [exact Hhalt|].
  exact (proj2 (pipeline_dies_only_on_failed_query _ _ _ _ Hreach Hhalt)).
Defined.

(** X6.  The players that [main] launches are mock players exactly when
    [-d] is given.  With [-d] the players log "Playing" for the items they
    receive and play(1) is never run; without [-d] play(1) is run for every
    item logged as playing, in that order. *)
Theorem mock_player_never_plays cfg w s :
  reachable cfg w s →
  (∀ ps, st_players s = Some ps → Forall (λ pl, pl_mock pl = onlyDownload cfg) ps) ∧
  play_runs (st_trace s) = if onlyDownload cfg then [] else played (st_trace s).
Proof.
  revert s. apply reachable_invariant.
  - destruct (init_fields cfg w) as (_ & _ & _ & _ & -> & -> & _).
    split; [done|]. by destruct (onlyDownload cfg).
  - intros s l s' _ Hinv Hstep.
    step_inv Hstep; destruct Hinv as [Hps Hpl]; simpl.
    all: unfold play_runs, played in *; rewrite ?omap_app; csimpl.
    all: rewrite ?app_nil_r.
    all: try match goal with
         | H : retrieve _ _ _ = _ |- _ =>
             apply retrieve_cases in H as [(-> & _)|[(-> & _)|(-> & _)]]; csimpl;
             rewrite ?app_nil_r
         end.
    all: try done.
    all: try match goal with
         | H : _ ≫= _ = Some _ |- _ =>
             apply bind_lookup_Some in H as (ps0 & Hps0 & Hp0);
             pose proof (Forall_lookup_1 _ _ _ _ (Hps _ Hps0) Hp0) as Hmock;
             simpl in Hmock
         end.
    all: try congruence.
    all: split; try congruence.
    all: try (intros ps ?; simplify_eq; unfold launch;
              repeat case_match; try congruence;
              repeat constructor; try done;
              apply Forall_fmap, Forall_true; by intros ?).
    all: try (rewrite Hps0; simpl; intros ps ?; simplify_eq;
              apply Forall_alter; [by apply Hps|]; by intros ? ? ?).
    all: done.
Qed.

Lemma mock_player_never_plays_witness :
  reachable cfg_download w_cached (state_after cfg_download w_cached sched_whole) ∧
  played (st_trace (state_after cfg_download w_cached sched_whole)) = [snd_a "cafe"] ∧
  play_runs (st_trace (state_after cfg_download w_cached sched_whole)) = [].
Proof.
  assert (reachable cfg_download w_cached (state_after cfg_download w_cached sched_whole))
    as Hreach by by_schedule sched_whole.
  split; [exact Hreach|]. split; [reflexivity|].
  exact (proj2 (mock_player_never_plays _ _ _ Hreach)).
Defined.

(** X7.  [router.close()] is run at most once in a run, and exactly once by
    the time the downloader has returned. *)
Theorem router_closed_once cfg w s :
  reachable cfg w s →
  closes (st_trace s) = match st_dl s with DlDone => 1 | _ => 0 end.
Proof.
  revert s. apply reachable_invariant.
  - by destruct (init_fields cfg w) as (_ & _ & _ & -> & _ & -> & _).
  - intros s l s' _ IH Hstep.
    step_inv Hstep; simpl; dl_norm; try done.
    all: unfold closes in *; rewrite ?omap_app, ?length_app; csimpl.
    all: try match goal with
         | H : retrieve _ _ _ = _ |- _ =>
             apply retrieve_cases in H as [(-> & _)|[(-> & _)|(-> & _)]]; csimpl
         end.
    all: simpl in *; first [congruence | lia].
Qed.

Lemma router_closed_once_witness :
  reachable cfg_wind w_empty (state_after cfg_wind w_empty sched_early) ∧
  closes (st_trace (state_after cfg_wind w_empty sched_early)) = 1.
Proof.
  assert (reachable cfg_wind w_empty (state_after cfg_wind w_empty sched_early))
    as Hreach by by_schedule sched_early.
  split; [exact Hreach|].
  exact (router_closed_once _ _ _ Hreach).
Defined.

(** X8.  Without [--mix] there is one stream, and it is a queue between the
    downloader and the one player: the items routed so far are the items
    played so far, in the same order, followed by the items waiting in the
    buffer, which are at most [PlayerChannelSize]. *)
Theorem single_stream_fifo cfg w s :
  mix cfg = false → reachable cfg w s →
  ∃ x, st_heap s = [x] ∧
       routed (st_trace s) = played (st_trace s) ++ buf x ∧
       (length (buf x) ≤ PlayerChannelSize)%nat.
Proof.
  intros Hmix Hreach.
  destruct (reachable_single _ _ _ Hmix Hreach) as [x [_ Hh _ _ _ Hfifo Hrt _ _ Hroom]].
  exists x. split_and!; [done| |done]. by rewrite Hrt.
Qed.

Lemma single_stream_fifo_witness :
  mix cfg_seq2 = false ∧
  reachable cfg_seq2 w_empty (state_after cfg_seq2 w_empty sched_seq2) ∧
  ∃ x, st_heap (state_after cfg_seq2 w_empty sched_seq2) = [x] ∧
       routed (st_trace (state_after cfg_seq2 w_empty sched_seq2))
       = played (st_trace (state_after cfg_seq2 w_empty sched_seq2)) ++ buf x.
Proof.
  assert (reachable cfg_seq2 w_empty (state_after cfg_seq2 w_empty sched_seq2))
    as Hreach by by_schedule sched_seq2.
  split; [reflexivity|]. split; [exact Hreach|].
  destruct (single_stream_fifo cfg_seq2 w_empty _ eq_refl Hreach) as (x & Hx & Hq & _).
  exists x. split; [exact Hx | exact Hq].
Defined.

(** X9.  Without [--mix] the pipeline cannot deadlock: from every state that
    a run can reach, some continuation ends with every goroutine done
    ([wg.Wait()] returns) or with [log.Fatal]. *)
Theorem no_deadlock_without_mix cfg w s :
  mix cfg = false → reachable cfg w s →
  ∃ ls s', run cfg ls s = Some s' ∧
           (finished s' = true ∨ st_halt s' = Some Fatal).
Proof.
  intros Hmix Hreach.
  assert (∀ n s, reachable cfg w s → weight cfg w s < n →
            ∃ ls s', run cfg ls s = Some s' ∧
                     (finished s' = true ∨ st_halt s' = Some Fatal)) as Hind.
  { clear s Hreach. intros n.
    induction n as [|n IH]; intros s Hreach Hn; [lia|].
    destruct (st_halt s) as [[|]|] eqn:Hhalt.
    - exists [], s. auto.
    - by destruct (reachable_live _ _ _ Hreach) as [_ _ ?].
    - destruct (finished s) eqn:Hfin; [exists [], s; auto|].
      destruct (single_progress _ _ _ Hmix Hreach Hhalt Hfin)
        as (l & s1 & Hstep & [Hfatal|[_ Hlt]]).
      + exists [l], s1. simpl. rewrite Hstep. auto.
      + destruct (IH s1) as (ls & s' & Hrun & Hend).
        * by eapply reachable_step.
        * lia.
        * exists (l :: ls), s'. simpl. rewrite Hstep. auto. }
  apply (Hind (S (weight cfg w s))); [done|lia].
Qed.

Lemma no_deadlock_without_mix_witness :
  mix cfg_seq2 = false ∧
  reachable cfg_seq2 w_empty (state_after cfg_seq2 w_empty sched_seq2) ∧
  ∃ ls s', run cfg_seq2 ls (state_after cfg_seq2 w_empty sched_seq2) = Some s' ∧
           (finished s' = true ∨ st_halt s' = Some Fatal).
Proof.
  assert (reachable cfg_seq2 w_empty (state_after cfg_seq2 w_empty sched_seq2))
    as Hreach by by_schedule sched_seq2.
  split; [reflexivity|]. split; [exact Hreach|].
  exact (no_deadlock_without_mix cfg_seq2 w_empty _ eq_refl Hreach).
Defined.

(** X10.  Nothing is lost or doubled between the queries and the
    downloader, in any mode: the items the downloader has taken, together
    with the items the calls of [queryDatabase] have still to send, are the
    items of all the queries of the command line; and once every call has
    returned the items taken are exactly those, up to order. *)
Theorem queries_reach_downloader cfg w s :
  reachable cfg w s →
  taken (st_trace s) ++ all_pending cfg w s ≡ₚ all_items cfg w ∧
  (all_done (st_inq s) = true → taken (st_trace s) ≡ₚ all_items cfg w).
Proof.
  intros Hreach. split; [by apply reachable_conserved|]. by apply done_taken.
Qed.

Lemma queries_reach_downloader_witness :
  reachable cfg_seq2 w_empty (state_after cfg_seq2 w_empty sched_seq2) ∧
  taken (st_trace (state_after cfg_seq2 w_empty sched_seq2))
    ++ all_pending cfg_seq2 w_empty (state_after cfg_seq2 w_empty sched_seq2)
  ≡ₚ all_items cfg_seq2 w_empty.
Proof.
  assert (reachable cfg_seq2 w_empty (state_after cfg_seq2 w_empty sched_seq2))
    as Hreach by by_schedule sched_seq2.
  split; [exact Hreach|].
  exact (proj1 (queries_reach_downloader _ _ _ Hreach)).
Defined.

(** X11.  [-n N] bounds what a run handles: for [N >= 0] every query yields
    at most [N] items, and the downloader takes at most [N] items per term
    of the command line. *)
Theorem at_most_nsounds_per_term cfg w s :
  (0 ≤ nsounds cfg)%Z → reachable cfg w s →
  (∀ q, (length (items_of cfg w q) ≤ Z.to_nat (nsounds cfg))%nat) ∧
  (length (taken (st_trace s)) ≤ Z.to_nat (nsounds cfg) * length (args cfg))%nat.
Proof.
  intros Hn Hreach. split; [intros q; by apply length_items_of|].
  pose proof (reachable_conserved _ _ _ Hreach) as Hc.
  apply Permutation_length in Hc. rewrite length_app in Hc.
  pose proof (length_all_items cfg w Hn). lia.
Qed.

Lemma at_most_nsounds_per_term_witness :
  (0 ≤ nsounds cfg_seq2)%Z ∧
  reachable cfg_seq2 w_empty (state_after cfg_seq2 w_empty sched_seq2) ∧
  (length (taken (st_trace (state_after cfg_seq2 w_empty sched_seq2))) ≤ 60)%nat.
Proof.
  assert (0 ≤ nsounds cfg_seq2)%Z as Hn by (vm_compute; discriminate).
  assert (reachable cfg_seq2 w_empty (state_after cfg_seq2 w_empty sched_seq2))
    as Hreach by by_schedule sched_seq2.
  split; [exact Hn|]. split; [exact Hreach|].
  exact (proj2 (at_most_nsounds_per_term _ _ _ Hn Hreach)).
Defined.

(** X12.  When the terms of the command line are distinct, the items of one
    term reach the downloader in the order of the rows of its query, also
    with [--shuffle] and [--mix], where the queries run together: the items
    taken that belong to term [q] are a beginning of the items of its query,
    and all of them once its call has returned. *)
Theorem term_order_preserved cfg w s i q :
  NoDup (args cfg) → reachable cfg w s → args cfg !! i = Some q →
  of_query q (taken (st_trace s)) `prefix_of` items_of cfg w q ∧
  (st_inq s !! i = Some InqDone →
   of_query q (taken (st_trace s)) = items_of cfg w q).
Proof.
  intros Hnd Hreach Hq. pose proof (reachable_order _ _ _ Hnd Hreach) as Hord.
  destruct (lookup_lt_is_Some_2 (st_inq s) i) as [x Hx].
  { rewrite (reachable_inq_length _ _ _ Hreach). by eapply lookup_lt_Some. }
  specialize (Hord _ _ _ Hq Hx). split.
  - rewrite <- Hord. by apply prefix_app_r.
  - intros Hd. rewrite Hd in Hx. simplify_eq. simpl in Hord.
    by rewrite app_nil_r in Hord.
Qed.

Lemma term_order_preserved_witness :
  NoDup (args cfg_mix2) ∧
  reachable cfg_mix2 w_cached (state_after cfg_mix2 w_cached sched_mix2) ∧
  args cfg_mix2 !! 0 = Some "cafe" ∧
  of_query "cafe" (taken (st_trace (state_after cfg_mix2 w_cached sched_mix2)))
    `prefix_of` items_of cfg_mix2 w_cached "cafe".
Proof.
  assert (NoDup (args cfg_mix2)) as Hnd.
  { apply (bool_decide_unpack _). vm_compute. exact I. }
  assert (reachable cfg_mix2 w_cached (state_after cfg_mix2 w_cached sched_mix2))
    as Hreach by by_schedule sched_mix2.
  split; [exact Hnd|]. split; [exact Hreach|]. split; [reflexivity|].
  exact (proj1 (term_order_preserved _ _ _ 0 "cafe" Hnd Hreach eq_refl)).
Defined.

(** X13.  Once the downloader has run [router.close()], every stream that
    ever carried an item is closed, for good: in every state after the
    close, a stream that is open did not exist at the close (it was made by a
    [route] call after it), it is empty, and nothing was ever sent on it.
    Here [s0] is the state in which the downloader runs [router.close()] and
    [s1] the state after it. *)
Theorem streams_settled_after_close cfg w s0 s1 ls s ch x :
  reachable cfg w s0 → st_dl s0 ≠ DlDone →
  step cfg LDownloader s0 = Some s1 → st_dl s1 = DlDone →
  run cfg ls s1 = Some s → st_heap s !! ch = Some x →
  closed x = true ∨
  ((length (st_heap s1) ≤ ch)%nat ∧
   sent x = [] ∧ buf x = [] ∧ routed_on ch (st_trace s) = []).
Proof.
  intros Hreach0 Hne Hstep Hdone1 Hrun Hx.
  pose proof (close_step_closes _ _ _ _ _ Hreach0 Hne Hstep Hdone1) as Hall.
  assert (reachable cfg w s) as Hreach.
  { eapply reachable_run; [|done]. by eapply reachable_step. }
  destruct (run_after_close _ _ _ _ Hdone1 Hrun) as [Hdone Hkeep].
  pose proof (Forall_lookup_1 _ _ _ _ (reachable_settled _ _ _ Hreach Hdone) Hx)
    as [Hc|Hs]; [by left|].
  destruct (closed x) eqn:Hopen; [by left|right].
  destruct (reachable_items _ _ _ Hreach) as [_ _ Hwf _].
  destruct (reachable_acct _ _ _ Hreach) as [_ _ Hsent].
  destruct (Hwf _ _ Hx) as [_ Hsuf]. rewrite Hs in Hsuf.
  apply suffix_nil_inv in Hsuf. split_and!; [|done..|].
  - destruct (decide (length (st_heap s1) ≤ ch)%nat) as [|Hlt]; [done|].
    destruct (lookup_lt_is_Some_2 (st_heap s1) ch) as [x1 Hx1]; [lia|].
    pose proof (Forall_lookup_1 _ _ _ _ Hall Hx1) as Hc1. simpl in Hc1.
    destruct (Hkeep _ _ Hx1 Hc1) as (x' & Hx' & Hc'). congruence.
  - rewrite <- Hsent. unfold sent_of. by rewrite Hx.
Qed.

Lemma streams_settled_after_close_witness :
  reachable cfg_wind w_empty
    (state_after cfg_wind w_empty [LInquirer 0; LInquirer 0; LCloseIntake]) ∧
  st_dl (state_after cfg_wind w_empty [LInquirer 0; LInquirer 0; LCloseIntake])
  ≠ DlDone ∧
  step cfg_wind LDownloader
    (state_after cfg_wind w_empty [LInquirer 0; LInquirer 0; LCloseIntake])
  = Some (state_after cfg_wind w_empty
            [LInquirer 0; LInquirer 0; LCloseIntake; LDownloader]) ∧
  run cfg_wind [LLaunch; LPlayer 0]
    (state_after cfg_wind w_empty [LInquirer 0; LInquirer 0; LCloseIntake; LDownloader])
  = Some (state_after cfg_wind w_empty sched_late) ∧
  st_heap (state_after cfg_wind w_empty sched_late) !! 0
  = Some (mkChan [] false PlayerChannelSize []) ∧
  (closed (mkChan [] false PlayerChannelSize []) = true ∨
   ((length (st_heap (state_after cfg_wind w_empty
                        [LInquirer 0; LInquirer 0; LCloseIntake; LDownloader])) ≤ 0)%nat ∧
    sent (mkChan [] false PlayerChannelSize []) = [] ∧
    buf (mkChan [] false PlayerChannelSize []) = [] ∧
    routed_on 0 (st_trace (state_after cfg_wind w_empty sched_late)) = [])).
Proof.
  assert (reachable cfg_wind w_empty
            (state_after cfg_wind w_empty [LInquirer 0; LInquirer 0; LCloseIntake]))
    as Hreach by by_schedule [LInquirer 0; LInquirer 0; LCloseIntake].
  assert (st_dl (state_after cfg_wind w_empty [LInquirer 0; LInquirer 0; LCloseIntake])
          ≠ DlDone) as Hne by (vm_compute; discriminate).
  assert (step cfg_wind LDownloader
            (state_after cfg_wind w_empty [LInquirer 0; LInquirer 0; LCloseIntake])
          = Some (state_after cfg_wind w_empty
                    [LInquirer 0; LInquirer 0; LCloseIntake; LDownloader]))
    as Hstep by (vm_compute; reflexivity).
  assert (st_dl (state_after cfg_wind w_empty
                   [LInquirer 0; LInquirer 0; LCloseIntake; LDownloader]) = DlDone)
    as Hdone by (vm_compute; reflexivity).
  assert (run cfg_wind [LLaunch; LPlayer 0]
            (state_after cfg_wind w_empty
               [LInquirer 0; LInquirer 0; LCloseIntake; LDownloader])
          = Some (state_after cfg_wind w_empty sched_late))
    as Hrun by (vm_compute; reflexivity).
  assert (st_heap (state_after cfg_wind w_empty sched_late) !! 0
          = Some (mkChan [] false PlayerChannelSize []))
    as Hx by (vm_compute; reflexivity).
  split; [exact Hreach|]. split; [exact Hne|]. split; [exact Hstep|].
  split; [exact Hrun|]. split; [exact Hx|].
  exact (streams_settled_after_close cfg_wind w_empty _ _ _ _ 0 _
           Hreach Hne Hstep Hdone Hrun Hx).
Defined.

(** X14.  With [-d] and [--mix] together the one player listens on the
    stream of the empty key, so, unless the empty string is a term, nothing
    is ever received from the streams of the terms: nothing is logged as
    playing, every stream still holds all that was sent on it, and at most
    [PlayerChannelSize] items are ever routed to a stream. *)
Theorem download_mix_never_drained cfg w s :
  onlyDownload cfg = true → mix cfg = true → "" ∉ args cfg →
  reachable cfg w s →
  played (st_trace s) = [] ∧
  (∀ ch x, st_heap s !! ch = Some x → buf x = sent x) ∧
  (∀ ch, (length (routed_on ch (st_trace s)) ≤ PlayerChannelSize)%nat).
Proof.
  intros Hd Hmix Hno Hreach.
  destruct (reachable_download_mix _ _ _ Hd Hmix Hno Hreach) as [Hbufs Hpl].
  destruct (reachable_acct _ _ _ Hreach) as [_ _ Hsent].
  pose proof (reachable_caps _ _ _ Hreach) as Hcaps.
  split_and!; [done| |].
  - intros ch x Hx. exact (Forall_lookup_1 _ _ _ _ Hbufs Hx).
  - intros ch. rewrite <- Hsent. unfold sent_of.
    destruct (st_heap s !! ch) as [x|] eqn:Hx; simpl; [|lia].
    rewrite <- (Forall_lookup_1 _ _ _ _ Hbufs Hx).
    destruct (Forall_lookup_1 _ _ _ _ Hcaps Hx) as [Hcap Hlen]. by rewrite <- Hcap.
Qed.

Lemma download_mix_never_drained_witness :
  onlyDownload cfg_download_mix = true ∧ mix cfg_download_mix = true ∧
  ("" ∉ args cfg_download_mix) ∧
  reachable cfg_download_mix w_cached
            (state_after cfg_download_mix w_cached sched_routed) ∧
  routed (st_trace (state_after cfg_download_mix w_cached sched_routed))
  = [snd_a "cafe"] ∧
  played (st_trace (state_after cfg_download_mix w_cached sched_routed)) = [].
Proof.
  assert ("" ∉ args cfg_download_mix) as Hno.
  { apply (bool_decide_unpack _). vm_compute. exact I. }
  assert (reachable cfg_download_mix w_cached
            (state_after cfg_download_mix w_cached sched_routed))
    as Hreach by by_schedule sched_routed.
  split; [reflexivity|]. split; [reflexivity|]. split; [exact Hno|].
  split; [exact Hreach|]. split; [reflexivity|].
  exact (proj1 (download_mix_never_drained cfg_download_mix _ _
                  eq_refl eq_refl Hno Hreach)).
Defined.

(** X15.  What a finished run without [--mix] has done: every item of every
    query met its outcome, sent on or dropped; the items played are exactly
    the items sent on, in that order; and without [--shuffle] the outcomes
    follow the command line, query after query and row after row. *)
Theorem finished_run_plays_in_order cfg w s :
  mix cfg = false → reachable cfg w s → finished s = true →
  played (st_trace s) = omap routed_of (outcomes (st_trace s)) ∧
  outcome_item <$> outcomes (st_trace s) ≡ₚ all_items cfg w ∧
  (shuffle cfg = false → outcome_item <$> outcomes (st_trace s) = all_items cfg w).
Proof.
  intros Hmix Hreach Hfin. unfold finished in Hfin.
  apply andb_true_iff in Hfin as [Hfin Hps]. apply andb_true_iff in Hfin as [Hfin Hdl].
  apply andb_true_iff in Hfin as [Hdone Hic].
  destruct (st_dl s) eqn:Hd; try done.
  destruct (reachable_acct _ _ _ Hreach) as [Htk _ _]. rewrite Hd in Htk.
  simpl in Htk. rewrite app_nil_r in Htk.
  destruct (reachable_single _ _ _ Hmix Hreach) as [x [_ _ _ _ _ Hfifo Hrt _ Hpl _]].
  destruct (st_players s) as [ps|] eqn:Hpls; [|done].
  destruct (Hpl _ eq_refl) as (st & -> & Hat). simpl in Hps.
  destruct st; try done. destruct Hat as [_ Hbuf].
  rewrite Hbuf, app_nil_r in Hfifo. split_and!.
  - by rewrite <- routed_outcomes, Hrt.
  - rewrite <- Htk. by apply done_taken.
  - intros Hsh. rewrite <- Htk. apply seq_finished_taken; [|done..].
    unfold concurrent_queries. by rewrite Hsh, Hmix.
Qed.

Lemma finished_run_plays_in_order_witness :
  mix cfg_cafe = false ∧
  reachable cfg_cafe w_cached (state_after cfg_cafe w_cached sched_whole) ∧
  finished (state_after cfg_cafe w_cached sched_whole) = true ∧
  played (st_trace (state_after cfg_cafe w_cached sched_whole)) = [snd_a "cafe"] ∧
  outcome_item <$> outcomes (st_trace (state_after cfg_cafe w_cached sched_whole))
  = all_items cfg_cafe w_cached.
Proof.
  assert (reachable cfg_cafe w_cached (state_after cfg_cafe w_cached sched_whole))
    as Hreach by by_schedule sched_whole.
  assert (finished (state_after cfg_cafe w_cached sched_whole) = true)
    as Hfin by (vm_compute; reflexivity).
  split; [reflexivity|]. split; [exact Hreach|]. split; [exact Hfin|].
  split; [reflexivity|].
  exact (proj2 (proj2 (finished_run_plays_in_order cfg_cafe _ _
                         eq_refl Hreach Hfin)) eq_refl).
Defined.

(** X16.  [initDatabase] makes one row of every record of the CSV file, the
    first (the header line) included, in the order of the file, each from
    the first seven fields of its record: when no call fails and every
    record has at least seven fields it returns, and the table holds the
    rows it had followed by those rows. *)
Theorem initDatabase_inserts_every_record dbFile csvFile h bytes records :
  (∀ c, h_sql_fails h c = false) →
  os_Open h csvFile = Some bytes → csv_ReadAll h bytes = Some records →
  Forall (λ r, (7 ≤ length r)%nat) records →
  initDatabase dbFile csvFile h
  = Returns ()
      (host_set_dbs
         (<[dbFile := default [] (h_dbs h !! dbFile) ++ (take 7 <$> records)]> (h_dbs h))
         (host_log (LogInitializing dbFile) h)).
Proof.
  intros Hsql Hopen Hcsv Hall.
  destruct (initDatabase_loop dbFile csvFile h bytes records Hsql Hopen Hcsv)
    as (h1 & Hdb1 & Hsql1 & Hset & Hdbs & ->).
  rewrite (insert_records_ok _ _ _ _ _ Hsql1 Hdb1 Hall).
  by rewrite Hset, <- Hdbs, insert_insert_eq.
Qed.

Lemma initDatabase_inserts_every_record_witness :
  (∀ c, h_sql_fails (host_of {[ "index.csv" := index_bytes ]} ∅ [header; record_a]) c
        = false) ∧
  os_Open (host_of {[ "index.csv" := index_bytes ]} ∅ [header; record_a]) "index.csv"
  = Some index_bytes ∧
  Forall (λ r, (7 ≤ length r)%nat) [header; record_a] ∧
  h_dbs (host_after
           (initDatabase "sounds.db" "index.csv"
              (host_of {[ "index.csv" := index_bytes ]} ∅ [header; record_a])))
    !! "sounds.db"
  = Some [header; ["a.wav"; "Cafe ambience"; "61"; "Atmosphere"; "EC1"; "Cafes"; "1"]].
Proof.
  assert (∀ c, h_sql_fails (host_of {[ "index.csv" := index_bytes ]} ∅
                              [header; record_a]) c = false) as Hsql
    by (intros c; reflexivity).
  assert (os_Open (host_of {[ "index.csv" := index_bytes ]} ∅ [header; record_a])
            "index.csv" = Some index_bytes) as Hopen by reflexivity.
  assert (Forall (λ r, (7 ≤ length r)%nat) [header; record_a]) as Hall.
  { repeat constructor; simpl; lia. }
  split; [exact Hsql|]. split; [exact Hopen|]. split; [exact Hall|].
  rewrite (initDatabase_inserts_every_record "sounds.db" "index.csv" _ _ _
             Hsql Hopen eq_refl Hall).
  reflexivity.
Defined.

(** X17.  The records that [ReadAll] returns all have as many fields as the
    first.  So when a record of the CSV file has fewer than seven fields
    [initDatabase] stops with a run-time panic (index out of range) at the
    first record: no row is inserted, and the table, which was made before
    the file was read, exists from then on. *)
Theorem initDatabase_short_record_panics dbFile csvFile h bytes records r :
  (∀ c, h_sql_fails h c = false) →
  os_Open h csvFile = Some bytes → csv_ReadAll h bytes = Some records →
  r ∈ records → length r < 7 →
  initDatabase dbFile csvFile h
  = Dies Panic
      (host_set_dbs
         (<[dbFile := default [] (h_dbs h !! dbFile)]> (h_dbs h))
         (host_log (LogInitializing dbFile) h)).
Proof.
  intros Hsql Hopen Hcsv Hin Hr.
  destruct (csv_ReadAll_uniform _ _ _ Hcsv) as [_ Hu].
  destruct records as [|r0 post]; [by apply elem_of_nil in Hin|].
  pose proof (uniform_length _ _ _ Hu Hin) as Hlen.
  destruct (initDatabase_loop dbFile csvFile h bytes _ Hsql Hopen Hcsv)
    as (h1 & Hdb1 & Hsql1 & Hset & Hdbs & ->).
  change (r0 :: post) with ([] ++ r0 :: post).
  rewrite (insert_records_short dbFile 0 [] r0 post _ _ Hsql1 Hdb1); [|done|lia].
  simpl. by rewrite app_nil_r, Hset, <- Hdbs, insert_insert_eq.
Qed.

Lemma initDatabase_short_record_panics_witness :
  (∀ c, h_sql_fails (host_of {[ "index.csv" := index_bytes ]} ∅
                       [header_short; record_short]) c = false) ∧
  record_short ∈ [header_short; record_short] ∧ length record_short < 7 ∧
  initDatabase "sounds.db" "index.csv"
    (host_of {[ "index.csv" := index_bytes ]} ∅ [header_short; record_short])
  = Dies Panic
      (mkHost (w_index {[ "index.csv" := index_bytes ]}) ∅ {[ "sounds.db" := [] ]}
              (Some "cache") ∅ ∅ (λ _, Some [header_short; record_short])
              (λ _, false) [LogInitializing "sounds.db"]).
Proof.
  assert (∀ c, h_sql_fails (host_of {[ "index.csv" := index_bytes ]} ∅
                              [header_short; record_short]) c = false) as Hsql
    by (intros c; reflexivity).
  assert (record_short ∈ [header_short; record_short]) as Hin
    by (do 2 constructor).
  assert (length record_short < 7) as Hr by (simpl; lia).
  split; [exact Hsql|]. split; [exact Hin|]. split; [exact Hr|].
  rewrite (initDatabase_short_record_panics "sounds.db" "index.csv" _ index_bytes
             [header_short; record_short] record_short Hsql eq_refl eq_refl Hin Hr).
  reflexivity.
Defined.

(** X18.  When [prepareWorkDirectory] returns, everything it looks for is in
    place: something exists at the path of the work directory it chose and
    at the path of the sounds directory, the CSV file exists, and [os.Stat]
    on the database does not report not-exist.  The two paths are
    directories, unless something else (a file) was at the path before the
    call: the "exists" error of [os.Mkdir] is accepted.  A second call finds
    it so: it returns the same directory and changes nothing, with no
    directory made, nothing fetched and no database initialised. *)
Theorem prepareWorkDirectory_idempotent root h wd h' :
  prepareWorkDirectory root h = Returns wd h' →
  ready root wd h' ∧
  (∀ dir, dir = filepath_Join wd "sounds" ∨ (root = "" ∧ dir = wd) →
          dir ∈ h_dirs h' ∨ dir ∈ dom (files (h_world h)) ∨ dir ∈ dom (h_dbs h)) ∧
  prepareWorkDirectory root h' = Returns wd h'.
Proof.
  intros Hret. apply prepareWorkDirectory_ready in Hret as Hready.
  split; [done|]. split; [by eapply prepareWorkDirectory_made|].
  by apply ready_prepareWorkDirectory.
Qed.

Lemma prepareWorkDirectory_idempotent_witness :
  prepareWorkDirectory "" (host_of ∅ ∅ [header; record_a])
  = Returns "cache/thames"
      (mkHost (w_index {[ "cache/thames/BBCSoundEffects.csv" := index_bytes ]})
              {[ "cache/thames"; "cache/thames/sounds" ]}
              {[ "cache/thames/sounds.db"
                   := [header; ["a.wav"; "Cafe ambience"; "61"; "Atmosphere"; "EC1";
                                "Cafes"; "1"]] ]}
              (Some "cache") ∅ ∅ (λ _, Some [header; record_a]) (λ _, false)
              [LogInitializing "cache/thames/sounds.db"]) ∧
  prepareWorkDirectory ""
    (mkHost (w_index {[ "cache/thames/BBCSoundEffects.csv" := index_bytes ]})
            {[ "cache/thames"; "cache/thames/sounds" ]}
            {[ "cache/thames/sounds.db"
                 := [header; ["a.wav"; "Cafe ambience"; "61"; "Atmosphere"; "EC1";
                              "Cafes"; "1"]] ]}
            (Some "cache") ∅ ∅ (λ _, Some [header; record_a]) (λ _, false)
            [LogInitializing "cache/thames/sounds.db"])
  = Returns "cache/thames"
      (mkHost (w_index {[ "cache/thames/BBCSoundEffects.csv" := index_bytes ]})
              {[ "cache/thames"; "cache/thames/sounds" ]}
              {[ "cache/thames/sounds.db"
                   := [header; ["a.wav"; "Cafe ambience"; "61"; "Atmosphere"; "EC1";
                                "Cafes"; "1"]] ]}
              (Some "cache") ∅ ∅ (λ _, Some [header; record_a]) (λ _, false)
              [LogInitializing "cache/thames/sounds.db"]).
Proof.
  assert (prepareWorkDirectory "" (host_of ∅ ∅ [header; record_a])
          = Returns "cache/thames"
              (mkHost (w_index {[ "cache/thames/BBCSoundEffects.csv" := index_bytes ]})
                 {[ "cache/thames"; "cache/thames/sounds" ]}
                 {[ "cache/thames/sounds.db"
                      := [header; ["a.wav"; "Cafe ambience"; "61"; "Atmosphere"; "EC1";
                                   "Cafes"; "1"]] ]}
                 (Some "cache") ∅ ∅ (λ _, Some [header; record_a]) (λ _, false)
                 [LogInitializing "cache/thames/sounds.db"])) as Hret
    by (vm_compute; reflexivity).
  split; [exact Hret|].
  exact (proj2 (proj2 (prepareWorkDirectory_idempotent _ _ _ _ Hret))).
Defined.

(** X19.  Start-up only adds: however [prepareWorkDirectory] ends, the
    directories that were there are there, every file that was there has the
    contents it had, every database table that was there begins with the
    rows it had, the log begins with what it held, and what answers the
    library calls (the remote assets among it) is untouched. *)
Theorem prepareWorkDirectory_only_adds root h :
  evolves h (host_after (prepareWorkDirectory root h)).
Proof.
  unfold prepareWorkDirectory.
  apply call_bind_evolves; [apply choose_workDir_evolves|]. intros wd h1 _.
  apply call_bind_evolves; [apply mkdir_or_exists_evolves|]. intros _ h2 _.
  apply call_bind_evolves; [apply fetch_index_evolves|]. intros _ h3 _.
  apply call_bind_evolves; [apply build_index_evolves|]. intros _ h4 _.
  apply evolves_refl.
Qed.




(** X22.  With [--mix] and without [-d] the pipeline can still end as long
    as no player has been left behind by [router.close()]: from every state
    that a run can reach in which [router.close()] has not run yet, or every
    player has made its [route] call and holds a closed stream, some
    continuation ends with every goroutine done ([wg.Wait()] returns) or
    with [log.Fatal]. *)
Theorem mix_ends_unless_player_left_behind cfg w s :
  mix cfg = true → onlyDownload cfg = false → reachable cfg w s →
  players_attached s →
  ∃ ls s', run cfg ls s = Some s' ∧
           (finished s' = true ∨ st_halt s' = Some Fatal).
Proof.
  intros Hmix Hnd Hreach Hatt.
  assert (∀ n s, reachable cfg w s → players_attached s → weight cfg w s < n →
            ∃ ls s', run cfg ls s = Some s' ∧
                     (finished s' = true ∨ st_halt s' = Some Fatal)) as Hind.
  { clear s Hreach Hatt. intros n.
    induction n as [|n IH]; intros s Hreach Hatt Hn; [lia|].
    destruct (st_halt s) as [[|]|] eqn:Hhalt.
    - exists [], s. auto.
    - by destruct (reachable_live _ _ _ Hreach) as [_ _ ?].
    - destruct (finished s) eqn:Hfin; [exists [], s; auto|].
      destruct (mix_progress _ _ _ Hmix Hnd Hreach Hhalt Hfin Hatt)
        as (l & s1 & Hstep & [Hfatal|(_ & Hlt & Hatt1)]).
      + exists [l], s1. simpl. rewrite Hstep. auto.
      + destruct (IH s1) as (ls & s' & Hrun & Hend).
        * by eapply reachable_step.
        * done.
        * lia.
        * exists (l :: ls), s'. simpl. rewrite Hstep. auto. }
  apply (Hind (S (weight cfg w s))); [done|done|lia].
Qed.

Lemma mix_ends_unless_player_left_behind_witness :
  mix cfg_mix2 = true ∧ onlyDownload cfg_mix2 = false ∧
  reachable cfg_mix2 w_cached (state_after cfg_mix2 w_cached sched_mix2) ∧
  players_attached (state_after cfg_mix2 w_cached sched_mix2) ∧
  ∃ ls s', run cfg_mix2 ls (state_after cfg_mix2 w_cached sched_mix2) = Some s' ∧
           (finished s' = true ∨ st_halt s' = Some Fatal).
Proof.
  assert (reachable cfg_mix2 w_cached (state_after cfg_mix2 w_cached sched_mix2))
    as Hreach by by_schedule sched_mix2.
  assert (players_attached (state_after cfg_mix2 w_cached sched_mix2)) as Hatt.
  { left. vm_compute. discriminate. }
  split; [reflexivity|]. split; [reflexivity|]. split; [exact Hreach|].
  split; [exact Hatt|].
  exact (mix_ends_unless_player_left_behind cfg_mix2 w_cached _ eq_refl eq_refl
           Hreach Hatt).
Defined.

(** X23.  With [--query] the program always comes to its exit, in a number
    of steps fixed by the results of the queries: a run of the preview
    makes at most one step for the exit and, for each term, the call of
    [queryDatabase], its return, and one send and one print per item; and
    until the exit some goroutine can move, so the preview cannot
    deadlock. *)
Theorem preview_ends cfg w ls p :
  pv_run cfg ls (pv_init w) = Some p →
  (length ls
   ≤ 1 + sum_list ((λ q, 2 * length (items_of cfg w q) + 2) <$> args cfg))%nat ∧
  (pv_exit p = None → ∃ l p', pv_step cfg l p = Some p').
Proof.
  intros Hrun. split.
  - assert (length ls + pv_weight cfg w p = pv_weight cfg w (pv_init w)) as Hsteps.
    { revert p Hrun. induction ls as [|l ls IH] using rev_ind; intros p Hrun.
      - simpl in Hrun. by simplify_eq.
      - rewrite pv_run_app in Hrun.
        destruct (pv_run cfg ls (pv_init w)) as [p0|] eqn:Hp0; simpl in Hrun; [|done].
        destruct (pv_step cfg l p0) as [p1|] eqn:Hp1; simpl in Hrun; [|done].
        simplify_eq. specialize (IH _ eq_refl).
        assert (pv_inv cfg w p0) as Hinv by (apply pv_reachable_inv; by exists ls).
        pose proof (pv_step_weight _ _ _ _ _ Hinv Hp1).
        rewrite length_app. simpl. lia. }
    unfold pv_weight at 2 in Hsteps. unfold pv_started, held in Hsteps.
    simpl in Hsteps. unfold query_steps in Hsteps. rewrite drop_0 in Hsteps. lia.
  - apply (pv_progress cfg w). apply pv_reachable_inv. by exists ls.
Qed.

Lemma preview_ends_witness :
  pv_exit <$> pv_run cfg_preview sched_pv (pv_init w_half) = Some (Some 0%Z) ∧
  ∃ p, pv_run cfg_preview sched_pv (pv_init w_half) = Some p ∧
       (length sched_pv
        ≤ 1 + sum_list ((λ q, 2 * length (items_of cfg_preview w_half q) + 2)
                          <$> args cfg_preview))%nat.
Proof.
  split; [by vm_compute|].
  destruct (pv_run cfg_preview sched_pv (pv_init w_half)) as [p|] eqn:Hrun;
    [|by vm_compute in Hrun].
  exists p. split; [done|].
  exact (proj1 (preview_ends cfg_preview w_half sched_pv p Hrun)).
Defined.

(** X24.  With [--mix] the per-query router makes exactly one stream per key
    and every item sent on the stream of key [k] has query [k]: in every
    state of every interleaving the heap holds as many channels as the
    table has keys, two keys never share a channel, routing a key that is
    in the table returns its channel and makes none, the history of the
    stream of [k] (which is what the trace says was routed on it) holds only
    items of query [k], and the keys are keys that [main] routes (the terms
    and the keys of the players).  Without [-d], once every player has made
    its [route] call the keys are exactly the terms of the command line. *)
Theorem mix_one_stream_per_term cfg w s :
  mix cfg = true → reachable cfg w s →
  ∃ r : multiPlayersRouter,
    st_router s = RMulti r ∧
    size (routes r) = length (st_heap s) ∧
    (∀ k1 k2 ch, routes r !! k1 = Some ch → routes r !! k2 = Some ch → k1 = k2) ∧
    (∀ k ch, routes r !! k = Some ch → route k r (st_heap s) = (ch, r, st_heap s)) ∧
    (∀ k ch, routes r !! k = Some ch →
       sent_of (st_heap s) ch = routed_on ch (st_trace s) ∧
       Forall (λ snd, query snd = k) (routed_on ch (st_trace s))) ∧
    dom (routes r) ⊆ stream_keys cfg ∧
    (onlyDownload cfg = false →
     ∀ ps, st_players s = Some ps → Forall (λ pl, pl_st pl ≠ PlStart) ps →
           dom (routes r) = list_to_set (args cfg)).
Proof.
  intros Hmix Hreach.
  destruct (reachable_mix _ _ _ Hmix Hreach) as [r [Hr Hok Hkeys Hdl Hlaunch Hpl]].
  destruct (reachable_acct _ _ _ Hreach) as [_ _ Hsent].
  destruct Hok as (Hsize & Hlook & Hinj).
  exists r. split_and!; try done.
  - intros k ch Hk. simpl. unfold multi_route. by rewrite Hk.
  - intros k ch Hk. split; [done|]. rewrite <- Hsent. by apply Hlook.
  - intros Hd ps Hps Hstarted. apply (anti_symm (⊆)).
    + by rewrite <- (stream_keys_mix cfg Hmix Hd).
    + intros q Hq%elem_of_list_to_set. specialize (Hlaunch _ Hps).
      rewrite launch_keys_mix in Hlaunch by done. rewrite <- Hlaunch in Hq.
      apply list_elem_of_fmap in Hq as (pl & -> & Hin).
      pose proof (proj1 (Forall_forall _ _) (Hpl _ Hps) _ Hin) as Hplok.
      pose proof (proj1 (Forall_forall _ _) Hstarted _ Hin) as Hst.
      simpl in Hst. unfold player_ok in Hplok.
      destruct (pl_st pl) eqn:Hpst; [done| |done].
      apply elem_of_dom. by eexists.
Qed.

Lemma mix_one_stream_per_term_witness :
  mix cfg_mix2 = true ∧
  reachable cfg_mix2 w_cached (state_after cfg_mix2 w_cached sched_mix2) ∧
  ∃ r, st_router (state_after cfg_mix2 w_cached sched_mix2) = RMulti r ∧
       size (routes r) = 2 ∧
       dom (routes r) = list_to_set ["cafe"; "typewriter"].
Proof.
  assert (mix cfg_mix2 = true) as Hmix by reflexivity.
  assert (reachable cfg_mix2 w_cached (state_after cfg_mix2 w_cached sched_mix2))
    as Hreach by by_schedule sched_mix2.
  split; [exact Hmix|]. split; [exact Hreach|].
  destruct (mix_one_stream_per_term _ _ _ Hmix Hreach)
    as (r & Hr & Hsize & _ & _ & _ & _ & Hall).
  exists r. split; [exact Hr|]. split.
  - rewrite Hsize. reflexivity.
  - apply (Hall eq_refl _ eq_refl). vm_compute. repeat constructor; discriminate.
Defined.

(** X25.  No component changes an item once [queryDatabase] has built it,
    and it is [queryDatabase] that attaches the local path: every
    item in any event of any run, in the downloader's hands or in the
    history of any stream is, field for field, an item that [queryDatabase]
    built for a term of the command line; the downloader's outcomes carry
    the items it took, in order; and every item that [queryDatabase] builds
    has [fpath = soundPath fname] and the query it was built for. *)
Theorem items_never_mutated cfg w s :
  reachable cfg w s →
  (∀ e snd, e ∈ st_trace s → event_item e = Some snd →
            produced cfg w snd ∧ fpath snd = soundPath cfg (fname snd)) ∧
  (∀ snd, snd ∈ inflight (st_dl s) → produced cfg w snd) ∧
  (∀ ch x snd, st_heap s !! ch = Some x → snd ∈ sent x → produced cfg w snd) ∧
  taken (st_trace s)
    = (outcome_item <$> outcomes (st_trace s)) ++ inflight (st_dl s) ∧
  (∀ q items, query_items cfg w q = Some items →
     Forall (λ snd, fpath snd = soundPath cfg (fname snd) ∧ query snd = q) items).
Proof.
  intros Hreach. destruct (reachable_items _ _ _ Hreach) as [_ Hdl Hheap Htr].
  destruct (reachable_acct _ _ _ Hreach) as [Htk _ _].
  split_and!; try done.
  - intros e snd He Hsnd.
    pose proof (proj1 (Forall_forall _ _) Htr _ He _ Hsnd) as Hp.
    split; [done|]. by apply produced_fields in Hp as [_ ?].
  - intros snd Hin. by apply (proj1 (Forall_forall _ _) Hdl).
  - intros ch x snd Hx Hin. destruct (Hheap _ _ Hx) as [Hall _].
    by apply (proj1 (Forall_forall _ _) Hall).
  - intros q items Hq. unfold query_items, stmt_Query in Hq.
    destruct (catalog w q) as [rs|]; simpl in Hq; [|done]. simplify_eq.
    apply Forall_fmap, Forall_true. by intros r.
Qed.

Lemma items_never_mutated_witness :
  reachable cfg_seq2 w_empty (state_after cfg_seq2 w_empty sched_seq2) ∧
  produced cfg_seq2 w_empty (snd_b "typewriter").
Proof.
  assert (reachable cfg_seq2 w_empty (state_after cfg_seq2 w_empty sched_seq2))
    as Hreach by by_schedule sched_seq2.
  split; [exact Hreach|].
  destruct (items_never_mutated _ _ _ Hreach) as (_ & Hdl & _).
  apply Hdl. vm_compute. left.
Defined.

(** X26.  With [--query], [main] never leaves the preview: a state of the
    program is a preview state, which has no router, no stream and no
    downloader, and the world is the one it started in, so nothing was
    fetched.  The lines printed are the lines of the items printed; a
    printer prints the items of its own query, in their order; the line of
    an item is its description followed by its local path when the file is
    there and by its asset URL when it is not, and the two differ.  The
    program exits with status 0 only at the end of the command line, when
    every query has sent all its items to its printer, which has printed
    them or still holds the last one. *)
Theorem preview_prints_and_drains cfg w ls g :
  onlyQuery cfg = true → main_run cfg ls (main cfg w) = Some g →
  ∃ p, g = Preview p ∧ pv_world p = w ∧
    pv_stdout p = (λ x, preview_line w x.2) <$> pv_log p ∧
    (∀ i hold, pv_printers p !! i = Some hold →
       ∃ q, args cfg !! i = Some q ∧
            (printed_by i (pv_log p) ++ option_list hold)
              `prefix_of` items_of cfg w q) ∧
    (∀ snd, produced cfg w snd →
       preview_line w snd
       = descr snd +:+ " " +:+
         (match os_Stat w (soundPath cfg (fname snd)) with
          | None => soundPath cfg (fname snd)
          | Some _ => assetUrl (fname snd)
          end) +:+ "
" ∧
       soundPath cfg (fname snd) ≠ assetUrl (fname snd)) ∧
    (pv_exit p = Some 0%Z →
     pv_pos p = length (args cfg) ∧ pv_rest p = None ∧
     ∀ i q, args cfg !! i = Some q →
       ∃ hold, pv_printers p !! i = Some hold ∧
               printed_by i (pv_log p) ++ option_list hold = items_of cfg w q).
Proof.
  intros Hq Hrun. unfold main in Hrun. rewrite Hq in Hrun.
  apply main_run_preview in Hrun as (p & pls & -> & Hpls).
  assert (pv_reachable cfg w p) as Hreach by by exists pls.
  destruct (pv_reachable_inv _ _ _ Hreach)
    as [Hw Hout Hpr Hpos Hitems Hfresh Hexit].
  exists p. split_and!; try done.
  - intros i hold Hi. destruct (Hitems _ _ Hi) as (q & Hqi & Heq).
    exists q. split; [done|]. rewrite <- Heq, (assoc_L (++)). by eexists.
  - intros snd Hp. apply produced_fields in Hp as [_ Hpath]. split.
    + unfold preview_line. rewrite Hpath. by destruct (os_Stat _ _).
    + apply soundPath_not_assetUrl.
  - intros Hex. destruct (Hexit _ Hex) as [(_ & Hrest & Hend)|?]; [|done].
    split_and!; try done. intros i q Hi.
    unfold pv_started in *. rewrite Hrest in *.
    destruct (lookup_lt_is_Some_2 (pv_printers p) i) as [hold Hhold].
    { apply lookup_lt_Some in Hi. lia. }
    exists hold. split; [done|].
    destruct (Hitems _ _ Hhold) as (q' & Hq' & Heq). simplify_eq.
    rewrite <- Heq. case_decide; simpl; by rewrite app_nil_r.
Qed.

Lemma preview_prints_and_drains_witness :
  onlyQuery cfg_preview = true ∧
  (λ g, match g with
        | Preview p => Some (pv_stdout p, pv_exit p)
        | Pipeline _ => None
        end) <$> main_run cfg_preview sched_preview (main cfg_preview w_half)
  = Some (Some (["Cafe ambience sounds/a.wav
";
                 "Typewriter http://bbcsfx.acropolis.org.uk/assets/b.wav
"], Some 0%Z)) ∧
  ∃ p, main_run cfg_preview sched_preview (main cfg_preview w_half)
       = Some (Preview p).
Proof.
  split; [reflexivity|]. split; [vm_compute; reflexivity|].
  destruct (main_run cfg_preview sched_preview (main cfg_preview w_half))
    as [g|] eqn:Hrun; [|vm_compute in Hrun; discriminate Hrun].
  destruct (preview_prints_and_drains cfg_preview w_half sched_preview g
              eq_refl Hrun) as (p & -> & _).
  by exists p.
Defined.
